(** * logmerge: merging timestamped log files

    A shallow embedding of [logmerge.py] and the properties of its three
    parts: timestamp detection ([parse_datetime]), per-file entry
    segmentation ([Logfile]) and the k-way merge ([LogSet], [main]).

    Conventions of the embedding.
    - A Python [str] is a [string]; a text stream is the path it was
      opened with and the list of the lines that successive [readline]
      calls still have to return.
    - A Python exception is a value of [exn]; code that can raise returns a
      [result].
    - A [datetime] is naive (it carries no time zone), so any two of them
      compare.  This is an assumption on the custom format: one with the
      directive [%z] makes [strptime] return aware datetimes, which do not
      compare with [datetime.max]; such a format is outside [PyLib].
    - Library functions ([re], [datetime.strptime], [float] and
      [datetime.utcfromtimestamp], the [unicode_escape] codec) are the
      fields of the class [PyLib]; the program is embedded over any
      instance.  [Py.cpython] is a computable instance that covers a
      fragment of the libraries. *)

From Stdlib Require Import ZArith List String Ascii Bool Lia Arith Sorted.
From Stdlib Require Import Permutation.
From Stdlib Require Import DecimalString.
Import ListNotations.

Local Open Scope string_scope.
Local Open Scope list_scope.

(** ** Exceptions and results *)

Inductive exn : Type :=
| EOFError
| ValueError
| TypeError
| IndexError
| KeyError
| OverflowError
| OSError
| AttributeError
| UnicodeDecodeError
| ReError                 (* re.error *)
| NotImplementedError.    (* outside the fragment covered by [Py.cpython] *)

Inductive result (A : Type) : Type :=
| Ok (a : A)
| Raise (e : exn).

Arguments Ok {A} a.
Arguments Raise {A} e.

Definition bind {A B : Type} (m : result A) (k : A -> result B) : result B :=
  match m with
  | Ok a => k a
  | Raise e => Raise e
  end.

Notation "x <- m ;; k" := (bind m (fun x => k))
  (at level 61, m at next level, right associativity).
Notation "' pat <- m ;; k" := (bind m (fun x => match x with pat => k end))
  (at level 61, pat pattern, m at next level, right associativity).

(** ** Characters and strings *)

Definition LF : ascii := "010"%char.
Definition ESC : ascii := "027"%char.

Definition is_digit (c : ascii) : bool :=
  let n := nat_of_ascii c in (48 <=? n)%nat && (n <=? 57)%nat.

Definition is_space (c : ascii) : bool :=
  let n := nat_of_ascii c in ((9 <=? n)%nat && (n <=? 13)%nat) || (n =? 32)%nat.

Definition is_alpha (c : ascii) : bool :=
  let n := nat_of_ascii c in
  ((65 <=? n)%nat && (n <=? 90)%nat) || ((97 <=? n)%nat && (n <=? 122)%nat).

Definition digit_val (c : ascii) : Z := Z.of_nat (nat_of_ascii c) - 48.

(** [int(s)] for a string of decimal digits. *)
Fixpoint int_of_digits_acc (s : string) (acc : Z) : Z :=
  match s with
  | EmptyString => acc
  | String c s' => int_of_digits_acc s' (10 * acc + digit_val c)
  end.

Definition int_of_digits (s : string) : Z := int_of_digits_acc s 0.

(** [str(n)] for a non-negative integer. *)
Definition str_of_nat (n : nat) : string := NilZero.string_of_uint (Nat.to_uint n).

(** ** datetime *)

Record datetime : Type := mkdt {
  year : Z; month : Z; day : Z;
  hour : Z; minute : Z; second : Z; microsecond : Z
}.

(** Python compares naive datetimes field by field, most significant first. *)
Definition dt_fields (d : datetime) : list Z :=
  [year d; month d; day d; hour d; minute d; second d; microsecond d].

Fixpoint lex_compare (a b : list Z) : comparison :=
  match a, b with
  | [], [] => Eq
  | [], _ :: _ => Lt
  | _ :: _, [] => Gt
  | x :: a', y :: b' =>
      match Z.compare x y with
      | Eq => lex_compare a' b'
      | c => c
      end
  end.

Definition dt_compare (a b : datetime) : comparison :=
  lex_compare (dt_fields a) (dt_fields b).

(** [a <= b] on datetimes. *)
Definition dt_leb (a b : datetime) : bool :=
  match dt_compare a b with
  | Gt => false
  | _ => true
  end.

(** [datetime.max] *)
Definition datetime_max : datetime := mkdt 9999 12 31 23 59 59 999999.

Definition is_leap (y : Z) : bool :=
  ((y mod 4 =? 0) && negb (y mod 100 =? 0) || (y mod 400 =? 0))%Z.

Definition days_in_month (y m : Z) : Z :=
  if (m =? 2)%Z then (if is_leap y then 29 else 28)
  else if ((m =? 4) || (m =? 6) || (m =? 9) || (m =? 11))%Z then 30
  else 31.

(** The range checks of the [datetime] constructor. *)
Definition dt_valid (d : datetime) : bool :=
  ((1 <=? year d) && (year d <=? 9999) &&
   (1 <=? month d) && (month d <=? 12) &&
   (1 <=? day d) && (day d <=? days_in_month (year d) (month d)) &&
   (0 <=? hour d) && (hour d <=? 23) &&
   (0 <=? minute d) && (minute d <=? 59) &&
   (0 <=? second d) && (second d <=? 59) &&
   (0 <=? microsecond d) && (microsecond d <=? 999999))%Z.

(** [datetime(y, m, d, H, M, S, us)]: raises [ValueError] out of range. *)
Definition make_datetime (y m d H M S us : Z) : result datetime :=
  let dt := mkdt y m d H M S us in
  if dt_valid dt then Ok dt else Raise ValueError.

(** ** Regular expressions

    The fragment of Python's [re] that the program's own patterns and the
    format translation of [strptime] need: a backtracking matcher that
    returns the first match in priority order, anchored at position 0
    (as [Pattern.match] does), with numbered capturing groups. *)

Module Re.

Inductive regex : Type :=
| Eps
| Lit (c : ascii)
| Digit                       (* \d *)
| Space                       (* \s *)
| Any                         (* .  *)
| Rng (lo hi : ascii)         (* [lo-hi] *)
| Cat (r1 r2 : regex)
| Alt (r1 r2 : regex)         (* r1|r2 *)
| Plus (r : regex)            (* r+ *)
| Star (r : regex)            (* r* *)
| Opt (r : regex)             (* r? *)
| Grp (r : regex).            (* (r) *)

(** One way of matching a prefix: the text consumed, the captures of the
    groups in the order of their opening parentheses, and what is left. *)
Record mres : Type := mk_mres {
  consumed : string;
  groups : list (option string);
  rest : string
}.

Fixpoint ngroups (r : regex) : nat :=
  match r with
  | Cat r1 r2 | Alt r1 r2 => ngroups r1 + ngroups r2
  | Plus r1 | Star r1 | Opt r1 => ngroups r1
  | Grp r1 => S (ngroups r1)
  | _ => 0
  end.

Definition unset (r : regex) : list (option string) := repeat None (ngroups r).

Fixpoint nullable (r : regex) : bool :=
  match r with
  | Eps | Star _ | Opt _ => true
  | Cat r1 r2 => nullable r1 && nullable r2
  | Alt r1 r2 => nullable r1 || nullable r2
  | Plus r1 | Grp r1 => nullable r1
  | _ => false
  end.

Definition one_char (p : ascii -> bool) (s : string) : list mres :=
  match s with
  | String c s' => if p c then [mk_mres (String c "") [] s'] else []
  | EmptyString => []
  end.

(** Zero or more greedy repetitions of [step]; [last] holds the captures of
    the latest repetition.  A repetition that consumes nothing ends the
    loop, so [fuel = length s] repetitions are always enough. *)
Fixpoint iter (step : string -> list mres) (last : list (option string))
    (fuel : nat) (s : string) {struct fuel} : list mres :=
  match fuel with
  | O => [mk_mres "" last s]
  | S n =>
      flat_map
        (fun m1 =>
           match consumed m1 with
           | EmptyString => []
           | _ =>
               map (fun m2 =>
                      mk_mres (consumed m1 ++ consumed m2) (groups m2) (rest m2))
                   (iter step (groups m1) n (rest m1))
           end)
        (step s)
      ++ [mk_mres "" last s]
  end.

(** All the ways [r] matches a prefix of [s], in the order a backtracking
    matcher tries them. *)
Fixpoint run (r : regex) (s : string) {struct r} : list mres :=
  match r with
  | Eps => [mk_mres "" [] s]
  | Lit c => one_char (Ascii.eqb c) s
  | Digit => one_char is_digit s
  | Space => one_char is_space s
  | Any => one_char (fun c => negb (Ascii.eqb c LF)) s
  | Rng lo hi =>
      one_char (fun c => (nat_of_ascii lo <=? nat_of_ascii c)%nat
                         && (nat_of_ascii c <=? nat_of_ascii hi)%nat) s
  | Cat r1 r2 =>
      flat_map
        (fun m1 =>
           map (fun m2 =>
                  mk_mres (consumed m1 ++ consumed m2)
                          (groups m1 ++ groups m2) (rest m2))
               (run r2 (rest m1)))
        (run r1 s)
  | Alt r1 r2 =>
      map (fun m => mk_mres (consumed m) (groups m ++ unset r2) (rest m)) (run r1 s)
      ++ map (fun m => mk_mres (consumed m) (unset r1 ++ groups m) (rest m)) (run r2 s)
  | Plus r1 =>
      flat_map
        (fun m1 =>
           map (fun m2 =>
                  mk_mres (consumed m1 ++ consumed m2) (groups m2) (rest m2))
               (iter (run r1) (groups m1) (String.length (rest m1)) (rest m1)))
        (run r1 s)
  | Star r1 => iter (run r1) (unset r1) (String.length s) s
  | Opt r1 => run r1 s ++ [mk_mres "" (unset r1) s]
  | Grp r1 =>
      map (fun m => mk_mres (consumed m) (Some (consumed m) :: groups m) (rest m))
          (run r1 s)
  end.

(** A match object: group 0 (the whole match) followed by the numbered
    groups; a group that did not take part is [None]. *)
Definition Match : Type := list (option string).

(** A compiled pattern is what its [match] method computes. *)
Definition Pattern : Type := string -> option Match.

Definition match_ (r : regex) : Pattern :=
  fun s =>
    match run r s with
    | [] => None
    | m :: _ => Some (Some (consumed m) :: groups m)
    end.

(** [m.group(n)]: [IndexError] when the pattern has no such group. *)
Definition group (m : Match) (n : nat) : result (option string) :=
  match nth_error m n with
  | Some g => Ok g
  | None => Raise IndexError
  end.

(** How much of the subject the match covers ([m.end()]). *)
Definition end_ (m : Match) : nat :=
  match m with
  | Some s :: _ => String.length s
  | _ => 0
  end.

Fixpoint seq_of (items : list regex) : regex :=
  match items with
  | [] => Eps
  | [r] => r
  | r :: items' => Cat r (seq_of items')
  end.

(** *** The pattern syntax

    [cur] holds the items of the sequence being read, latest first, [quant]
    tells whether the latest item already carries a quantifier, and [stack]
    holds the sequences of the enclosing groups. *)
Definition is_punct (c : ascii) : bool :=
  let n := nat_of_ascii c in
  (n <? 128)%nat && (32 <? n)%nat && negb (is_digit c) && negb (is_alpha c).

Definition quantify (q : regex -> regex) (cur : list regex) (quant : bool)
    : result (list regex) :=
  match cur with
  | [] => Raise ReError                       (* nothing to repeat *)
  | x :: cur' =>
      if quant || nullable x then Raise NotImplementedError
      else Ok (q x :: cur')
  end.

Fixpoint parse (s : string) (cur : list regex) (quant : bool)
    (stack : list (list regex)) {struct s} : result regex :=
  match s with
  | EmptyString =>
      match stack with
      | [] => Ok (seq_of (rev cur))
      | _ :: _ => Raise ReError               (* missing ) *)
      end
  | String c s' =>
      if Ascii.eqb c "(" then
        match s' with
        | String "?" _ => Raise NotImplementedError
        | _ => parse s' [] false (cur :: stack)
        end
      else if Ascii.eqb c ")" then
        match stack with
        | [] => Raise ReError                 (* unbalanced parenthesis *)
        | up :: stack' => parse s' (Grp (seq_of (rev cur)) :: up) false stack'
        end
      else if Ascii.eqb c "+" then
        cur' <- quantify Plus cur quant ;; parse s' cur' true stack
      else if Ascii.eqb c "*" then
        cur' <- quantify Star cur quant ;; parse s' cur' true stack
      else if Ascii.eqb c "?" then
        cur' <- quantify Opt cur quant ;; parse s' cur' true stack
      else if Ascii.eqb c "." then parse s' (Any :: cur) false stack
      else if Ascii.eqb c "\" then
        match s' with
        | EmptyString => Raise ReError        (* bad escape (end of pattern) *)
        | String e s'' =>
            if Ascii.eqb e "d" then parse s'' (Digit :: cur) false stack
            else if Ascii.eqb e "s" then parse s'' (Space :: cur) false stack
            else if is_punct e then parse s'' (Lit e :: cur) false stack
            else Raise NotImplementedError
        end
      else if Ascii.eqb c "[" || Ascii.eqb c "]" || Ascii.eqb c "{"
              || Ascii.eqb c "}" || Ascii.eqb c "|" || Ascii.eqb c "^"
              || Ascii.eqb c "$" then Raise NotImplementedError
      else parse s' (Lit c :: cur) false stack
  end.

(** [re.compile(s)] on the fragment. *)
Definition compile (s : string) : result Pattern :=
  r <- parse s [] false [] ;; Ok (match_ r).

End Re.

(** ** The Python library the program calls *)

Class PyLib : Type := {
  (** [re.compile(s)]; raises [ReError] on a malformed pattern *)
  re_compile : string -> result Re.Pattern;
  (** [s.encode().decode('unicode_escape')] *)
  unicode_escape : string -> result string;
  (** [datetime.datetime.strptime(text, format)]; the datetime it returns
      is taken to be naive, as it is for every format without [%z] *)
  strptime : string -> string -> result datetime;
  (** [datetime.datetime.utcfromtimestamp(float(text))] *)
  utcfromtimestamp : string -> result datetime;
  (** every datetime object the library hands out passed the range checks
      of its constructor *)
  strptime_valid : forall text fmt d, strptime text fmt = Ok d -> dt_valid d = true;
  utcfromtimestamp_valid : forall text d, utcfromtimestamp text = Ok d -> dt_valid d = true;
  (** and neither conversion raises [EOFError] *)
  strptime_not_eof : forall text fmt, strptime text fmt <> Raise EOFError;
  utcfromtimestamp_not_eof : forall text, utcfromtimestamp text <> Raise EOFError
}.

(** A computable instance: [re] on the fragment of [Re.parse], [strptime]
    with the directives [%Y %m %d %H %M %S %f %%], whole-second epoch
    stamps, and the escapes of [unicode_escape] that stand for one ASCII
    character.  What lies outside answers [NotImplementedError]. *)
Module Py.

Import Re.

Inductive field : Type := FY | Fm | Fd | FH | FM | FS | Ff.

Definition field_eqb (a b : field) : bool :=
  match a, b with
  | FY, FY | Fm, Fm | Fd, Fd | FH, FH | FM, FM | FS, FS | Ff, Ff => true
  | _, _ => false
  end.

Definition d09 : regex := Rng "0" "9".

(** The regular expression [_strptime.TimeRE] has for each directive. *)
Definition directive_regex (f : field) : regex :=
  match f with
  | FY => Cat Digit (Cat Digit (Cat Digit Digit))
  | Fm => Alt (Cat (Lit "1") (Rng "0" "2")) (Alt (Cat (Lit "0") (Rng "1" "9")) (Rng "1" "9"))
  | Fd => Alt (Cat (Lit "3") (Rng "0" "1"))
         (Alt (Cat (Rng "1" "2") Digit)
         (Alt (Cat (Lit "0") (Rng "1" "9"))
         (Alt (Rng "1" "9") (Cat (Lit " ") (Rng "1" "9")))))
  | FH => Alt (Cat (Lit "2") (Rng "0" "3")) (Alt (Cat (Rng "0" "1") Digit) Digit)
  | FM => Alt (Cat (Rng "0" "5") Digit) Digit
  | FS => Alt (Cat (Lit "6") (Rng "0" "1")) (Alt (Cat (Rng "0" "5") Digit) Digit)
  | Ff => Cat d09 (Opt (Cat d09 (Opt (Cat d09 (Opt (Cat d09 (Opt (Cat d09 (Opt d09)))))))))
  end.

Definition directive_of (c : ascii) : result field :=
  if Ascii.eqb c "Y" then Ok FY
  else if Ascii.eqb c "m" then Ok Fm
  else if Ascii.eqb c "d" then Ok Fd
  else if Ascii.eqb c "H" then Ok FH
  else if Ascii.eqb c "M" then Ok FM
  else if Ascii.eqb c "S" then Ok FS
  else if Ascii.eqb c "f" then Ok Ff
  else if existsb (Ascii.eqb c)
            (list_ascii_of_string "aAbBcIjpUwWxXyzZGuV") then Raise NotImplementedError
  else Raise ValueError.                      (* bad directive in format *)

Definition swapcase (c : ascii) : ascii :=
  let n := nat_of_ascii c in
  if (n <? 97)%nat then ascii_of_nat (n + 32) else ascii_of_nat (n - 32).

(** The format as a pattern: the items in order and the directive of each
    group.  White space in the format stands for [\s+]; letters match
    without regard to case. *)
Fixpoint format_items (fmt : string) (in_space : bool)
    : result (list regex * list field) :=
  match fmt with
  | EmptyString => Ok ([], [])
  | String c fmt' =>
      if is_space c then
        '(items, fields) <- format_items fmt' true ;;
        Ok (if in_space then items else Plus Space :: items, fields)
      else if Ascii.eqb c "%" then
        match fmt' with
        | EmptyString => Raise ValueError     (* stray % in format *)
        | String k fmt'' =>
            if Ascii.eqb k "%" then
              '(items, fields) <- format_items fmt'' false ;;
              Ok (Lit "%" :: items, fields)
            else
              f <- directive_of k ;;
              '(items, fields) <- format_items fmt'' false ;;
              if existsb (field_eqb f) fields then Raise NotImplementedError
              else Ok (Grp (directive_regex f) :: items, f :: fields)
        end
      else if (128 <=? nat_of_ascii c)%nat then Raise NotImplementedError
      else
        '(items, fields) <- format_items fmt' false ;;
        Ok ((if is_alpha c then Alt (Lit c) (Lit (swapcase c)) else Lit c) :: items,
            fields)
  end.

Fixpoint lstrip (s : string) : string :=
  match s with
  | String c s' => if is_space c then lstrip s' else s
  | EmptyString => s
  end.

Fixpoint zero_pad (n : nat) (s : string) : string :=
  match n with
  | O => s
  | S n' =>
      match s with
      | EmptyString => String "0" (zero_pad n' "")
      | String c s' => String c (zero_pad n' s')
      end
  end.

(** The value a directive found, out of the captures in directive order. *)
Fixpoint found (f : field) (fields : list field) (gs : list (option string))
    (default : Z) : Z :=
  match fields, gs with
  | f' :: fields', g :: gs' =>
      if field_eqb f f' then
        match g with
        | Some text =>
            match f with
            | Ff => int_of_digits (zero_pad 6 text)
            | _ => int_of_digits (lstrip text)
            end
        | None => default
        end
      else found f fields' gs' default
  | _, _ => default
  end.

Definition strptime (text fmt : string) : result datetime :=
  '(items, fields) <- format_items fmt false ;;
  match match_ (seq_of items) text with
  | None => Raise ValueError                  (* does not match format *)
  | Some m =>
      if negb (end_ m =? String.length text)%nat then
        Raise ValueError                      (* unconverted data remains *)
      else
        let gs := tl m in
        make_datetime (found FY fields gs 1900) (found Fm fields gs 1)
                      (found Fd fields gs 1) (found FH fields gs 0)
                      (found FM fields gs 0) (found FS fields gs 0)
                      (found Ff fields gs 0)
  end.

(** The civil date of a day count from 1970-01-01. *)
Definition civil_from_days (days : Z) : Z * Z * Z :=
  let z := (days + 719468)%Z in
  let era := (z / 146097)%Z in
  let doe := (z - era * 146097)%Z in
  let yoe := ((doe - doe / 1460 + doe / 36524 - doe / 146096) / 365)%Z in
  let doy := (doe - (365 * yoe + yoe / 4 - yoe / 100))%Z in
  let mp := ((5 * doy + 2) / 153)%Z in
  let d := (doy - (153 * mp + 2) / 5 + 1)%Z in
  let m := (if mp <? 10 then mp + 3 else mp - 9)%Z in
  let y := (yoe + era * 400 + (if m <=? 2 then 1 else 0))%Z in
  (y, m, d).

Definition all_zero (s : string) : bool :=
  forallb (Ascii.eqb "0") (list_ascii_of_string s).

(** [utcfromtimestamp(float(text))] for a text [seconds] or
    [seconds.000], where both conversions are exact. *)
Definition utcfromtimestamp (text : string) : result datetime :=
  match match_ (Cat (Grp (Plus Digit)) (Opt (Cat (Lit ".") (Grp (Plus Digit))))) text with
  | Some [Some whole; Some secs; frac] =>
      if negb (String.length whole =? String.length text)%nat then
        Raise NotImplementedError
      else if negb (match frac with Some f => all_zero f | None => true end) then
        Raise NotImplementedError
      else
        let t := int_of_digits secs in
        let '(y, m, d) := civil_from_days (t / 86400) in
        let sod := (t mod 86400)%Z in
        let dt := mkdt y m d (sod / 3600) ((sod mod 3600) / 60) (sod mod 60) 0 in
        if dt_valid dt then Ok dt else Raise NotImplementedError
  | _ => Raise NotImplementedError
  end.

(** The [unicode_escape] codec on ASCII text: a backslash with a character
    that begins no escape sequence is kept as it is. *)
Fixpoint unicode_escape (s : string) : result string :=
  match s with
  | EmptyString => Ok ""
  | String c s' =>
      if (128 <=? nat_of_ascii c)%nat then Raise NotImplementedError
      else if Ascii.eqb c "\" then
        match s' with
        | EmptyString => Raise UnicodeDecodeError   (* \ at end of string *)
        | String e s'' =>
            if (128 <=? nat_of_ascii e)%nat then Raise NotImplementedError
            else
            t <- unicode_escape s'' ;;
            if Ascii.eqb e "\" then Ok (String "\" t)
            else if Ascii.eqb e "'" then Ok (String "'" t)
            else if Ascii.eqb e "034" then Ok (String "034" t)
            else if Ascii.eqb e "n" then Ok (String LF t)
            else if Ascii.eqb e "t" then Ok (String "009" t)
            else if Ascii.eqb e "r" then Ok (String "013" t)
            else if Ascii.eqb e "a" then Ok (String "007" t)
            else if Ascii.eqb e "b" then Ok (String "008" t)
            else if Ascii.eqb e "f" then Ok (String "012" t)
            else if Ascii.eqb e "v" then Ok (String "011" t)
            else if is_digit e || Ascii.eqb e "x" || Ascii.eqb e "u"
                    || Ascii.eqb e "U" || Ascii.eqb e "N" || Ascii.eqb e LF
            then Raise NotImplementedError
            else Ok (String "\" (String e t))
        end
      else
        t <- unicode_escape s' ;; Ok (String c t)
  end.

(** The instance obeys the laws of [PyLib]. *)
Lemma make_datetime_valid y m d hh mm ss us dt :
  make_datetime y m d hh mm ss us = Ok dt -> dt_valid dt = true.
Proof.
  unfold make_datetime.
  destruct (dt_valid (mkdt y m d hh mm ss us)) eqn:E; intros H; inversion H.
  subst; exact E.
Qed.

Lemma cpython_strptime_valid text fmt d : strptime text fmt = Ok d -> dt_valid d = true.
Proof.
  unfold strptime.
  destruct (format_items fmt false) as [[items fields]|e]; simpl; [|discriminate].
  destruct (match_ (seq_of items) text) as [m|]; [|discriminate].
  destruct (negb _); [discriminate|].
  apply make_datetime_valid.
Qed.

Lemma cpython_utcfromtimestamp_valid text d : utcfromtimestamp text = Ok d -> dt_valid d = true.
Proof.
  unfold utcfromtimestamp.
  repeat match goal with
         | |- context [match ?x with _ => _ end] => destruct x eqn:?; try discriminate
         end.
  intros H; inversion H; subst; assumption.
Qed.

Lemma format_items_not_eof_lt n :
  forall fmt b, (String.length fmt < n)%nat -> format_items fmt b <> Raise EOFError.
Proof.
  induction n as [|n IH']; intros fmt b Hn; [lia|].
  assert (IH'' : forall s b, (String.length s < String.length fmt)%nat ->
                             format_items s b <> Raise EOFError)
    by (intros s b' Hs; apply IH'; lia).
  clear IH' Hn. rename IH'' into IH'.
  destruct fmt as [|c fmt']; cbn [format_items]; [discriminate|].
  destruct (is_space c).
  { specialize (IH' fmt' true (Nat.lt_succ_diag_r _)).
    destruct (format_items fmt' true) as [[? ?]|e]; simpl; [discriminate|].
    intros H; apply IH'; exact H. }
  destruct (Ascii.eqb c "%").
  { destruct fmt' as [|k fmt'']; [discriminate|].
    assert (IH2 := IH' fmt'' false). simpl in IH2.
    specialize (IH2 ltac:(lia)).
    destruct (Ascii.eqb k "%").
    - destruct (format_items fmt'' false) as [[? ?]|e]; simpl; [discriminate|].
      intros H; apply IH2; exact H.
    - unfold directive_of.
      repeat match goal with
             | |- context [if ?x then _ else _] => destruct x; simpl
             end;
        try discriminate;
        (destruct (format_items fmt'' false) as [[? ?]|e]; simpl;
         [ repeat match goal with
                  | |- context [if ?x then _ else _] => destruct x; simpl
                  end; discriminate
         | intros H; apply IH2; exact H ]). }
  destruct (128 <=? nat_of_ascii c)%nat; [discriminate|].
  specialize (IH' fmt' false (Nat.lt_succ_diag_r _)).
  cbn [String.length] in IH'.
  destruct (format_items fmt' false) as [[? ?]|e]; simpl; [discriminate|].
  intros H; apply IH'; exact H.
Qed.

Lemma format_items_not_eof fmt b : format_items fmt b <> Raise EOFError.
Proof. apply (format_items_not_eof_lt (S (String.length fmt))); lia. Qed.

Lemma cpython_strptime_not_eof text fmt : strptime text fmt <> Raise EOFError.
Proof.
  unfold strptime, make_datetime.
  pose proof (format_items_not_eof fmt false) as Hf.
  destruct (format_items fmt false) as [[items fields]|e]; simpl.
  - repeat match goal with
           | |- context [match ?x with _ => _ end] => destruct x; try discriminate
           end.
  - intros H; apply Hf; inversion H; reflexivity.
Qed.

Lemma cpython_utcfromtimestamp_not_eof text : utcfromtimestamp text <> Raise EOFError.
Proof.
  unfold utcfromtimestamp.
  repeat match goal with
         | |- context [match ?x with _ => _ end] => destruct x; try discriminate
         end.
Qed.

#[export] Instance cpython : PyLib :=
  Build_PyLib Re.compile unicode_escape strptime utcfromtimestamp
              cpython_strptime_valid cpython_utcfromtimestamp_valid
              cpython_strptime_not_eof cpython_utcfromtimestamp_not_eof.

End Py.

(** ** Ordered dictionaries

    A Python [dict] with string keys: iteration follows the order in which
    the keys were first inserted, and assigning to a key that is present
    keeps its place. *)

Section Dict.

Context {V : Type}.

Definition dict : Type := list (string * V).

Fixpoint dict_get (d : dict) (k : string) : option V :=
  match d with
  | [] => None
  | (k', v) :: d' => if String.eqb k' k then Some v else dict_get d' k
  end.

(** [d[k] = v] *)
Fixpoint dict_set (d : dict) (k : string) (v : V) : dict :=
  match d with
  | [] => [(k, v)]
  | (k', v') :: d' =>
      if String.eqb k' k then (k', v) :: d' else (k', v') :: dict_set d' k v
  end.

(** [del d[k]] *)
Fixpoint dict_del (d : dict) (k : string) : dict :=
  match d with
  | [] => []
  | (k', v') :: d' => if String.eqb k' k then d' else (k', v') :: dict_del d' k
  end.

Definition keys (d : dict) : list string := map fst d.

End Dict.

Arguments dict V : clear implicits.

(** ** Text streams *)

(** The lines of a text, each with its terminator; the last one may lack
    it.  These are the results of successive [readline] calls. *)
Fixpoint readlines (s : string) : list string :=
  match s with
  | EmptyString => []
  | String c s' =>
      if Ascii.eqb c LF then String c "" :: readlines s'
      else
        match readlines s' with
        | [] => [String c ""]
        | l :: ls => String c l :: ls
        end
  end.

(** An open text stream (a file object): the path it was opened with,
    which is its [name], and the lines not yet read. *)
Record stream : Type := mkstream {
  name : string;
  unread_lines : list string
}.

(** [f.readline()]: the empty string at the end of the stream. *)
Definition readline (f : stream) : string * stream :=
  match unread_lines f with
  | [] => ("", f)
  | line :: rest => (line, mkstream (name f) rest)
  end.

(** The files that can be opened, by path, with their text. *)
Definition filesystem : Type := string -> option string.

(** [open(path, "r")] *)
Definition open_ (fs : filesystem) (path : string) : result stream :=
  match fs path with
  | Some text => Ok (mkstream path (readlines text))
  | None => Raise OSError
  end.

(** ** Timestamp detection *)

(** The patterns of the module, as [Re.parse] reads their sources. *)
Definition cloud_init_regex : Re.regex :=
  Eval vm_compute in
    match Re.parse "(\d\d\d\d-\d\d-\d\d \d\d:\d\d:\d\d,\d\d\d) " [] false [] with
    | Ok r => r
    | Raise _ => Re.Eps
    end.

Definition iso8601_regex : Re.regex :=
  Eval vm_compute in
    match Re.parse "(\d\d\d\d/\d\d/\d\d \d\d:\d\d:\d\d\.\d+) " [] false [] with
    | Ok r => r
    | Raise _ => Re.Eps
    end.

Definition timestamp_regex : Re.regex :=
  Eval vm_compute in
    match Re.parse "((\d+)(\.\d+)?) " [] false [] with
    | Ok r => r
    | Raise _ => Re.Eps
    end.

Definition cloud_init_pattern : Re.Pattern := Re.match_ cloud_init_regex.
Definition iso8601_pattern : Re.Pattern := Re.match_ iso8601_regex.
Definition timestamp_pattern : Re.Pattern := Re.match_ timestamp_regex.

(** The module globals [custom_pattern] and [custom_format], which [main]
    sets once before any line is read. *)
Record config : Type := mkconfig {
  custom_pattern : option Re.Pattern;
  custom_format : option string
}.

Section Program.

Context {L : PyLib}.

(** [strptime] and [utcfromtimestamp] on a captured group; a group that
    did not take part in the match is [None], which both reject. *)
Definition strptime_group (g : option string) (fmt : option string) : result datetime :=
  match g, fmt with
  | Some text, Some f => strptime text f
  | _, _ => Raise TypeError
  end.

Definition utcfromtimestamp_group (g : option string) : result datetime :=
  match g with
  | Some text => utcfromtimestamp text
  | None => Raise TypeError
  end.

(** [parse_datetime] from its second test on: the built-in patterns. *)
Definition parse_builtin (line : string) : result (option datetime) :=
  match iso8601_pattern line with
  | Some m =>
      g <- Re.group m 1 ;;
      entry_datetime <- strptime_group g (Some "%Y/%m/%d %H:%M:%S.%f") ;;
      Ok (Some entry_datetime)
  | None =>
      match cloud_init_pattern line with
      | Some m =>
          g <- Re.group m 1 ;;
          entry_datetime <- strptime_group g (Some "%Y-%m-%d %H:%M:%S,%f") ;;
          Ok (Some entry_datetime)
      | None =>
          match timestamp_pattern line with
          | Some m =>
              g <- Re.group m 1 ;;
              entry_datetime <- utcfromtimestamp_group g ;;
              Ok (Some entry_datetime)
          | None => Ok None
          end
      end
  end.

Definition parse_datetime (cfg : config) (line : string) : result (option datetime) :=
  match custom_pattern cfg with
  | Some pattern =>
      match pattern line with
      | Some m =>
          g <- Re.group m 1 ;;
          entry_datetime <- strptime_group g (custom_format cfg) ;;
          Ok (Some entry_datetime)
      | None => parse_builtin line
      end
  | None => parse_builtin line
  end.

(** ** What the program does to the outside *)

Inductive event : Type :=
| EvOpen (path : string)
| EvClose (path : string)
| EvPrint (text : string).

(** ** Logfile *)

Record Logfile : Type := mkLogfile {
  _f : option stream;
  _eof : bool;
  _timestamp : datetime;
  _line : string
}.

(** The loop of [_advance], on the lines still in the stream [path]. *)
Fixpoint advance_loop (cfg : config) (path : string) (f : list string)
    (self : Logfile) (results : list string) : result (list string * Logfile) :=
  match f with
  | [] =>
      Ok (results,
          mkLogfile (Some (mkstream path [])) true (_timestamp self) (_line self))
  | line :: f' =>
      if String.eqb line "" then
        Ok (results,
            mkLogfile (Some (mkstream path f')) true (_timestamp self) (_line self))
      else
        timestamp <- parse_datetime cfg line ;;
        match timestamp with
        | Some t =>
            Ok (results, mkLogfile (Some (mkstream path f')) (_eof self) t line)
        | None => advance_loop cfg path f' self (results ++ [line])
        end
  end.

Definition _advance (cfg : config) (self : Logfile) : result (list string * Logfile) :=
  match _f self with
  | Some f => advance_loop cfg (name f) (unread_lines f) self [_line self]
  | None => Raise AttributeError
  end.

(** [Logfile(path)] *)
Definition Logfile_init (cfg : config) (fs : filesystem) (path : string)
    : list event * result Logfile :=
  match open_ fs path with
  | Raise e => ([], Raise e)
  | Ok f =>
      ([EvOpen path],
       '(_, self) <- _advance cfg (mkLogfile (Some f) false datetime_max "") ;;
       Ok self)
  end.

Definition timestamp (self : Logfile) : result datetime :=
  if _eof self then Raise EOFError else Ok (_timestamp self).

Definition entry (cfg : config) (self : Logfile) : result (list string * Logfile) :=
  if _eof self then Raise EOFError else _advance cfg self.

(** [close]: [self._f.close()] closes the stream the reader holds, and
    fails on a reader that holds none; then the stream is given up and
    the reader left exhausted, without a buffered line. *)
Definition close (self : Logfile) : list event * result Logfile :=
  match _f self with
  | Some f => ([EvClose (name f)], Ok (mkLogfile None true (_timestamp self) ""))
  | None => ([], Raise AttributeError)
  end.

(** [__exit__] *)
Definition Logfile_exit (self : Logfile) : list event * result Logfile :=
  close self.

(** ** LogSet *)

Record LogSet : Type := mkLogSet { _logs : dict Logfile }.

Fixpoint LogSet_init_loop (cfg : config) (fs : filesystem) (pathnames : list string)
    (logs : dict Logfile) : list event * result LogSet :=
  match pathnames with
  | [] => ([], Ok (mkLogSet logs))
  | pathname :: rest =>
      match Logfile_init cfg fs pathname with
      | (evs, Raise e) => (evs, Raise e)
      | (evs, Ok log) =>
          let '(evs', r) := LogSet_init_loop cfg fs rest (dict_set logs pathname log) in
          (evs ++ evs', r)
      end
  end.

(** [LogSet(pathnames)] *)
Definition LogSet_init (cfg : config) (fs : filesystem) (pathnames : list string)
    : list event * result LogSet :=
  LogSet_init_loop cfg fs pathnames [].

(** The first loop of [next_entry]. *)
Fixpoint scan (items : dict Logfile) (low_path : string) (low_timestamp : datetime)
    (to_delete : list string) : result (string * datetime * list string) :=
  match items with
  | [] => Ok (low_path, low_timestamp, to_delete)
  | (log_name, log) :: items' =>
      match timestamp log with
      | Raise EOFError => scan items' low_path low_timestamp (to_delete ++ [log_name])
      | Raise e => Raise e
      | Ok t =>
          if dt_leb t low_timestamp then scan items' log_name t to_delete
          else scan items' low_path low_timestamp to_delete
      end
  end.

(** The second loop of [next_entry]: [close] works on the reader in the
    dictionary, which is then removed. *)
Fixpoint delete_logs (logs : dict Logfile) (to_delete : list string)
    : list event * result (dict Logfile) :=
  match to_delete with
  | [] => ([], Ok logs)
  | log_name :: rest =>
      match dict_get logs log_name with
      | None => ([], Raise KeyError)
      | Some log =>
          match close log with
          | (evs, Raise e) => (evs, Raise e)
          | (evs, Ok log') =>
              let logs := dict_set logs log_name log' in
              let '(evs', r) := delete_logs (dict_del logs log_name) rest in
              (evs ++ evs', r)
          end
      end
  end.

Definition next_entry (cfg : config) (self : LogSet)
    : list event * result (string * list string * LogSet) :=
  if (List.length (_logs self) =? 0)%nat then ([], Raise EOFError)
  else
    match scan (_logs self) "" datetime_max [] with
    | Raise e => ([], Raise e)
    | Ok (low_path, _, to_delete) =>
        match delete_logs (_logs self) to_delete with
        | (evs, Raise e) => (evs, Raise e)
        | (evs, Ok logs) =>
            if (List.length logs =? 0)%nat then (evs, Raise EOFError)
            else
              match dict_get logs low_path with
              | None => (evs, Raise KeyError)
              | Some log =>
                  match entry cfg log with
                  | Raise e => (evs, Raise e)
                  | Ok (lines, log') =>
                      (evs, Ok (low_path, lines, mkLogSet (dict_set logs low_path log')))
                  end
              end
        end
    end.

(** ** render *)

Fixpoint last_char (s : string) : option ascii :=
  match s with
  | EmptyString => None
  | String c EmptyString => Some c
  | String _ s' => last_char s'
  end.

(** [s[:-1]] *)
Fixpoint but_last (s : string) : string :=
  match s with
  | EmptyString => ""
  | String _ EmptyString => ""
  | String c s' => String c (but_last s')
  end.

Definition color_on (color : Z) : string :=
  (String ESC "[38;5;" ++ str_of_nat (Z.to_nat color) ++ "m")%string.

Definition color_off : string := String ESC "[0m".

Definition render (line : string) (prefix_arg : option string) (color : Z)
    : result string :=
  let pretext := match prefix_arg with None => "" | Some p => p end in
  if ((-1 <? color) && (color <? 256))%Z then
    let pretext := (color_on color ++ pretext)%string in
    match last_char line with
    | None => Raise IndexError                (* line[-1] of an empty string *)
    | Some c =>
        let line :=
          if Ascii.eqb c LF then (but_last line ++ color_off ++ String LF "")%string
          else (line ++ color_off)%string in
        Ok (pretext ++ line)%string
    end
  else Ok (pretext ++ line)%string.

(** ** main *)

(** The namespace [parse_args] returns. *)
Record Namespace : Type := mkNamespace {
  prefix : option (list string);
  no_prefix : bool;
  regex : option string;
  format : option string;
  colorize : bool;
  logfiles : list string
}.

(** How a run ends; [Running] stands for a loop that was cut short by the
    fuel of the embedding. *)
Inductive outcome : Type :=
| Exit (code : Z)
| Uncaught (e : exn)
| Running.

(** [bool(x)] for an optional string: [None] and the empty string are
    false. *)
Definition truthy (x : option string) : bool :=
  match x with
  | Some (String _ _) => true
  | _ => false
  end.

(** [len(args.prefix) if args.prefix else 0] *)
Definition limit_of (p : option (list string)) : nat :=
  match p with
  | Some (x :: l) => List.length (x :: l)
  | _ => 0
  end.

(** The assignment of the globals [custom_pattern] and [custom_format]. *)
Definition configure (args : Namespace) : result config :=
  match regex args with
  | Some (String c r) =>
      s <- unicode_escape (String c r) ;;
      p <- re_compile s ;;
      Ok (mkconfig (Some p) (format args))
  | _ => Ok (mkconfig None None)
  end.

(** A [defaultdict] is read with its default for a missing key. *)
Definition dd_get {V : Type} (d : dict V) (default : V) (k : string) : V :=
  match dict_get d k with
  | Some v => v
  | None => default
  end.

(** The loop of [main] over [args.logfiles]. *)
Fixpoint assign (args : Namespace) (colorize no_prefix : bool) (limit : nat)
    (paths : list string) (index : nat) (prefixes : dict string) (colors : dict Z)
    : dict string * dict Z :=
  match paths with
  | [] => (prefixes, colors)
  | path :: rest =>
      let prefixes :=
        if negb no_prefix then
          dict_set prefixes path
            (if (index <=? limit)%nat
             then (nth (index - 1)
                       (match prefix args with Some l => l | None => [] end) ""
                   ++ " ")%string
             else ("log" ++ str_of_nat index ++ " ")%string)
        else prefixes in
      let colors :=
        if colorize then dict_set colors path (Z.of_nat index) else colors in
      assign args colorize no_prefix limit rest (index + 1) prefixes colors
  end.

(** [for line in entry: print(render(line, prefix, color), end='')] *)
Fixpoint print_entry (lines : list string) (prefix_arg : string) (color : Z)
    : list event * result unit :=
  match lines with
  | [] => ([], Ok tt)
  | line :: rest =>
      match render line (Some prefix_arg) color with
      | Raise e => ([], Raise e)
      | Ok text =>
          let '(evs, r) := print_entry rest prefix_arg color in
          (EvPrint text :: evs, r)
      end
  end.

(** The [while True] loop of [main]. *)
Fixpoint main_loop (fuel : nat) (cfg : config) (merger : LogSet)
    (prefixes : dict string) (colors : dict Z) (default_color : Z)
    : list event * outcome :=
  match fuel with
  | O => ([], Running)
  | S fuel' =>
      match next_entry cfg merger with
      | (evs, Raise EOFError) => (evs, Exit 0)
      | (evs, Raise e) => (evs, Uncaught e)
      | (evs, Ok (path, lines, merger')) =>
          match print_entry lines (dd_get prefixes "" path)
                            (dd_get colors default_color path) with
          | (pevs, Raise e) => (evs ++ pevs, Uncaught e)
          | (pevs, Ok _) =>
              let '(evs', o) :=
                main_loop fuel' cfg merger' prefixes colors default_color in
              (evs ++ pevs ++ evs', o)
          end
      end
  end.

(** [main()], for the parsed arguments [args], with [isatty] the answer of
    [sys.stdout.isatty()] and [fs] the files that can be opened. *)
Definition main (fuel : nat) (isatty : bool) (fs : filesystem) (args : Namespace)
    : list event * outcome :=
  if (List.length (logfiles args) <? 2)%nat then
    ([EvPrint ("Requires at least two logfiles" ++ String LF "")%string], Exit 1)
  else if negb (Bool.eqb (truthy (format args)) (truthy (regex args))) then
    ([EvPrint ("Requires both timestamp regex and format or none"
               ++ String LF "")%string],
     Exit 1)
  else
    match configure args with
    | Raise e => ([], Uncaught e)
    | Ok cfg =>
        let colorize := if isatty then colorize args else false in
        let default_color := if colorize then 15%Z else (-1)%Z in
        let limit := limit_of (prefix args) in
        let no_prefix := no_prefix args || (colorize && (limit =? 0)%nat) in
        let '(prefixes, colors) :=
          assign args colorize no_prefix limit (logfiles args) 1 [] [] in
        match LogSet_init cfg fs (logfiles args) with
        | (evs, Raise e) => (evs, Uncaught e)
        | (evs, Ok merger) =>
            let '(evs', o) :=
              main_loop fuel cfg merger prefixes colors default_color in
            (evs ++ evs', o)
        end
    end.

(** ** Notions the properties are stated with *)

Definition dt_le (a b : datetime) : Prop := dt_leb a b = true.

(** A continuation line: a line that was read and starts no entry. *)
Definition continuation (cfg : config) (line : string) : Prop :=
  line <> "" /\ parse_datetime cfg line = Ok None.

(** The timestamps of the lines of a stream that start an entry, in order. *)
Definition stamps (cfg : config) (f : list string) : list datetime :=
  flat_map (fun line =>
              match parse_datetime cfg line with
              | Ok (Some t) => [t]
              | _ => []
              end) f.

(** The read-ahead invariant of a reader: unless it is exhausted, it holds
    an open stream (of lines as [readline] returns them), the first line
    of its next entry and the timestamp of that line. *)
Definition read_ahead (cfg : config) (self : Logfile) : Prop :=
  _eof self = false ->
  (exists f, _f self = Some f /\
             Forall (fun line => line <> "") (unread_lines f)) /\
  _line self <> "" /\
  parse_datetime cfg (_line self) = Ok (Some (_timestamp self)).

(** The entries the first [n] extraction calls on a reader return; the
    list ends early at the first call that raises. *)
Fixpoint entries (cfg : config) (n : nat) (self : Logfile) : list (list string) :=
  match n with
  | O => []
  | S n' =>
      match entry cfg self with
      | Ok (lines, self') => lines :: entries cfg n' self'
      | Raise _ => []
      end
  end.

(** The same for the first [n] calls of [next_entry] on a merge set. *)
Fixpoint next_entries (cfg : config) (n : nat) (ls : LogSet)
    : list (string * list string) :=
  match n with
  | O => []
  | S n' =>
      match next_entry cfg ls with
      | (_, Ok (path, lines, ls')) => (path, lines) :: next_entries cfg n' ls'
      | (_, Raise _) => []
      end
  end.

(** The states a merge set goes through. *)
Inductive reachable (cfg : config) (fs : filesystem) (pathnames : list string)
    : LogSet -> Prop :=
| reach_init evs ls :
    LogSet_init cfg fs pathnames = (evs, Ok ls) ->
    reachable cfg fs pathnames ls
| reach_next ls evs path lines ls' :
    reachable cfg fs pathnames ls ->
    next_entry cfg ls = (evs, Ok (path, lines, ls')) ->
    reachable cfg fs pathnames ls'.

(** The live readers of a merge set, in its order. *)
Definition live (logs : dict Logfile) : dict Logfile :=
  filter (fun kl => negb (_eof (snd kl))) logs.

Definition exhausted (logs : dict Logfile) : dict Logfile :=
  filter (fun kl => _eof (snd kl)) logs.

(** The reader kept under the path [k] holds the stream that was opened
    for [k]: it has not been closed. *)
Definition holds_stream (k : string) (self : Logfile) : Prop :=
  exists f, _f self = Some f /\ name f = k.

(** A merge set in good order: a dictionary, so its keys are distinct,
    whose readers all satisfy the read-ahead invariant. *)
Definition LogSet_ok (cfg : config) (ls : LogSet) : Prop :=
  NoDup (keys (_logs ls)) /\
  forall k l, In (k, l) (_logs ls) -> read_ahead cfg l.

(** The invariant of the merge set over a run: it is in good order and
    each of its readers, exhausted or not, holds the stream of its path,
    so that none has been closed. *)
Definition LogSet_inv (cfg : config) (ls : LogSet) : Prop :=
  NoDup (keys (_logs ls)) /\
  (forall k l, In (k, l) (_logs ls) -> read_ahead cfg l) /\
  (forall k l, In (k, l) (_logs ls) -> holds_stream k l).

(** The timestamps a reader has yet to hand out: the buffered one and
    those of the unread lines that start an entry. *)
Definition pending (cfg : config) (self : Logfile) : list datetime :=
  if _eof self then []
  else
    match _f self with
    | Some f => _timestamp self :: stamps cfg (unread_lines f)
    | None => []
    end.

(** The paths of the streams a trace closes, in order. *)
Definition closes (evs : list event) : list string :=
  flat_map (fun e => match e with EvClose path => [path] | _ => [] end) evs.

(** The timestamps a reader has yet to hand out are in order and none
    is before [b]. *)
Definition sorted_from (cfg : config) (b : datetime) (self : Logfile) : Prop :=
  StronglySorted dt_le (pending cfg self) /\ Forall (dt_le b) (pending cfg self).

(** Detection raises on no line a reader has yet to read. *)
Definition reads_safely (cfg : config) (self : Logfile) : Prop :=
  forall f, _f self = Some f ->
  forall line, In line (unread_lines f) -> exists r, parse_datetime cfg line = Ok r.

(** A bound on the calls of [next_entry] a reader can still answer. *)
Definition reader_fuel (self : Logfile) : nat :=
  if _eof self then 0
  else match _f self with
       | Some f => S (List.length (unread_lines f))
       | None => 1
       end.

Definition LogSet_fuel (logs : dict Logfile) : nat :=
  list_sum (map (fun kl => reader_fuel (snd kl)) logs).

(** The local variables [colorize], [no_prefix], [prefixes] and [colors]
    of [main], as it computes them from the arguments. *)
Definition colorize_of (isatty : bool) (args : Namespace) : bool :=
  if isatty then colorize args else false.

Definition no_prefix_of (isatty : bool) (args : Namespace) : bool :=
  no_prefix args
  || (colorize_of isatty args && (limit_of (prefix args) =? 0)%nat).

Definition prefixes_of (isatty : bool) (args : Namespace) : dict string :=
  fst (assign args (colorize_of isatty args) (no_prefix_of isatty args)
              (limit_of (prefix args)) (logfiles args) 1 [] []).

Definition colors_of (isatty : bool) (args : Namespace) : dict Z :=
  snd (assign args (colorize_of isatty args) (no_prefix_of isatty args)
              (limit_of (prefix args)) (logfiles args) 1 [] []).

(** [datetime.min] *)
Definition datetime_min : datetime := mkdt 1 1 1 0 0 0 0.

(** The timestamp detection finds on the first line of an entry. *)
Definition entry_timestamp (cfg : config) (lines : list string)
    : result (option datetime) :=
  parse_datetime cfg (hd "" lines).

End Program.

(** ** Concrete runs

    Two small logs with epoch stamps, as in the scenarios of the
    specification, a file without any timestamp, and a log in the
    slash-delimited form. *)

Module Scenario.

Definition nl : string := String LF "".

Definition text_A : string :=
  ("# header" ++ nl ++ "1 a1" ++ nl ++ "  more a1" ++ nl ++ "3 a3" ++ nl)%string.

Definition text_B : string :=
  ("2 b2" ++ nl ++ "3 b3" ++ nl)%string.

Definition text_banner : string :=
  ("no stamp here" ++ nl ++ "none here either")%string.

Definition text_iso : string :=
  ("2020/01/02 03:04:05.678 started" ++ nl ++ "[12:00:00] noon" ++ nl)%string.

(** An entry at t=5 with two continuation lines, and a tie at t=5. *)
Definition text_tA : string :=
  ("5 a5" ++ nl ++ "  c1" ++ nl ++ "  c2" ++ nl)%string.

Definition text_tB : string := ("5 b5" ++ nl)%string.

Definition fs : filesystem :=
  fun path =>
    if String.eqb path "A" then Some text_A
    else if String.eqb path "B" then Some text_B
    else if String.eqb path "tA" then Some text_tA
    else if String.eqb path "tB" then Some text_tB
    else if String.eqb path "banner" then Some text_banner
    else if String.eqb path "iso" then Some text_iso
    else if String.eqb path "empty" then Some ""
    else None.

(** No custom rule. *)
Definition no_custom : config := mkconfig None None.

(** [logmerge.py A B] *)
Definition args_AB : Namespace := mkNamespace None false None None false ["A"; "B"].

(** [logmerge.py --regex '\[(\d\d:\d\d:\d\d)\] ' --format '%H:%M:%S' iso B] *)
Definition args_custom : Namespace :=
  mkNamespace None false (Some "\[(\d\d:\d\d:\d\d)\] ") (Some "%H:%M:%S") false
              ["iso"; "B"].

(** The same with a format no [strptime] accepts. *)
Definition args_bad_format : Namespace :=
  mkNamespace None false (Some "\[(\d\d:\d\d:\d\d)\] ") (Some "%Q") false
              ["iso"; "B"].

(** [logmerge.py --regex '' A B] *)
Definition args_empty_regex : Namespace :=
  mkNamespace None false (Some "") None false ["A"; "B"].

(** [logmerge.py --colorize A B], on a terminal. *)
Definition args_color : Namespace :=
  mkNamespace None false None None true ["A"; "B"].

(** [logmerge.py --prefix x A B] *)
Definition args_prefix : Namespace :=
  mkNamespace (Some ["x"]) false None None false ["A"; "B"].

Definition epoch (s : Z) : datetime := mkdt 1970 1 1 0 0 s 0.

Definition line_iso : string := ("2020/01/02 03:04:05.678 started" ++ nl)%string.
Definition line_noon : string := ("[12:00:00] noon" ++ nl)%string.

(** The custom rule of [args_custom], as [main] sets it up. *)
Definition custom_regex : Re.regex :=
  Eval vm_compute in
    match Re.parse "\[(\d\d:\d\d:\d\d)\] " [] false [] with
    | Ok r => r
    | Raise _ => Re.Eps
    end.

Definition custom_cfg : config :=
  mkconfig (Some (Re.match_ custom_regex)) (Some "%H:%M:%S").

(** The readers and the merge set of [logmerge.py tA tB] after
    construction. *)
Definition log_tA : Logfile :=
  mkLogfile (Some (mkstream "tA" [("  c1" ++ nl)%string; ("  c2" ++ nl)%string]))
            false (epoch 5) ("5 a5" ++ nl)%string.

Definition log_tB : Logfile :=
  mkLogfile (Some (mkstream "tB" [])) false (epoch 5) ("5 b5" ++ nl)%string.

Definition ls_tie : LogSet := mkLogSet [("tA", log_tA); ("tB", log_tB)].

(** The merge set of [logmerge.py A B] after construction. *)
Definition ls_AB : LogSet :=
  mkLogSet
    [("A", mkLogfile (Some (mkstream "A" [("  more a1" ++ nl)%string;
                                          ("3 a3" ++ nl)%string]))
                     false (epoch 1) ("1 a1" ++ nl)%string);
     ("B", mkLogfile (Some (mkstream "B" [("3 b3" ++ nl)%string])) false (epoch 2)
                     ("2 b2" ++ nl)%string)].

End Scenario.

(** ** Notions for the properties of whole runs *)

(** The lines of the entries that came from [path], in the order of the
    merged entries. *)
Definition lines_of (path : string) (es : list (string * list string))
    : list string :=
  flat_map (fun e => if String.eqb (fst e) path then snd e else []) es.

(** The texts a trace prints and the paths it opens, in order. *)
Definition prints (evs : list event) : list string :=
  flat_map (fun e => match e with EvPrint text => [text] | _ => [] end) evs.

Definition opens (evs : list event) : list string :=
  flat_map (fun e => match e with EvOpen path => [path] | _ => [] end) evs.

(** The paths in the order of their first occurrence. *)
Fixpoint first_occurrences (paths : list string) : list string :=
  match paths with
  | [] => []
  | p :: rest =>
      p :: filter (fun q => negb (String.eqb q p)) (first_occurrences rest)
  end.

(** The position at which [path] is first supplied in [paths]. *)
Fixpoint first_index (paths : list string) (path : string) : nat :=
  match paths with
  | [] => 0
  | p :: rest => if String.eqb p path then 0 else S (first_index rest path)
  end.

(** [a] is first supplied before [b] is. *)
Definition supplied_before (paths : list string) (a b : string) : Prop :=
  first_index paths a < first_index paths b.

(** [pretext] at the start of [render]. *)
Definition pretext_of (prefix_arg : option string) : string :=
  match prefix_arg with None => "" | Some p => p end.

(** [q] is none of [ks]. *)
Definition not_among (ks : list string) (q : string) : bool :=
  negb (existsb (String.eqb q) ks).

(** What [main] prints for a merged entry. *)
Definition rendered (prefixes : dict string) (colors : dict Z) (default_color : Z)
    (e : string * list string) : list string :=
  map (fun line =>
         match render line (Some (dd_get prefixes "" (fst e)))
                      (dd_get colors default_color (fst e)) with
         | Ok text => text
         | Raise _ => ""
         end)
      (snd e).

(** A pattern that can only match a text that begins with a decimal
    digit. *)
Fixpoint needs_digit (r : Re.regex) : bool :=
  match r with
  | Re.Digit => true
  | Re.Cat r1 _ => needs_digit r1
  | Re.Alt r1 r2 => needs_digit r1 && needs_digit r2
  | Re.Plus r1 | Re.Grp r1 => needs_digit r1
  | _ => false
  end.

(** The first character of a text that is not a decimal digit. *)
Fixpoint first_non_digit (s : string) : option ascii :=
  match s with
  | EmptyString => None
  | String c s' => if is_digit c then first_non_digit s' else Some c
  end.

(** ** More concrete runs *)

Module MoreScenario.

Import Scenario.

(** The readers of [logmerge.py A B] after construction. *)
Definition log_A : Logfile :=
  mkLogfile (Some (mkstream "A" [("  more a1" ++ nl)%string; ("3 a3" ++ nl)%string]))
            false (epoch 1) ("1 a1" ++ nl)%string.

Definition log_B : Logfile :=
  mkLogfile (Some (mkstream "B" [("3 b3" ++ nl)%string])) false (epoch 2)
            ("2 b2" ++ nl)%string.

(** [logmerge.py A B A] *)
Definition args_dup : Namespace :=
  mkNamespace None false None None false ["A"; "B"; "A"].

(** [logmerge.py A nofile] *)
Definition args_missing : Namespace :=
  mkNamespace None false None None false ["A"; "nofile"].

(** [logmerge.py --no-prefix A B] *)
Definition args_plain : Namespace :=
  mkNamespace None true None None false ["A"; "B"].

End MoreScenario.

(** * Properties *)

(** ** The order of datetimes *)

Lemma lex_compare_refl a : lex_compare a a = Eq.
Proof.
  induction a as [|x a IH]; simpl; [reflexivity|].
  rewrite Z.compare_refl; exact IH.
Qed.

Lemma lex_compare_antisym a : forall b, lex_compare b a = CompOpp (lex_compare a b).
Proof.
  induction a as [|x a IH]; intros [|y b]; simpl; try reflexivity.
  rewrite (Z.compare_antisym x y).
  destruct (x ?= y)%Z; simpl; auto.
Qed.

Lemma lex_compare_trans a :
  forall b c, lex_compare a b <> Gt -> lex_compare b c <> Gt -> lex_compare a c <> Gt.
Proof.
  induction a as [|x a IH]; intros [|y b] [|z c]; simpl; try congruence.
  destruct (Z.compare_spec x y), (Z.compare_spec y z), (Z.compare_spec x z);
    try congruence; try lia; subst; try apply IH.
Qed.

Lemma dt_leb_refl a : dt_leb a a = true.
Proof. unfold dt_leb, dt_compare; rewrite lex_compare_refl; reflexivity. Qed.

Lemma dt_leb_total a b : dt_leb a b = false -> dt_leb b a = true.
Proof.
  unfold dt_leb, dt_compare.
  rewrite (lex_compare_antisym (dt_fields a) (dt_fields b)).
  destruct (lex_compare (dt_fields a) (dt_fields b)); simpl; congruence.
Qed.

Lemma dt_leb_trans a b c : dt_leb a b = true -> dt_leb b c = true -> dt_leb a c = true.
Proof.
  unfold dt_leb, dt_compare; intros H1 H2.
  pose proof (lex_compare_trans (dt_fields a) (dt_fields b) (dt_fields c)) as T.
  destruct (lex_compare (dt_fields a) (dt_fields b)),
           (lex_compare (dt_fields b) (dt_fields c)),
           (lex_compare (dt_fields a) (dt_fields c));
    try reflexivity; try discriminate; exfalso; apply T; congruence.
Qed.

Lemma dt_valid_le_max d : dt_valid d = true -> dt_leb d datetime_max = true.
Proof.
  destruct d as [y mo dd h mi s us]; unfold dt_valid; simpl.
  rewrite !andb_true_iff, !Z.leb_le.
  intros [[[[[[[[[[[[[? ?] ?] ?] ?] Hd] ?] ?] ?] ?] ?] ?] ?] ?].
  assert (dd <= 31)%Z.
  { revert Hd; unfold days_in_month.
    destruct (mo =? 2)%Z; [destruct (is_leap y)|]; try lia.
    destruct (_ || _)%bool; lia. }
  unfold dt_leb, dt_compare; simpl.
  repeat match goal with
         | |- context [(?a ?= ?b)%Z] => destruct (Z.compare_spec a b); try lia
         end; reflexivity.
Qed.

Section Properties.

Context {L : PyLib}.

#[local] Arguments parse_datetime : simpl never.
#[local] Arguments parse_builtin : simpl never.

(** ** Detection *)

Lemma bind_some_not_none {A : Type} (m : result A) :
  (x <- m ;; Ok (Some x)) <> Ok None.
Proof. destruct m; simpl; discriminate. Qed.

Lemma parse_builtin_none line :
  parse_builtin line = Ok None <->
  iso8601_pattern line = None /\ cloud_init_pattern line = None
  /\ timestamp_pattern line = None.
Proof.
  unfold parse_builtin. split.
  - destruct (iso8601_pattern line) as [m|].
    { destruct (Re.group m 1) as [g|]; simpl; [|discriminate].
      intros H; exfalso; revert H; apply bind_some_not_none. }
    destruct (cloud_init_pattern line) as [m|].
    { destruct (Re.group m 1) as [g|]; simpl; [|discriminate].
      intros H; exfalso; revert H; apply bind_some_not_none. }
    destruct (timestamp_pattern line) as [m|]; [|auto].
    destruct (Re.group m 1) as [g|]; simpl; [|discriminate].
    intros H; exfalso; revert H; apply bind_some_not_none.
  - intros (-> & -> & ->); reflexivity.
Qed.

Lemma parse_datetime_no_custom line :
  parse_datetime (mkconfig None None) line = parse_builtin line.
Proof. reflexivity. Qed.

(** C1 (as the code has it): a configured custom rule is tried first.  A
    line the custom pattern matches gets its timestamp from the custom
    format.  A line the custom pattern does not match is then tried
    against the built-in patterns, exactly as without a custom rule, and
    is a continuation line (detection returns none) exactly when none of
    the built-in patterns matches it either. *)
Theorem parse_datetime_custom_first (cfg : config) (pattern : Re.Pattern)
    (line : string) :
  custom_pattern cfg = Some pattern ->
  (forall m, pattern line = Some m ->
     parse_datetime cfg line =
       (g <- Re.group m 1 ;;
        entry_datetime <- strptime_group g (custom_format cfg) ;;
        Ok (Some entry_datetime))) /\
  (pattern line = None ->
     parse_datetime cfg line = parse_datetime (mkconfig None None) line /\
     (parse_datetime cfg line = Ok None <->
        iso8601_pattern line = None /\ cloud_init_pattern line = None
        /\ timestamp_pattern line = None)).
Proof.
  intros Hc. split.
  - intros m Hm. unfold parse_datetime. rewrite Hc, Hm. reflexivity.
  - intros Hm.
    assert (E : parse_datetime cfg line = parse_builtin line)
      by (unfold parse_datetime; rewrite Hc, Hm; reflexivity).
    split.
    + rewrite E. symmetry. apply parse_datetime_no_custom.
    + rewrite E. apply parse_builtin_none.
Qed.

(** Every timestamp detection returns is at most [datetime.max]. *)
Lemma parse_datetime_valid cfg line t :
  parse_datetime cfg line = Ok (Some t) -> dt_valid t = true.
Proof.
  assert (G : forall (g : option string) fmt,
             (d <- strptime_group g fmt ;; Ok (Some d)) = Ok (Some t) ->
             dt_valid t = true).
  { intros g fmt. unfold strptime_group.
    destruct g as [text|], fmt as [f|]; simpl; try discriminate.
    destruct (strptime text f) as [d|] eqn:E; simpl; [|discriminate].
    intros H; inversion H; subst. eapply strptime_valid; eauto. }
  assert (B : parse_builtin line = Ok (Some t) -> dt_valid t = true).
  { unfold parse_builtin.
    destruct (iso8601_pattern line) as [m|].
    { destruct (Re.group m 1) as [g|]; simpl; [apply G|discriminate]. }
    destruct (cloud_init_pattern line) as [m|].
    { destruct (Re.group m 1) as [g|]; simpl; [apply G|discriminate]. }
    destruct (timestamp_pattern line) as [m|]; [|discriminate].
    destruct (Re.group m 1) as [[text|]|]; simpl; try discriminate.
    destruct (utcfromtimestamp text) as [d|] eqn:E; simpl; [|discriminate].
    intros H; inversion H; subst. eapply utcfromtimestamp_valid; eauto. }
  unfold parse_datetime.
  destruct (custom_pattern cfg) as [p|]; [|exact B].
  destruct (p line) as [m|]; [|exact B].
  destruct (Re.group m 1) as [g|]; simpl; [apply G|discriminate].
Qed.

Lemma parse_datetime_not_eof cfg line : parse_datetime cfg line <> Raise EOFError.
Proof.
  assert (G : forall (g : option string) fmt,
             (d <- strptime_group g fmt ;; Ok (Some d)) <> Raise EOFError).
  { intros g fmt. unfold strptime_group.
    destruct g as [text|], fmt as [f|]; simpl; try discriminate.
    pose proof (strptime_not_eof text f) as N.
    destruct (strptime text f) as [d|]; simpl; [discriminate|].
    intros H; apply N; inversion H; reflexivity. }
  assert (I : forall m, Re.group m 1 <> Raise EOFError).
  { intros m. unfold Re.group. destruct (nth_error m 1); discriminate. }
  assert (B : parse_builtin line <> Raise EOFError).
  { unfold parse_builtin.
    destruct (iso8601_pattern line) as [m|].
    { specialize (I m). destruct (Re.group m 1) as [g|]; simpl; [apply G|].
      intros H; apply I; inversion H; reflexivity. }
    destruct (cloud_init_pattern line) as [m|].
    { specialize (I m). destruct (Re.group m 1) as [g|]; simpl; [apply G|].
      intros H; apply I; inversion H; reflexivity. }
    destruct (timestamp_pattern line) as [m|]; [|discriminate].
    specialize (I m). destruct (Re.group m 1) as [[text|]|]; simpl; try discriminate.
    - pose proof (utcfromtimestamp_not_eof text) as N.
      destruct (utcfromtimestamp text) as [d|]; simpl; [discriminate|].
      intros H; apply N; inversion H; reflexivity.
    - intros H; apply I; inversion H; reflexivity. }
  unfold parse_datetime.
  destruct (custom_pattern cfg) as [p|]; [|exact B].
  destruct (p line) as [m|]; [|exact B].
  specialize (I m). destruct (Re.group m 1) as [g|]; simpl; [apply G|].
  intros H; apply I; inversion H; reflexivity.
Qed.

(** ** Logfile *)

Lemma readlines_nonempty text : Forall (fun line => line <> "") (readlines text).
Proof.
  induction text as [|c text IH]; simpl; [constructor|].
  destruct (Ascii.eqb c LF).
  - constructor; [discriminate|exact IH].
  - destruct (readlines text) as [|l ls]; constructor; try discriminate.
    + constructor.
    + inversion IH; assumption.
Qed.

Lemma eqb_empty_false line : line <> "" -> String.eqb line "" = false.
Proof. intros H; apply String.eqb_neq; exact H. Qed.

(** The loop of [_advance] takes its lines with [readline]. *)
Lemma advance_loop_readline cfg f self results :
  advance_loop cfg (name f) (unread_lines f) self results
  = let '(line, f') := readline f in
    if String.eqb line "" then
      Ok (results, mkLogfile (Some f') true (_timestamp self) (_line self))
    else
      timestamp <- parse_datetime cfg line ;;
      match timestamp with
      | Some t => Ok (results, mkLogfile (Some f') (_eof self) t line)
      | None =>
          advance_loop cfg (name f') (unread_lines f') self (results ++ [line])
      end.
Proof. destruct f as [path [|line rest]]; reflexivity. Qed.

Lemma advance_loop_spec cfg path f : forall self results out self',
  Forall (fun line => line <> "") f ->
  advance_loop cfg path f self results = Ok (out, self') ->
  exists conts,
    out = results ++ conts /\ Forall (continuation cfg) conts /\
    ((f = conts /\
      self' = mkLogfile (Some (mkstream path [])) true
                        (_timestamp self) (_line self)) \/
     (exists line t f',
        f = conts ++ line :: f' /\ line <> "" /\
        parse_datetime cfg line = Ok (Some t) /\
        self' = mkLogfile (Some (mkstream path f')) (_eof self) t line)).
Proof.
  induction f as [|line f IH]; intros self results out self' Hne H.
  - simpl in H. inversion H; subst. exists []. rewrite app_nil_r.
    split; [reflexivity|]. split; [constructor|]. left; auto.
  - inversion Hne as [|? ? Hl Hf]; subst.
    cbn [advance_loop] in H. rewrite (eqb_empty_false _ Hl) in H.
    destruct (parse_datetime cfg line) as [[t|]|e] eqn:E; simpl in H;
      [| |discriminate].
    + inversion H; subst. exists []. rewrite app_nil_r.
      split; [reflexivity|]. split; [constructor|].
      right. exists line, t, f. auto.
    + destruct (IH _ _ _ _ Hf H) as (conts & Hout & Hc & Hcase).
      exists (line :: conts). split.
      { rewrite Hout, <- app_assoc. reflexivity. }
      split.
      { constructor; [split; assumption|exact Hc]. }
      destruct Hcase as [[-> ->]|(l' & t' & f' & -> & Hl' & Hp & ->)].
      * left; auto.
      * right. exists l', t', f'. auto.
Qed.

Lemma advance_loop_found cfg path conts : forall line t f' self results,
  Forall (continuation cfg) conts -> line <> "" ->
  parse_datetime cfg line = Ok (Some t) ->
  advance_loop cfg path (conts ++ line :: f') self results
  = Ok (results ++ conts, mkLogfile (Some (mkstream path f')) (_eof self) t line).
Proof.
  induction conts as [|c conts IH]; intros line t f' self results Hc Hl Hp.
  - cbn [app advance_loop]. rewrite (eqb_empty_false _ Hl), Hp. simpl.
    rewrite app_nil_r. reflexivity.
  - inversion Hc as [|? ? [Hc1 Hc2] Hc']; subst.
    cbn [app advance_loop]. rewrite (eqb_empty_false _ Hc1), Hc2. simpl.
    rewrite (IH _ _ _ _ _ Hc' Hl Hp), <- app_assoc. reflexivity.
Qed.

Lemma advance_loop_end cfg path conts : forall self results,
  Forall (continuation cfg) conts ->
  advance_loop cfg path conts self results
  = Ok (results ++ conts,
        mkLogfile (Some (mkstream path [])) true (_timestamp self) (_line self)).
Proof.
  induction conts as [|c conts IH]; intros self results Hc.
  - simpl. rewrite app_nil_r. reflexivity.
  - inversion Hc as [|? ? [Hc1 Hc2] Hc']; subst.
    cbn [advance_loop]. rewrite (eqb_empty_false _ Hc1), Hc2. simpl.
    rewrite (IH _ _ Hc'), <- app_assoc. reflexivity.
Qed.

(** A stream on whose lines detection does not raise is read without an
    exception. *)
Lemma advance_loop_total cfg path f : forall self results,
  (forall line, In line f -> exists r, parse_datetime cfg line = Ok r) ->
  exists out self', advance_loop cfg path f self results = Ok (out, self').
Proof.
  induction f as [|line f IH]; intros self results Hp.
  - simpl. eauto.
  - cbn [advance_loop]. destruct (String.eqb line ""); [eauto|].
    destruct (Hp line (or_introl eq_refl)) as [[t|] ->]; simpl; [eauto|].
    apply IH. intros l Hl. apply Hp. right; exact Hl.
Qed.

(** What an extraction does to a reader that satisfies the invariant. *)
Lemma entry_spec cfg self lines self' :
  read_ahead cfg self ->
  entry cfg self = Ok (lines, self') ->
  exists f conts,
    _eof self = false /\ _f self = Some f /\
    lines = _line self :: conts /\ Forall (continuation cfg) conts /\
    ((unread_lines f = conts /\
      self' = mkLogfile (Some (mkstream (name f) [])) true
                        (_timestamp self) (_line self)) \/
     (exists line t f',
        unread_lines f = conts ++ line :: f' /\ line <> "" /\
        parse_datetime cfg line = Ok (Some t) /\
        self' = mkLogfile (Some (mkstream (name f) f')) false t line)).
Proof.
  intros Hra H. unfold entry in H.
  destruct (_eof self) eqn:Eeof; [discriminate|].
  destruct (Hra Eeof) as ((f & Hf & Hne) & _ & _).
  unfold _advance in H. rewrite Hf in H.
  destruct (advance_loop_spec _ _ _ _ _ _ _ Hne H) as (conts & -> & Hc & Hcase).
  exists f, conts. rewrite Eeof in Hcase. auto 10.
Qed.

Lemma entry_read_ahead cfg self lines self' :
  read_ahead cfg self ->
  entry cfg self = Ok (lines, self') ->
  read_ahead cfg self'.
Proof.
  intros Hra H.
  destruct (entry_spec _ _ _ _ Hra H)
    as (f & conts & Eeof & Hf & -> & Hc & Hcase).
  destruct (Hra Eeof) as ((f0 & Hf0 & Hne) & _ & _).
  rewrite Hf in Hf0; inversion Hf0; subst f0.
  destruct Hcase as [[Hu ->]|(l & t & f' & Hu & Hl & Hp & ->)].
  - intros E; discriminate.
  - intros _. simpl. split; [|auto].
    eexists. split; [reflexivity|]. cbn [unread_lines].
    rewrite Hu in Hne.
    apply Forall_app in Hne. destruct Hne as [_ Hne].
    inversion Hne; assumption.
Qed.

(** An extraction leaves the reader with the stream it held. *)
Lemma entry_holds_stream cfg k self lines self' :
  read_ahead cfg self -> holds_stream k self ->
  entry cfg self = Ok (lines, self') ->
  holds_stream k self'.
Proof.
  intros Hra (f0 & Hf0 & Hk) H.
  destruct (entry_spec _ _ _ _ Hra H)
    as (f & conts & _ & Hf & _ & _ & Hcase).
  rewrite Hf in Hf0; inversion Hf0; subst f0.
  destruct Hcase as [[_ ->]|(l & t & f' & _ & _ & _ & ->)];
    eexists; (split; [reflexivity|exact Hk]).
Qed.

Lemma Logfile_init_spec cfg fs path evs self :
  Logfile_init cfg fs path = (evs, Ok self) ->
  exists text conts,
    fs path = Some text /\ evs = [EvOpen path] /\ Forall (continuation cfg) conts /\
    ((readlines text = conts /\
      self = mkLogfile (Some (mkstream path [])) true datetime_max "") \/
     (exists line t f',
        readlines text = conts ++ line :: f' /\ line <> "" /\
        parse_datetime cfg line = Ok (Some t) /\
        self = mkLogfile (Some (mkstream path f')) false t line)).
Proof.
  unfold Logfile_init, open_.
  destruct (fs path) as [text|]; [|intros H; inversion H].
  intros H. inversion H as [[Hev Hr]]. clear H.
  unfold _advance in Hr; cbn [_f _line name unread_lines] in Hr.
  match type of Hr with
  | context [advance_loop ?a ?n ?b ?c ?d] =>
      destruct (advance_loop a n b c d) as [[out s]|e] eqn:E
  end; simpl in Hr; inversion Hr; subst.
  destruct (advance_loop_spec _ _ _ _ _ _ _ (readlines_nonempty text) E)
    as (conts & _ & Hc & Hcase).
  exists text, conts. simpl in Hcase.
  split; [reflexivity|]. split; [reflexivity|]. split; [exact Hc|exact Hcase].
Qed.

Lemma Logfile_init_read_ahead cfg fs path evs self :
  Logfile_init cfg fs path = (evs, Ok self) -> read_ahead cfg self.
Proof.
  intros H.
  destruct (Logfile_init_spec _ _ _ _ _ H)
    as (text & conts & _ & _ & _ & [[_ ->]|(l & t & f' & Hr & Hl & Hp & ->)]).
  - intros E; discriminate.
  - intros _. simpl. split; [|auto].
    eexists. split; [reflexivity|]. cbn [unread_lines].
    pose proof (readlines_nonempty text) as Hne. rewrite Hr in Hne.
    apply Forall_app in Hne. destruct Hne as [_ Hne].
    inversion Hne; assumption.
Qed.

(** The reader [Logfile] constructs holds the stream of its path. *)
Lemma Logfile_init_holds_stream cfg fs path evs self :
  Logfile_init cfg fs path = (evs, Ok self) -> holds_stream path self.
Proof.
  intros H.
  destruct (Logfile_init_spec _ _ _ _ _ H)
    as (text & conts & _ & _ & _ & [[_ ->]|(l & t & f' & _ & _ & _ & ->)]);
    eexists; (split; reflexivity).
Qed.

(** The lines of the entries a reader hands out are, in order, the
    buffered line and the lines of its stream. *)
Lemma entries_prefix cfg n : forall self f,
  read_ahead cfg self -> _eof self = false -> _f self = Some f ->
  exists unread,
    _line self :: unread_lines f = List.concat (entries cfg n self) ++ unread.
Proof.
  induction n as [|n IH]; intros self f Hra Eeof Hf.
  - exists (_line self :: unread_lines f). reflexivity.
  - cbn [entries].
    destruct (entry cfg self) as [[lines self']|e] eqn:E.
    2:{ exists (_line self :: unread_lines f). reflexivity. }
    pose proof (entry_read_ahead _ _ _ _ Hra E) as Hra'.
    destruct (entry_spec _ _ _ _ Hra E)
      as (f0 & conts & _ & Hf0 & -> & Hc & Hcase).
    rewrite Hf in Hf0; inversion Hf0; subst f0.
    destruct Hcase as [[-> ->]|(l & t & f' & -> & Hl & Hp & ->)].
    + exists []. destruct n; simpl; rewrite !app_nil_r; reflexivity.
    + destruct (IH (mkLogfile (Some (mkstream (name f) f')) false t l)
                   (mkstream (name f) f') Hra' eq_refl eq_refl)
        as (unread & Hu).
      exists unread. cbn [List.concat _line unread_lines] in *.
      rewrite <- app_assoc, <- Hu. simpl. reflexivity.
Qed.

Lemma entries_exhausted cfg n self : _eof self = true -> entries cfg n self = [].
Proof.
  intros E. destruct n; [reflexivity|].
  cbn [entries]. unfold entry. rewrite E. reflexivity.
Qed.

(** C7: construction reads and discards the leading lines up to, but not
    including, the first line that carries a timestamp, which it buffers;
    the lines of all entries the reader hands out afterwards are taken, in
    order, from that line on, so no discarded line is among them.  If the
    stream ends before a timestamped line, the reader starts exhausted. *)
Theorem Logfile_init_discards_leading (cfg : config) (fs : filesystem)
    (path text : string) (leading : list string) :
  fs path = Some text ->
  Forall (continuation cfg) leading ->
  (forall line t rest,
     readlines text = leading ++ line :: rest ->
     parse_datetime cfg line = Ok (Some t) ->
     Logfile_init cfg fs path
     = ([EvOpen path], Ok (mkLogfile (Some (mkstream path rest)) false t line)) /\
     forall n, exists unread,
       line :: rest
       = List.concat
           (entries cfg n (mkLogfile (Some (mkstream path rest)) false t line))
         ++ unread) /\
  (readlines text = leading ->
     exists self,
       Logfile_init cfg fs path = ([EvOpen path], Ok self) /\
       _eof self = true /\
       forall n, entries cfg n self = []).
Proof.
  intros Hfs Hlead. split.
  - intros line t rest Hr Hp.
    pose proof (readlines_nonempty text) as Hne. rewrite Hr in Hne.
    apply Forall_app in Hne. destruct Hne as [_ Hne].
    inversion Hne as [|? ? Hl Hrest]; subst.
    assert (Hinit : Logfile_init cfg fs path
                    = ([EvOpen path],
                       Ok (mkLogfile (Some (mkstream path rest)) false t line))).
    { unfold Logfile_init, open_, _advance. rewrite Hfs.
      cbn [_f _line name unread_lines].
      rewrite Hr, (advance_loop_found _ _ _ _ _ _ _ _ Hlead Hl Hp). reflexivity. }
    split; [exact Hinit|].
    intros n.
    apply (entries_prefix cfg n (mkLogfile (Some (mkstream path rest)) false t line)
             (mkstream path rest));
      try reflexivity.
    eapply Logfile_init_read_ahead; exact Hinit.
  - intros Hr.
    exists (mkLogfile (Some (mkstream path [])) true datetime_max "").
    split; [|split; [reflexivity|]].
    + unfold Logfile_init, open_, _advance. rewrite Hfs.
      cbn [_f _line name unread_lines].
      rewrite Hr, (advance_loop_end _ _ _ _ _ Hlead). reflexivity.
    + intros n. apply entries_exhausted. reflexivity.
Qed.

(** C8: the read-ahead invariant.  It holds after construction.  An
    extraction from a reader that satisfies it returns the buffered first
    line followed by the continuation lines read from the stream, and
    leaves a reader that satisfies it again: either the next timestamped
    line of the stream is buffered with its timestamp, or the stream has
    ended and the reader is exhausted, the accumulated lines being
    returned all the same.  Such an extraction returns whenever detection
    raises on no line of the stream. *)
Theorem read_ahead_invariant (cfg : config) :
  (forall fs path evs self,
     Logfile_init cfg fs path = (evs, Ok self) -> read_ahead cfg self) /\
  (forall self lines self',
     read_ahead cfg self ->
     entry cfg self = Ok (lines, self') ->
     read_ahead cfg self' /\
     parse_datetime cfg (_line self) = Ok (Some (_timestamp self)) /\
     exists f conts,
       _f self = Some f /\
       lines = _line self :: conts /\ Forall (continuation cfg) conts /\
       ((unread_lines f = conts /\ _eof self' = true) \/
        (exists line t f',
           unread_lines f = conts ++ line :: f' /\
           parse_datetime cfg line = Ok (Some t) /\
           self' = mkLogfile (Some (mkstream (name f) f')) false t line))) /\
  (forall self f,
     read_ahead cfg self -> _eof self = false -> _f self = Some f ->
     (forall line, In line (unread_lines f) ->
                   exists r, parse_datetime cfg line = Ok r) ->
     exists lines self', entry cfg self = Ok (lines, self')).
Proof.
  split; [|split].
  - intros fs path evs self H. eapply Logfile_init_read_ahead; exact H.
  - intros self lines self' Hra H.
    split; [eapply entry_read_ahead; eauto|].
    destruct (entry_spec _ _ _ _ Hra H)
      as (f & conts & Eeof & Hf & -> & Hc & Hcase).
    split; [apply (Hra Eeof)|].
    exists f, conts. repeat (split; [assumption || reflexivity|]).
    destruct Hcase as [[Hu ->]|(l & t & f' & Hu & Hl & Hp & ->)].
    + left; auto.
    + right; exists l, t, f'; auto.
  - intros self f Hra Eeof Hf Hp.
    unfold entry, _advance. rewrite Eeof, Hf.
    apply advance_loop_total; exact Hp.
Qed.

(** ** Dictionaries *)

Section DictFacts.

Context {V : Type}.

Lemma keys_app (d1 d2 : dict V) : keys (d1 ++ d2) = keys d1 ++ keys d2.
Proof. apply map_app. Qed.

Lemma dict_get_app_notin (pre post : dict V) k v :
  ~ In k (keys pre) -> dict_get (pre ++ (k, v) :: post) k = Some v.
Proof.
  induction pre as [|[k' v'] pre IH]; simpl; intros Hn.
  - rewrite String.eqb_refl. reflexivity.
  - destruct (String.eqb_spec k' k) as [->|_]; [exfalso; auto|].
    apply IH. auto.
Qed.

Lemma dict_set_app_notin (pre post : dict V) k v v' :
  ~ In k (keys pre) ->
  dict_set (pre ++ (k, v) :: post) k v' = pre ++ (k, v') :: post.
Proof.
  induction pre as [|[k0 v0] pre IH]; simpl; intros Hn.
  - rewrite String.eqb_refl. reflexivity.
  - destruct (String.eqb_spec k0 k) as [->|_]; [exfalso; auto|].
    rewrite IH; auto.
Qed.

Lemma dict_del_app_notin (pre post : dict V) k v :
  ~ In k (keys pre) -> dict_del (pre ++ (k, v) :: post) k = pre ++ post.
Proof.
  induction pre as [|[k0 v0] pre IH]; simpl; intros Hn.
  - rewrite String.eqb_refl. reflexivity.
  - destruct (String.eqb_spec k0 k) as [->|_]; [exfalso; auto|].
    rewrite IH; auto.
Qed.

Lemma dict_get_notin (d : dict V) k : ~ In k (keys d) -> dict_get d k = None.
Proof.
  induction d as [|[k0 v0] d IH]; simpl; intros Hn; [reflexivity|].
  destruct (String.eqb_spec k0 k) as [->|_]; [exfalso; auto|].
  apply IH; auto.
Qed.

Lemma dict_set_notin (d : dict V) k v :
  ~ In k (keys d) -> dict_set d k v = d ++ [(k, v)].
Proof.
  induction d as [|[k0 v0] d IH]; simpl; intros Hn; [reflexivity|].
  destruct (String.eqb_spec k0 k) as [->|_]; [exfalso; auto|].
  rewrite IH; auto.
Qed.

Lemma in_keys_split (d : dict V) k :
  In k (keys d) ->
  exists pre v post, d = pre ++ (k, v) :: post /\ ~ In k (keys pre).
Proof.
  induction d as [|[k0 v0] d IH]; simpl; intros Hin; [contradiction|].
  destruct (String.eqb_spec k0 k) as [->|Hne].
  - exists [], v0, d. auto.
  - destruct Hin as [E|Hin]; [contradiction|].
    destruct (IH Hin) as (pre & v & post & -> & Hn).
    exists ((k0, v0) :: pre), v, post. split; [reflexivity|].
    simpl. intros [E|H]; auto.
Qed.

(** Assignment keeps the keys distinct. *)
Lemma dict_set_NoDup (d : dict V) k v :
  NoDup (keys d) -> NoDup (keys (dict_set d k v)).
Proof.
  intros Hnd. destruct (in_dec string_dec k (keys d)) as [Hin|Hn].
  - destruct (in_keys_split d k Hin) as (pre & v0 & post & -> & Hpre).
    rewrite dict_set_app_notin by exact Hpre.
    rewrite keys_app in *. exact Hnd.
  - rewrite dict_set_notin by exact Hn.
    rewrite keys_app. simpl.
    apply (NoDup_Add (Add_app k (keys d) [])).
    rewrite app_nil_r. split; assumption.
Qed.

Lemma keys_filter_incl (p : string * V -> bool) (d : dict V) k :
  In k (keys (filter p d)) -> In k (keys d).
Proof.
  unfold keys. rewrite !in_map_iff.
  intros (x & E & Hx). apply filter_In in Hx. exists x. tauto.
Qed.

Lemma filter_NoDup_keys (p : string * V -> bool) (d : dict V) :
  NoDup (keys d) -> NoDup (keys (filter p d)).
Proof.
  induction d as [|[k v] d IH]; simpl; intros Hnd; [constructor|].
  inversion Hnd as [|? ? Hn Hnd']; subst.
  destruct (p (k, v)); simpl; [|auto].
  constructor; [|auto].
  intros Hin. apply Hn. eapply keys_filter_incl; exact Hin.
Qed.

End DictFacts.

(** ** LogSet *)

Lemma live_cons k l (logs : dict Logfile) :
  live ((k, l) :: logs) = if _eof l then live logs else (k, l) :: live logs.
Proof. unfold live; simpl. destruct (_eof l); reflexivity. Qed.

Lemma exhausted_cons k l (logs : dict Logfile) :
  exhausted ((k, l) :: logs)
  = if _eof l then (k, l) :: exhausted logs else exhausted logs.
Proof. unfold exhausted; simpl. destruct (_eof l); reflexivity. Qed.

Lemma in_live (logs : dict Logfile) k l :
  In (k, l) (live logs) <-> In (k, l) logs /\ _eof l = false.
Proof.
  unfold live. rewrite filter_In. simpl.
  rewrite negb_true_iff. reflexivity.
Qed.

Lemma in_exhausted (logs : dict Logfile) k l :
  In (k, l) (exhausted logs) <-> In (k, l) logs /\ _eof l = true.
Proof. unfold exhausted. rewrite filter_In. reflexivity. Qed.

(** The first loop of [next_entry] marks the exhausted readers and stops
    at the last of the live readers with the least timestamp, if one is
    at most the timestamp it started with. *)
Lemma scan_spec items : forall lp lt td,
  exists lp' lt',
    scan items lp lt td = Ok (lp', lt', td ++ keys (exhausted items)) /\
    ((lp' = lp /\ lt' = lt /\
      forall k l, In (k, l) (live items) -> dt_leb (_timestamp l) lt = false) \/
     (exists pre log post,
        live items = pre ++ (lp', log) :: post /\
        lt' = _timestamp log /\ dt_leb lt' lt = true /\
        (forall k l, In (k, l) pre -> dt_leb lt' (_timestamp l) = true) /\
        (forall k l, In (k, l) post -> dt_leb (_timestamp l) lt' = false))).
Proof.
  induction items as [|[k l] items IH]; intros lp lt td.
  - exists lp, lt. simpl. rewrite app_nil_r. split; [reflexivity|].
    left. repeat split. intros ? ? [].
  - cbn [scan]. unfold timestamp. rewrite live_cons, exhausted_cons.
    destruct (_eof l) eqn:E.
    + destruct (IH lp lt (td ++ [k])) as (lp' & lt' & Hs & Hc).
      exists lp', lt'. rewrite Hs. simpl. rewrite <- app_assoc.
      split; [reflexivity|exact Hc].
    + destruct (dt_leb (_timestamp l) lt) eqn:Ele.
      * destruct (IH k (_timestamp l) td) as (lp' & lt' & Hs & Hc).
        exists lp', lt'. rewrite Hs. split; [reflexivity|]. right.
        destruct Hc as [(-> & -> & Hall)
                       |(pre & log & post & Hl & -> & Hle & Hpre & Hpost)].
        -- exists [], l, (live items). simpl. repeat split; auto.
        -- exists ((k, l) :: pre), log, post. rewrite Hl. simpl.
           repeat split; auto.
           ++ eapply dt_leb_trans; eauto.
           ++ intros k0 l0 [H|H]; [inversion H; subst; exact Hle|eauto].
      * destruct (IH lp lt td) as (lp' & lt' & Hs & Hc).
        exists lp', lt'. rewrite Hs. split; [reflexivity|].
        destruct Hc as [(-> & -> & Hall)
                       |(pre & log & post & Hl & -> & Hle & Hpre & Hpost)].
        -- left. repeat split.
           intros k0 l0 [H|H]; [inversion H; subst; exact Ele|eauto].
        -- right. exists ((k, l) :: pre), log, post. rewrite Hl. simpl.
           repeat split; auto.
           intros k0 l0 [H|H]; [inversion H; subst|eauto].
           eapply dt_leb_trans; [exact Hle|]. apply dt_leb_total; exact Ele.
Qed.

(** The second loop closes and removes exactly the exhausted readers. *)
Lemma close_holds_stream k l :
  holds_stream k l ->
  close l = ([EvClose k], Ok (mkLogfile None true (_timestamp l) "")).
Proof. intros (f & Hf & <-). unfold close. rewrite Hf. reflexivity. Qed.

Lemma delete_logs_spec logs : forall kept,
  NoDup (keys (kept ++ logs)) ->
  (forall k l, In (k, l) (exhausted logs) -> holds_stream k l) ->
  delete_logs (kept ++ logs) (keys (exhausted logs))
  = (map EvClose (keys (exhausted logs)), Ok (kept ++ live logs)).
Proof.
  induction logs as [|[k l] logs IH]; intros kept Hnd Hs.
  - reflexivity.
  - revert Hs. rewrite live_cons, exhausted_cons. destruct (_eof l) eqn:E.
    + intros Hs.
      assert (Hk : ~ In k (keys kept)).
      { rewrite keys_app in Hnd. simpl in Hnd.
        apply NoDup_remove_2 in Hnd. intros H; apply Hnd.
        apply in_or_app; left; exact H. }
      cbn [keys map fst delete_logs].
      rewrite (dict_get_app_notin kept logs k l Hk).
      rewrite (close_holds_stream k l (Hs k l (or_introl eq_refl))).
      rewrite (dict_set_app_notin kept logs k l _ Hk).
      rewrite (dict_del_app_notin kept logs k _ Hk).
      fold (keys (exhausted logs)).
      rewrite IH; [reflexivity| |].
      * rewrite keys_app in *. simpl in Hnd.
        eapply NoDup_remove_1; exact Hnd.
      * intros k0 l0 Hin. apply Hs. right; exact Hin.
    + intros Hs.
      replace (kept ++ (k, l) :: logs) with ((kept ++ [(k, l)]) ++ logs)
        by (rewrite <- app_assoc; reflexivity).
      rewrite IH.
      * rewrite <- app_assoc. reflexivity.
      * rewrite <- app_assoc. exact Hnd.
      * exact Hs.
Qed.

(** When the second loop comes to its end, it has removed exactly the
    exhausted readers. *)
Lemma delete_logs_ok logs : forall kept evs logs',
  NoDup (keys (kept ++ logs)) ->
  delete_logs (kept ++ logs) (keys (exhausted logs)) = (evs, Ok logs') ->
  logs' = kept ++ live logs.
Proof.
  induction logs as [|[k l] logs IH]; intros kept evs logs' Hnd H.
  - simpl in H. inversion H. reflexivity.
  - revert H. rewrite live_cons, exhausted_cons. destruct (_eof l) eqn:E.
    + assert (Hk : ~ In k (keys kept)).
      { rewrite keys_app in Hnd. simpl in Hnd.
        apply NoDup_remove_2 in Hnd. intros H; apply Hnd.
        apply in_or_app; left; exact H. }
      cbn [keys map fst delete_logs].
      rewrite (dict_get_app_notin kept logs k l Hk).
      unfold close. destruct (_f l) as [f|]; [|discriminate].
      rewrite (dict_set_app_notin kept logs k l _ Hk).
      rewrite (dict_del_app_notin kept logs k _ Hk).
      fold (keys (exhausted logs)).
      destruct (delete_logs (kept ++ logs) (keys (exhausted logs)))
        as [evs' r] eqn:Ed.
      intros H. inversion H; subst.
      apply (IH kept evs' logs'); [|exact Ed].
      rewrite keys_app in *. simpl in Hnd.
      eapply NoDup_remove_1; exact Hnd.
    + assert (Hnd' : NoDup (keys ((kept ++ [(k, l)]) ++ logs)))
        by (rewrite <- app_assoc; exact Hnd).
      replace (kept ++ (k, l) :: logs) with ((kept ++ [(k, l)]) ++ logs)
        by (rewrite <- app_assoc; reflexivity).
      intros H. rewrite (IH _ _ _ Hnd' H).
      rewrite <- app_assoc. reflexivity.
Qed.

Lemma live_nil_length (logs : dict Logfile) :
  (List.length (live logs) =? 0)%nat = true -> live logs = [].
Proof.
  destruct (live logs); [reflexivity|discriminate].
Qed.

(** The second loop comes to its end when every exhausted reader holds a
    stream. *)
Lemma delete_logs_total logs : forall kept,
  NoDup (keys (kept ++ logs)) ->
  (forall k l, In (k, l) (exhausted logs) -> _f l <> None) ->
  exists evs,
    delete_logs (kept ++ logs) (keys (exhausted logs))
    = (evs, Ok (kept ++ live logs)).
Proof.
  induction logs as [|[k l] logs IH]; intros kept Hnd Hs.
  - simpl. rewrite app_nil_r. eauto.
  - revert Hs. rewrite live_cons, exhausted_cons. destruct (_eof l) eqn:E.
    + intros Hs.
      assert (Hk : ~ In k (keys kept)).
      { rewrite keys_app in Hnd. simpl in Hnd.
        apply NoDup_remove_2 in Hnd. intros H; apply Hnd.
        apply in_or_app; left; exact H. }
      cbn [keys map fst delete_logs].
      rewrite (dict_get_app_notin kept logs k l Hk).
      pose proof (Hs k l (or_introl eq_refl)) as Hf.
      unfold close. destruct (_f l) as [f|]; [|contradiction].
      rewrite (dict_set_app_notin kept logs k l _ Hk).
      rewrite (dict_del_app_notin kept logs k _ Hk).
      fold (keys (exhausted logs)).
      assert (Hnd' : NoDup (keys (kept ++ logs))).
      { rewrite keys_app in *. simpl in Hnd.
        eapply NoDup_remove_1; exact Hnd. }
      assert (Hs' : forall k0 l0, In (k0, l0) (exhausted logs) -> _f l0 <> None)
        by (intros k0 l0 Hin; apply (Hs k0 l0); right; exact Hin).
      destruct (IH kept Hnd' Hs') as [evs ->]. eauto.
    + intros Hs.
      assert (Hnd' : NoDup (keys ((kept ++ [(k, l)]) ++ logs)))
        by (rewrite <- app_assoc; exact Hnd).
      replace (kept ++ (k, l) :: logs) with ((kept ++ [(k, l)]) ++ logs)
        by (rewrite <- app_assoc; reflexivity).
      destruct (IH (kept ++ [(k, l)]) Hnd' Hs) as [evs ->].
      rewrite <- app_assoc. eauto.
Qed.

(** What one call of [next_entry] does once its second loop has come to
    its end, for a merge set with distinct keys whose live readers hold
    timestamps up to [datetime.max]. *)
Lemma next_entry_after_delete cfg ls evs :
  NoDup (keys (_logs ls)) ->
  (forall k l, In (k, l) (live (_logs ls)) ->
               dt_leb (_timestamp l) datetime_max = true) ->
  delete_logs (_logs ls) (keys (exhausted (_logs ls)))
  = (evs, Ok (live (_logs ls))) ->
  exists r,
    next_entry cfg ls = (evs, r) /\
    ((live (_logs ls) = [] /\ r = Raise EOFError) \/
     (exists pre k log post,
        live (_logs ls) = pre ++ (k, log) :: post /\
        (forall k' l', In (k', l') pre ->
                       dt_leb (_timestamp log) (_timestamp l') = true) /\
        (forall k' l', In (k', l') post ->
                       dt_leb (_timestamp l') (_timestamp log) = false) /\
        r = match _advance cfg log with
            | Raise e => Raise e
            | Ok (lines, log') => Ok (k, lines, mkLogSet (pre ++ (k, log') :: post))
            end)).
Proof.
  destruct ls as [logs]. cbn [_logs]. intros Hnd Hmax Hd.
  unfold next_entry. cbn [_logs].
  destruct (List.length logs =? 0)%nat eqn:Elen0.
  { destruct logs; [|discriminate]. simpl in Hd. inversion Hd; subst.
    exists (Raise EOFError). split; [reflexivity|]. left; auto. }
  destruct (scan_spec logs "" datetime_max []) as (lp & lt & Hs & Hc).
  rewrite Hs. cbn [app].
  rewrite Hd. clear Hd.
  destruct (List.length (live logs) =? 0)%nat eqn:Elen.
  { exists (Raise EOFError). split; [reflexivity|].
    left. split; [apply live_nil_length; exact Elen|reflexivity]. }
  destruct Hc as [(_ & _ & Hall)|(pre & log & post & Hl & -> & _ & Hpre & Hpost)].
  { exfalso. destruct (live logs) as [|[k l] rest] eqn:El; [discriminate|].
    specialize (Hall k l (or_introl eq_refl)).
    specialize (Hmax k l (or_introl eq_refl)). congruence. }
  assert (Hndl : NoDup (keys (live logs))) by (apply filter_NoDup_keys; exact Hnd).
  assert (Hk : ~ In lp (keys pre)).
  { rewrite Hl, keys_app in Hndl. simpl in Hndl.
    apply NoDup_remove_2 in Hndl. intros H; apply Hndl.
    apply in_or_app; left; exact H. }
  assert (Elive : _eof log = false).
  { apply (in_live logs lp log). rewrite Hl. apply in_or_app; right; left.
    reflexivity. }
  rewrite Hl, (dict_get_app_notin pre post lp log Hk).
  unfold entry. rewrite Elive.
  eexists. split.
  2:{ right. exists pre, lp, log, post.
      split; [reflexivity|]. split; [exact Hpre|]. split; [exact Hpost|].
      reflexivity. }
  destruct (_advance cfg log) as [[lines log']|e]; [|reflexivity].
  rewrite (dict_set_app_notin pre post lp log log' Hk). reflexivity.
Qed.

(** What one call of [next_entry] does, for such a merge set whose
    exhausted readers hold the streams of their paths. *)
Lemma next_entry_steps cfg ls :
  NoDup (keys (_logs ls)) ->
  (forall k l, In (k, l) (live (_logs ls)) ->
               dt_leb (_timestamp l) datetime_max = true) ->
  (forall k l, In (k, l) (exhausted (_logs ls)) -> holds_stream k l) ->
  exists r,
    next_entry cfg ls = (map EvClose (keys (exhausted (_logs ls))), r) /\
    ((live (_logs ls) = [] /\ r = Raise EOFError) \/
     (exists pre k log post,
        live (_logs ls) = pre ++ (k, log) :: post /\
        (forall k' l', In (k', l') pre ->
                       dt_leb (_timestamp log) (_timestamp l') = true) /\
        (forall k' l', In (k', l') post ->
                       dt_leb (_timestamp l') (_timestamp log) = false) /\
        r = match _advance cfg log with
            | Raise e => Raise e
            | Ok (lines, log') => Ok (k, lines, mkLogSet (pre ++ (k, log') :: post))
            end)).
Proof.
  intros Hnd Hmax Hst. apply next_entry_after_delete; [exact Hnd|exact Hmax|].
  apply (delete_logs_spec (_logs ls) [] Hnd Hst).
Qed.

Lemma lex_compare_eq a : forall b, lex_compare a b = Eq -> a = b.
Proof.
  induction a as [|x a IH]; intros [|y b]; simpl; try discriminate; auto.
  destruct (Z.compare_spec x y) as [Exy| |]; try discriminate.
  intros Hc. subst. f_equal. apply IH; exact Hc.
Qed.

Lemma dt_leb_antisym a b : dt_leb a b = true -> dt_leb b a = true -> a = b.
Proof.
  unfold dt_leb, dt_compare.
  rewrite (lex_compare_antisym (dt_fields a) (dt_fields b)).
  destruct (lex_compare (dt_fields a) (dt_fields b)) eqn:E; simpl;
    try discriminate.
  intros _ _. apply lex_compare_eq in E.
  destruct a, b; simpl in E; inversion E; reflexivity.
Qed.

Lemma dt_valid_min_le d : dt_valid d = true -> dt_leb datetime_min d = true.
Proof.
  destruct d as [y mo dd h mi s us]; unfold dt_valid; simpl.
  rewrite !andb_true_iff, !Z.leb_le.
  intros [[[[[[[[[[[[[? ?] ?] ?] ?] Hd] ?] ?] ?] ?] ?] ?] ?] ?].
  unfold dt_leb, dt_compare, datetime_min.
  cbn [dt_fields lex_compare year month day hour minute second microsecond].
  repeat match goal with
         | |- context [(?a ?= ?b)%Z] => destruct (Z.compare_spec a b); try lia
         end; reflexivity.
Qed.

(** Two ways of cutting a list at an element. *)
Lemma split_compare {A : Type} (pre : list A) : forall x post pre' x' post',
  pre ++ x :: post = pre' ++ x' :: post' ->
  (pre = pre' /\ x = x' /\ post = post') \/
  (In x pre' /\ In x' post) \/
  (In x post' /\ In x' pre).
Proof.
  induction pre as [|a pre IH]; intros x post pre' x' post' H.
  - destruct pre' as [|a' pre']; simpl in H; inversion H; subst.
    + left; auto.
    + right; left. split; [left; reflexivity|].
      apply in_or_app; right; left; reflexivity.
  - destruct pre' as [|a' pre']; simpl in H; inversion H; subst.
    + right; right. split; [|left; reflexivity].
      apply in_or_app; right; left; reflexivity.
    + destruct (IH _ _ _ _ _ H2) as [(-> & -> & ->)|[[? ?]|[? ?]]].
      * left; auto.
      * right; left. split; [right|]; assumption.
      * right; right. split; [|right]; assumption.
Qed.

Lemma LogSet_inv_ok cfg ls : LogSet_inv cfg ls -> LogSet_ok cfg ls.
Proof. intros (H1 & H2 & _). split; assumption. Qed.

Lemma live_read_ahead_max cfg ls :
  LogSet_ok cfg ls ->
  forall k l, In (k, l) (live (_logs ls)) ->
              dt_leb (_timestamp l) datetime_max = true.
Proof.
  intros [_ Hra] k l Hin. apply in_live in Hin. destruct Hin as [Hin E].
  destruct (Hra k l Hin E) as (_ & _ & Hp).
  apply dt_valid_le_max. eapply parse_datetime_valid; exact Hp.
Qed.

(** What one call of [next_entry] does, for a merge set that satisfies
    the invariant. *)
Lemma next_entry_spec cfg ls :
  LogSet_inv cfg ls ->
  exists r,
    next_entry cfg ls = (map EvClose (keys (exhausted (_logs ls))), r) /\
    ((live (_logs ls) = [] /\ r = Raise EOFError) \/
     (exists pre k log post,
        live (_logs ls) = pre ++ (k, log) :: post /\
        (forall k' l', In (k', l') pre ->
                       dt_leb (_timestamp log) (_timestamp l') = true) /\
        (forall k' l', In (k', l') post ->
                       dt_leb (_timestamp l') (_timestamp log) = false) /\
        r = match _advance cfg log with
            | Raise e => Raise e
            | Ok (lines, log') => Ok (k, lines, mkLogSet (pre ++ (k, log') :: post))
            end)).
Proof.
  intros Hok.
  apply next_entry_steps.
  - apply Hok.
  - apply (live_read_ahead_max cfg ls (LogSet_inv_ok cfg ls Hok)).
  - intros k l Hin. apply in_exhausted in Hin.
    apply (proj2 (proj2 Hok) k l). tauto.
Qed.

Lemma in_dict_set {V : Type} (d : dict V) k v k0 v0 :
  In (k0, v0) (dict_set d k v) -> (k0, v0) = (k, v) \/ In (k0, v0) d.
Proof.
  induction d as [|[k1 v1] d IH]; simpl.
  - intros [H|[]]; left; symmetry; exact H.
  - destruct (String.eqb_spec k1 k) as [->|_]; simpl.
    + intros [H|H]; [left; symmetry; exact H|right; right; exact H].
    + intros [H|H]; [right; left; exact H|].
      destruct (IH H) as [E|E]; [left; exact E|right; right; exact E].
Qed.

(** What holds of every reader [Logfile] constructs, under its path,
    holds of every reader of the merge set [LogSet] constructs, under its
    key. *)
Lemma LogSet_init_loop_keyed cfg fs (P : string -> Logfile -> Prop) pathnames :
  forall logs evs ls,
    (forall path es log,
       In path pathnames ->
       Logfile_init cfg fs path = (es, Ok log) -> P path log) ->
    NoDup (keys logs) ->
    (forall k l, In (k, l) logs -> P k l) ->
    LogSet_init_loop cfg fs pathnames logs = (evs, Ok ls) ->
    NoDup (keys (_logs ls)) /\ forall k l, In (k, l) (_logs ls) -> P k l.
Proof.
  induction pathnames as [|path rest IH]; intros logs evs ls HP Hnd Hall H.
  - simpl in H. inversion H; subst. simpl. auto.
  - cbn [LogSet_init_loop] in H.
    destruct (Logfile_init cfg fs path) as [es [log|e]] eqn:E; [|inversion H].
    destruct (LogSet_init_loop cfg fs rest (dict_set logs path log))
      as [es' r] eqn:E'.
    inversion H; subst. clear H.
    apply (IH (dict_set logs path log) es' ls); auto.
    + intros p es0 l0 Hin. apply HP. right; exact Hin.
    + apply dict_set_NoDup; exact Hnd.
    + intros k l Hin. destruct (in_dict_set _ _ _ _ _ Hin) as [Heq|Hin'].
      * inversion Heq; subst. eapply HP; [left; reflexivity|exact E].
      * eapply Hall; exact Hin'.
Qed.

Lemma LogSet_init_loop_all cfg fs (P : Logfile -> Prop) pathnames :
  forall logs evs ls,
    (forall path es log,
       In path pathnames ->
       Logfile_init cfg fs path = (es, Ok log) -> P log) ->
    NoDup (keys logs) ->
    (forall k l, In (k, l) logs -> P l) ->
    LogSet_init_loop cfg fs pathnames logs = (evs, Ok ls) ->
    NoDup (keys (_logs ls)) /\ forall k l, In (k, l) (_logs ls) -> P l.
Proof.
  intros logs evs ls. apply (LogSet_init_loop_keyed cfg fs (fun _ => P)).
Qed.

(** For distinct paths, the order of the merge set is the order in which
    the paths were supplied. *)
Lemma LogSet_init_loop_keys cfg fs pathnames : forall logs evs ls,
  NoDup (keys logs ++ pathnames) ->
  LogSet_init_loop cfg fs pathnames logs = (evs, Ok ls) ->
  keys (_logs ls) = keys logs ++ pathnames.
Proof.
  induction pathnames as [|path rest IH]; intros logs evs ls Hnd H.
  - simpl in H. inversion H; subst. simpl. rewrite app_nil_r. reflexivity.
  - cbn [LogSet_init_loop] in H.
    destruct (Logfile_init cfg fs path) as [es [log|e]] eqn:E; [|inversion H].
    destruct (LogSet_init_loop cfg fs rest (dict_set logs path log))
      as [es' r] eqn:E'.
    inversion H; subst. clear H.
    assert (Hn : ~ In path (keys logs)).
    { apply NoDup_remove_2 in Hnd. intros Hin. apply Hnd.
      apply in_or_app; left; exact Hin. }
    rewrite (IH (dict_set logs path log) es' ls).
    + rewrite dict_set_notin by exact Hn.
      rewrite keys_app, <- app_assoc. reflexivity.
    + rewrite dict_set_notin by exact Hn.
      rewrite keys_app, <- app_assoc. exact Hnd.
    + exact E'.
Qed.

Lemma LogSet_init_keys cfg fs pathnames evs ls :
  NoDup pathnames ->
  LogSet_init cfg fs pathnames = (evs, Ok ls) ->
  keys (_logs ls) = pathnames.
Proof.
  intros Hnd H.
  apply (LogSet_init_loop_keys cfg fs pathnames [] evs ls Hnd H).
Qed.

Lemma LogSet_init_inv cfg fs pathnames evs ls :
  LogSet_init cfg fs pathnames = (evs, Ok ls) -> LogSet_inv cfg ls.
Proof.
  intros H. unfold LogSet_inv.
  destruct (LogSet_init_loop_keyed cfg fs
              (fun k l => read_ahead cfg l /\ holds_stream k l)
              pathnames [] evs ls) as [Hnd Hall]; auto.
  - intros path es log _ Hi. split.
    + eapply Logfile_init_read_ahead; exact Hi.
    + eapply Logfile_init_holds_stream; exact Hi.
  - constructor.
  - intros ? ? [].
  - split; [exact Hnd|]. split; intros k l Hin; apply (Hall k l Hin).
Qed.

(** One successful call of [next_entry], for a merge set that satisfies
    the invariant. *)
Lemma next_entry_ok_step cfg ls evs path lines ls' :
  LogSet_inv cfg ls ->
  next_entry cfg ls = (evs, Ok (path, lines, ls')) ->
  exists pre log post log',
    live (_logs ls) = pre ++ (path, log) :: post /\
    (forall k l, In (k, l) pre ->
                 dt_leb (_timestamp log) (_timestamp l) = true) /\
    (forall k l, In (k, l) post ->
                 dt_leb (_timestamp l) (_timestamp log) = false) /\
    entry cfg log = Ok (lines, log') /\ read_ahead cfg log /\
    _logs ls' = pre ++ (path, log') :: post /\
    evs = map EvClose (keys (exhausted (_logs ls))) /\
    LogSet_inv cfg ls'.
Proof.
  intros Hok H.
  destruct (next_entry_spec cfg ls Hok)
    as (r & Hn & Hcase).
  rewrite Hn in H. inversion H as [[Hev Hr]]. clear H. subst r.
  destruct Hcase as [[_ Hr]|(pre & k & log & post & Hl & Hpre & Hpost & Hr)];
    [discriminate|].
  destruct (_advance cfg log) as [[lines0 log']|e] eqn:Ea; [|discriminate].
  inversion Hr; subst. clear Hr.
  assert (Hin : In (k, log) (live (_logs ls)))
    by (rewrite Hl; apply in_or_app; right; left; reflexivity).
  apply in_live in Hin. destruct Hin as [Hin Elive].
  assert (Hra : read_ahead cfg log) by (apply (proj1 (proj2 Hok) k log Hin)).
  assert (He : entry cfg log = Ok (lines0, log'))
    by (unfold entry; rewrite Elive; exact Ea).
  exists pre, log, post, log'.
  do 7 (split; [solve [auto]|]). split; [|split].
  - cbn [_logs].
    pose proof (filter_NoDup_keys (fun kl => negb (_eof (snd kl)))
                  (_logs ls) (proj1 Hok)) as Hnd.
    fold (live (_logs ls)) in Hnd. rewrite Hl in Hnd.
    rewrite keys_app in *. exact Hnd.
  - cbn [_logs]. intros k0 l0 Hin0.
    apply in_app_or in Hin0. destruct Hin0 as [Hin0|[Heq|Hin0]].
    + apply (proj1 (proj2 Hok) k0 l0).
      apply (in_live (_logs ls) k0 l0). rewrite Hl.
      apply in_or_app; left; exact Hin0.
    + inversion Heq; subst. eapply entry_read_ahead; eauto.
    + apply (proj1 (proj2 Hok) k0 l0).
      apply (in_live (_logs ls) k0 l0). rewrite Hl.
      apply in_or_app; right; right; exact Hin0.
  - cbn [_logs]. intros k0 l0 Hin0.
    apply in_app_or in Hin0. destruct Hin0 as [Hin0|[Heq|Hin0]].
    + apply (proj2 (proj2 Hok) k0 l0).
      apply (in_live (_logs ls) k0 l0). rewrite Hl.
      apply in_or_app; left; exact Hin0.
    + inversion Heq; subst.
      eapply entry_holds_stream; [exact Hra| |exact He].
      apply (proj2 (proj2 Hok)). exact Hin.
    + apply (proj2 (proj2 Hok) k0 l0).
      apply (in_live (_logs ls) k0 l0). rewrite Hl.
      apply in_or_app; right; right; exact Hin0.
Qed.

(** One successful call of [next_entry], for a merge set in good order,
    whatever has become of the streams of its readers. *)
Lemma next_entry_ok_weak cfg ls evs path lines ls' :
  LogSet_ok cfg ls ->
  next_entry cfg ls = (evs, Ok (path, lines, ls')) ->
  exists pre log post log',
    live (_logs ls) = pre ++ (path, log) :: post /\
    (forall k l, In (k, l) pre ->
                 dt_leb (_timestamp log) (_timestamp l) = true) /\
    (forall k l, In (k, l) post ->
                 dt_leb (_timestamp l) (_timestamp log) = false) /\
    entry cfg log = Ok (lines, log') /\ read_ahead cfg log /\
    _logs ls' = pre ++ (path, log') :: post /\
    LogSet_ok cfg ls'.
Proof.
  intros Hok H. pose proof (live_read_ahead_max cfg ls Hok) as Hmax.
  destruct Hok as [Hnd Hra].
  destruct ls as [logs]. cbn [_logs] in *.
  unfold next_entry in H. cbn [_logs] in H.
  destruct (List.length logs =? 0)%nat; [discriminate|].
  destruct (scan_spec logs "" datetime_max []) as (lp & lt & Hs & Hc).
  rewrite Hs in H. cbn [app] in H.
  destruct (delete_logs logs (keys (exhausted logs))) as [evs1 [logs1|e]] eqn:Ed;
    [|discriminate].
  pose proof (delete_logs_ok logs [] evs1 logs1 Hnd Ed) as Hlogs1.
  cbn [app] in Hlogs1. subst logs1.
  destruct (List.length (live logs) =? 0)%nat; [discriminate|].
  destruct Hc as [(_ & _ & Hall)|(pre & log & post & Hl & -> & _ & Hpre & Hpost)].
  { exfalso. destruct (live logs) as [|[k l] rest] eqn:El.
    - rewrite dict_get_notin in H by (intros []). discriminate.
    - specialize (Hall k l (or_introl eq_refl)).
      specialize (Hmax k l (or_introl eq_refl)). congruence. }
  assert (Hndl : NoDup (keys (live logs))) by (apply filter_NoDup_keys; exact Hnd).
  assert (Hk : ~ In lp (keys pre)).
  { rewrite Hl, keys_app in Hndl. simpl in Hndl.
    apply NoDup_remove_2 in Hndl. intros Hp. apply Hndl.
    apply in_or_app; left; exact Hp. }
  assert (Hin : In (lp, log) logs /\ _eof log = false).
  { apply (in_live logs lp log). rewrite Hl. apply in_or_app; right; left.
    reflexivity. }
  destruct Hin as [Hin Elive].
  rewrite Hl, (dict_get_app_notin pre post lp log Hk) in H.
  destruct (entry cfg log) as [[lines0 log']|e] eqn:He; [|discriminate].
  rewrite (dict_set_app_notin pre post lp log log' Hk) in H.
  inversion H; subst. clear H.
  pose proof (Hra _ _ Hin) as Hralog.
  exists pre, log, post, log'.
  do 6 (split; [solve [auto]|]). split.
  - cbn [_logs]. rewrite Hl in Hndl. rewrite keys_app in *. exact Hndl.
  - cbn [_logs]. intros k0 l0 Hin0.
    apply in_app_or in Hin0. destruct Hin0 as [Hin0|[Heq|Hin0]].
    + apply (Hra k0 l0). apply (in_live logs k0 l0). rewrite Hl.
      apply in_or_app; left; exact Hin0.
    + inversion Heq; subst. eapply entry_read_ahead; eauto.
    + apply (Hra k0 l0). apply (in_live logs k0 l0). rewrite Hl.
      apply in_or_app; right; right; exact Hin0.
Qed.

Lemma reachable_inv cfg fs pathnames ls :
  reachable cfg fs pathnames ls -> LogSet_inv cfg ls.
Proof.
  induction 1 as [evs ls H|ls evs path lines ls' _ IH H].
  - eapply LogSet_init_inv; exact H.
  - destruct (next_entry_ok_step _ _ _ _ _ _ IH H)
      as (? & ? & ? & ? & _ & _ & _ & _ & _ & _ & _ & Hok).
    exact Hok.
Qed.

(** When several live readers share the least buffered timestamp,
    [next_entry] takes the one that comes last in the order of the merge
    set: it returns that reader's path with the entry extracted from it
    (which starts with its buffered line), and passes on what that
    extraction raises. *)
Lemma next_entry_last_of_least (cfg : config) (ls : LogSet)
    (pre : dict Logfile) (path : string) (log : Logfile) (post : dict Logfile) :
  LogSet_inv cfg ls ->
  live (_logs ls) = pre ++ (path, log) :: post ->
  (forall k l, In (k, l) (live (_logs ls)) ->
               dt_le (_timestamp log) (_timestamp l)) ->
  (forall k l, In (k, l) post -> _timestamp l <> _timestamp log) ->
  exists evs,
    next_entry cfg ls
    = (evs,
       match entry cfg log with
       | Raise e => Raise e
       | Ok (lines, log') =>
           Ok (path, lines, mkLogSet (pre ++ (path, log') :: post))
       end) /\
    forall lines log',
      entry cfg log = Ok (lines, log') -> hd "" lines = _line log.
Proof.
  intros Hok Hl Hmin Hlast.
  assert (Hin : In (path, log) (live (_logs ls)))
    by (rewrite Hl; apply in_or_app; right; left; reflexivity).
  assert (Elive : _eof log = false) by (apply in_live in Hin; tauto).
  assert (Hra : read_ahead cfg log)
    by (apply in_live in Hin; apply (proj1 (proj2 Hok) path log); tauto).
  destruct (next_entry_spec cfg ls Hok)
    as (r & Hn & Hcase).
  exists (map EvClose (keys (exhausted (_logs ls)))).
  split.
  2:{ intros lines log' He.
      destruct (entry_spec _ _ _ _ Hra He) as (? & ? & _ & _ & -> & _).
      reflexivity. }
  rewrite Hn. f_equal.
  destruct Hcase as [[Hnil _]|(pre' & k' & log' & post' & Hl' & Hpre & Hpost & ->)].
  { rewrite Hl in Hnil. destruct pre; discriminate. }
  unfold entry. rewrite Elive.
  rewrite Hl in Hl'.
  destruct (split_compare _ _ _ _ _ _ Hl')
    as [(-> & E & ->)|[[Hin1 Hin2]|[Hin1 Hin2]]].
  - inversion E; subst. reflexivity.
  - exfalso. apply (Hlast k' log' Hin2).
    apply dt_leb_antisym.
    + apply (Hpre path log Hin1).
    + apply (Hmin k' log'). rewrite Hl.
      apply in_or_app; right; right; exact Hin2.
  - exfalso. pose proof (Hpost path log Hin1) as Hgt.
    assert (Hle : dt_leb (_timestamp log) (_timestamp log') = true).
    { apply (Hmin k' log'). rewrite Hl.
      apply in_or_app; left; exact Hin2. }
    congruence.
Qed.

Lemma last_char_some line : line <> "" -> exists c, last_char line = Some c.
Proof.
  induction line as [|a line IH]; intros H; [contradiction|].
  destruct line as [|b line]; [exists a; reflexivity|].
  destruct IH as [c Hc]; [discriminate|].
  exists c. exact Hc.
Qed.

Lemma render_nonempty line prefix_arg color :
  line <> "" -> exists text, render line prefix_arg color = Ok text.
Proof.
  intros H. unfold render.
  destruct ((-1 <? color)%Z && (color <? 256)%Z); [|eauto].
  destruct (last_char_some line H) as [c ->]. eauto.
Qed.

(** C10: every line of an entry [next_entry] returns is a non-empty
    string (the entry itself holds at least its first line), so [render]
    does not fail on it when it looks at the last character. *)
Theorem next_entry_lines_nonempty (cfg : config) (fs : filesystem)
    (pathnames : list string) (ls : LogSet) (evs : list event)
    (path : string) (lines : list string) (ls' : LogSet) :
  reachable cfg fs pathnames ls ->
  next_entry cfg ls = (evs, Ok (path, lines, ls')) ->
  lines <> [] /\
  Forall (fun line => line <> "") lines /\
  forall line prefix_arg color,
    In line lines -> exists text, render line prefix_arg color = Ok text.
Proof.
  intros Hreach H.
  pose proof (reachable_inv _ _ _ _ Hreach) as Hok.
  destruct (next_entry_ok_step _ _ _ _ _ _ Hok H)
    as (pre & log & post & log' & _ & _ & _ & He & Hra & _).
  destruct (entry_spec _ _ _ _ Hra He)
    as (f & conts & Elive & _ & -> & Hc & _).
  assert (Hne : Forall (fun line => line <> "") (_line log :: conts)).
  { constructor.
    - apply (Hra Elive).
    - eapply Forall_impl; [|exact Hc]. intros a [Ha _]; exact Ha. }
  split; [discriminate|]. split; [exact Hne|].
  intros line prefix_arg color Hin.
  apply render_nonempty.
  rewrite Forall_forall in Hne. apply Hne; exact Hin.
Qed.

(** ** Closing *)

Lemma closes_app evs evs' : closes (evs ++ evs') = closes evs ++ closes evs'.
Proof. unfold closes. apply flat_map_app. Qed.

Lemma closes_map_EvClose ks : closes (map EvClose ks) = ks.
Proof. induction ks as [|k ks IH]; simpl; [|rewrite IH]; reflexivity. Qed.

Lemma print_entry_closes lines prefix_arg color :
  closes (fst (print_entry lines prefix_arg color)) = [].
Proof.
  induction lines as [|line lines IH]; simpl; [reflexivity|].
  destruct (render line (Some prefix_arg) color); [|reflexivity].
  destruct (print_entry lines prefix_arg color) as [evs r]. exact IH.
Qed.

Lemma keys_partition (logs : dict Logfile) k :
  In k (keys logs) -> In k (keys (exhausted logs)) \/ In k (keys (live logs)).
Proof.
  induction logs as [|[k0 l0] logs IH]; [simpl; tauto|].
  rewrite live_cons, exhausted_cons.
  destruct (_eof l0); simpl; tauto.
Qed.

Lemma partition_NoDup (logs : dict Logfile) :
  NoDup (keys logs) -> NoDup (keys (exhausted logs) ++ keys (live logs)).
Proof.
  induction logs as [|[k l] logs IH]; intros Hnd; [constructor|].
  inversion Hnd as [|? ? Hn Hnd']; subst.
  assert (Hk : ~ In k (keys (exhausted logs) ++ keys (live logs))).
  { intros H. apply Hn. apply in_app_or in H.
    destruct H as [H|H]; eapply keys_filter_incl; exact H. }
  rewrite live_cons, exhausted_cons. destruct (_eof l); simpl.
  - constructor; auto.
  - apply (NoDup_Add (Add_app k _ _)). auto.
Qed.

Lemma NoDup_app_incl {A : Type} (a b c : list A) :
  NoDup (a ++ b) -> NoDup c -> incl c b -> NoDup (a ++ c).
Proof.
  induction a as [|x a IH]; simpl; intros Hab Hc Hi; [exact Hc|].
  inversion Hab as [|? ? Hn Hab']; subst.
  constructor; [|auto].
  intros H. apply Hn. apply in_app_or in H. apply in_or_app.
  destruct H as [H|H]; [left; exact H|right; apply Hi; exact H].
Qed.

Lemma live_nil_exhausted (logs : dict Logfile) :
  live logs = [] -> exhausted logs = logs.
Proof.
  induction logs as [|[k l] logs IH]; [reflexivity|].
  rewrite live_cons, exhausted_cons.
  destruct (_eof l); [|discriminate].
  intros H. rewrite IH; auto.
Qed.

Lemma advance_loop_not_eof cfg path f : forall self results,
  advance_loop cfg path f self results <> Raise EOFError.
Proof.
  induction f as [|line f IH]; intros self results; [discriminate|].
  cbn [advance_loop]. destruct (String.eqb line ""); [discriminate|].
  pose proof (parse_datetime_not_eof cfg line) as N.
  destruct (parse_datetime cfg line) as [[t|]|e]; simpl.
  - discriminate.
  - apply IH.
  - intros H; apply N; inversion H; reflexivity.
Qed.

Lemma _advance_not_eof cfg log : _advance cfg log <> Raise EOFError.
Proof.
  unfold _advance. destruct (_f log); [apply advance_loop_not_eof|discriminate].
Qed.

(** The streams closed in a run of the loop of [main]. *)
Lemma main_loop_closes cfg prefixes colors default_color fuel :
  forall ls evs o,
    LogSet_inv cfg ls ->
    main_loop fuel cfg ls prefixes colors default_color = (evs, o) ->
    NoDup (closes evs) /\
    incl (closes evs) (keys (_logs ls)) /\
    (o = Exit 0 -> incl (keys (_logs ls)) (closes evs)).
Proof.
  induction fuel as [|fuel IH]; intros ls evs o Hok H.
  - simpl in H. inversion H; subst. simpl.
    split; [constructor|]. split; [intros ? []|discriminate].
  - cbn [main_loop] in H.
    destruct (next_entry cfg ls) as [evs1 r] eqn:En.
    destruct (next_entry_spec cfg ls Hok)
      as (r0 & Hn & Hcase).
    rewrite En in Hn. inversion Hn; subst evs1 r0. clear Hn.
    assert (Hex : NoDup (keys (exhausted (_logs ls))))
      by (apply filter_NoDup_keys; apply Hok).
    assert (Hinc : incl (keys (exhausted (_logs ls))) (keys (_logs ls)))
      by (intros k Hk; eapply keys_filter_incl; exact Hk).
    destruct r as [[[path lines] ls']|e].
    + destruct (next_entry_ok_step _ _ _ _ _ _ Hok En)
        as (pre & log & post & log' & Hl & _ & _ & _ & _ & Hl' & _ & Hok').
      pose proof (print_entry_closes lines (dd_get prefixes "" path)
                    (dd_get colors default_color path)) as Hpc.
      destruct (print_entry lines (dd_get prefixes "" path)
                  (dd_get colors default_color path)) as [pevs [u|e]].
      2:{ inversion H; subst. rewrite closes_app, closes_map_EvClose.
          simpl in Hpc. rewrite Hpc, app_nil_r.
          split; [exact Hex|]. split; [exact Hinc|discriminate]. }
      destruct (main_loop fuel cfg ls' prefixes colors default_color)
        as [evs' o'] eqn:Em.
      inversion H; subst. clear H.
      destruct (IH _ _ _ Hok' Em) as (Hnd' & Hinc' & Hall').
      assert (Hk' : keys (_logs ls') = keys (live (_logs ls))).
      { rewrite Hl', Hl, !keys_app. reflexivity. }
      rewrite Hk' in *.
      rewrite !closes_app, closes_map_EvClose.
      simpl in Hpc. rewrite Hpc. cbn [app].
      split; [|split].
      * eapply NoDup_app_incl; [apply partition_NoDup; apply Hok| |]; assumption.
      * intros k Hk. apply in_app_or in Hk. destruct Hk as [Hk|Hk].
        -- apply Hinc; exact Hk.
        -- eapply keys_filter_incl. apply Hinc'. exact Hk.
      * intros Ho k Hk. apply in_or_app.
        destruct (keys_partition _ _ Hk) as [Hk1|Hk1]; [left; exact Hk1|].
        right. apply (Hall' Ho). exact Hk1.
    + assert (Hev : closes evs = keys (exhausted (_logs ls))).
      { destruct e; inversion H; subst; apply closes_map_EvClose. }
      rewrite Hev. split; [exact Hex|]. split; [exact Hinc|].
      intros Ho.
      destruct Hcase as [[Hnil _]|(pre & k & log & post & _ & _ & _ & Hr)].
      * rewrite (live_nil_exhausted _ Hnil). apply incl_refl.
      * exfalso. pose proof (_advance_not_eof cfg log) as N.
        destruct (_advance cfg log) as [[? ?]|e']; [discriminate|].
        inversion Hr; subst. destruct e'; inversion H; subst;
          try discriminate. apply N; reflexivity.
Qed.

(** ** The order of the merged entries *)

Lemma stamps_app cfg f f' : stamps cfg (f ++ f') = stamps cfg f ++ stamps cfg f'.
Proof. unfold stamps. apply flat_map_app. Qed.

Lemma stamps_continuation cfg conts :
  Forall (continuation cfg) conts -> stamps cfg conts = [].
Proof.
  induction 1 as [|line conts [_ Hp] _ IH]; [reflexivity|].
  unfold stamps in *. simpl. rewrite Hp, IH. reflexivity.
Qed.

Lemma stamps_found cfg line t f :
  parse_datetime cfg line = Ok (Some t) ->
  stamps cfg (line :: f) = t :: stamps cfg f.
Proof. intros Hp. unfold stamps. simpl. rewrite Hp. reflexivity. Qed.

Lemma stamps_split cfg conts line t f :
  Forall (continuation cfg) conts ->
  parse_datetime cfg line = Ok (Some t) ->
  stamps cfg (conts ++ line :: f) = t :: stamps cfg f.
Proof.
  intros Hc Hp.
  rewrite stamps_app, (stamps_continuation _ _ Hc), (stamps_found _ _ _ _ Hp).
  reflexivity.
Qed.

Lemma stamps_valid cfg f : Forall (fun t => dt_valid t = true) (stamps cfg f).
Proof.
  induction f as [|line f IH]; [constructor|].
  unfold stamps in *. simpl.
  destruct (parse_datetime cfg line) as [[t|]|e] eqn:E; simpl; auto.
  constructor; [|exact IH]. eapply parse_datetime_valid; exact E.
Qed.

Lemma Logfile_init_sorted cfg fs path evs log :
  (forall text, fs path = Some text ->
                StronglySorted dt_le (stamps cfg (readlines text))) ->
  Logfile_init cfg fs path = (evs, Ok log) ->
  sorted_from cfg datetime_min log.
Proof.
  intros Hs H.
  destruct (Logfile_init_spec _ _ _ _ _ H)
    as (text & conts & Hfs & _ & Hc
        & [[_ ->]|(line & t & f' & Hr & Hl & Hp & ->)]).
  - split; constructor.
  - specialize (Hs text Hfs).
    rewrite Hr, (stamps_split _ _ _ _ _ Hc Hp) in Hs.
    unfold sorted_from, pending. cbn [_eof _f _timestamp unread_lines].
    split; [exact Hs|].
    pose proof (stamps_valid cfg (line :: f')) as Hv.
    rewrite (stamps_found _ _ _ _ Hp) in Hv.
    eapply Forall_impl; [|exact Hv].
    intros a Ha. apply dt_valid_min_le; exact Ha.
Qed.

Lemma sorted_from_raise cfg b t l :
  sorted_from cfg b l ->
  (forall x, pending cfg l = x :: tl (pending cfg l) -> dt_le t x) ->
  sorted_from cfg t l.
Proof.
  intros [Hs Hb] Hhd. split; [exact Hs|].
  destruct (pending cfg l) as [|x r]; [constructor|].
  specialize (Hhd x eq_refl).
  constructor; [exact Hhd|].
  inversion Hs as [|? ? _ Hx]; subst.
  eapply Forall_impl; [|exact Hx].
  intros a Ha. eapply dt_leb_trans; eauto.
Qed.

Lemma pending_live cfg l :
  read_ahead cfg l -> _eof l = false ->
  exists r, pending cfg l = _timestamp l :: r.
Proof.
  intros Hra E. destruct (Hra E) as ((f & Hf & _) & _).
  unfold pending. rewrite E, Hf. eauto.
Qed.

(** One call of [next_entry] on a merge set of ordered readers. *)
Lemma next_entry_sorted_step cfg b ls evs path lines ls' :
  LogSet_inv cfg ls ->
  (forall k l, In (k, l) (_logs ls) -> sorted_from cfg b l) ->
  next_entry cfg ls = (evs, Ok (path, lines, ls')) ->
  exists t,
    entry_timestamp cfg lines = Ok (Some t) /\ dt_le b t /\
    forall k l, In (k, l) (_logs ls') -> sorted_from cfg t l.
Proof.
  intros Hok Hsorted H.
  destruct (next_entry_ok_step _ _ _ _ _ _ Hok H)
    as (pre & log & post & log' & Hl & Hpre & Hpost & He & Hra & Hl' & _ & Hok').
  destruct (entry_spec _ _ _ _ Hra He)
    as (f & conts & Elive & Hf & -> & Hc & Hcase).
  assert (Hin : In (path, log) (_logs ls)).
  { apply (in_live (_logs ls) path log). rewrite Hl.
    apply in_or_app; right; left; reflexivity. }
  destruct (Hsorted _ _ Hin) as [Hs Hb].
  assert (Hpend : pending cfg log = _timestamp log :: stamps cfg (unread_lines f))
    by (unfold pending; rewrite Elive, Hf; reflexivity).
  rewrite Hpend in Hs, Hb.
  exists (_timestamp log). split; [apply (Hra Elive)|].
  split; [inversion Hb; assumption|].
  intros k l Hkl. rewrite Hl' in Hkl.
  assert (Hother : forall k0 l0,
             In (k0, l0) (live (_logs ls)) ->
             dt_le (_timestamp log) (_timestamp l0) ->
             sorted_from cfg (_timestamp log) l0).
  { intros k0 l0 Hin0 Hle. apply in_live in Hin0. destruct Hin0 as [Hin0 E0].
    apply (sorted_from_raise cfg b); [apply (Hsorted _ _ Hin0)|].
    intros x Hx.
    destruct (pending_live cfg l0 (proj1 (proj2 Hok) _ _ Hin0) E0) as [r Hr].
    rewrite Hr in Hx. inversion Hx; subst. exact Hle. }
  apply in_app_or in Hkl. destruct Hkl as [Hkl|[Heq|Hkl]].
  - apply (Hother k l).
    + rewrite Hl. apply in_or_app; left; exact Hkl.
    + apply (Hpre k l Hkl).
  - inversion Heq; subst. clear Heq.
    destruct Hcase as [[_ ->]|(line & t & f' & Hu & _ & Hp & ->)].
    + split; constructor.
    + rewrite Hu, (stamps_split _ _ _ _ _ Hc Hp) in Hs.
      unfold sorted_from, pending. cbn [_eof _f _timestamp unread_lines].
      inversion Hs as [|? ? Hs' Hall]; subst. split; assumption.
  - apply (Hother k l).
    + rewrite Hl. apply in_or_app; right; right; exact Hkl.
    + apply dt_leb_total. apply (Hpost k l Hkl).
Qed.

Lemma next_entries_sorted cfg n : forall b ls,
  LogSet_inv cfg ls ->
  (forall k l, In (k, l) (_logs ls) -> sorted_from cfg b l) ->
  exists ts,
    Forall2 (fun e t => entry_timestamp cfg (snd e) = Ok (Some t))
            (next_entries cfg n ls) ts /\
    StronglySorted dt_le ts /\ Forall (dt_le b) ts.
Proof.
  induction n as [|n IH]; intros b ls Hok Hs.
  - exists []. repeat constructor.
  - cbn [next_entries].
    destruct (next_entry cfg ls) as [evs [[[path lines] ls']|e]] eqn:En.
    2:{ exists []. repeat constructor. }
    destruct (next_entry_sorted_step _ _ _ _ _ _ _ Hok Hs En)
      as (t & Ht & Hbt & Hs').
    destruct (next_entry_ok_step _ _ _ _ _ _ Hok En)
      as (? & ? & ? & ? & _ & _ & _ & _ & _ & _ & _ & Hok').
    destruct (IH t ls' Hok' Hs') as (ts & Hf2 & Hss & Hall).
    exists (t :: ts). split; [constructor; assumption|].
    split; [constructor; assumption|].
    constructor; [exact Hbt|].
    eapply Forall_impl; [|exact Hall].
    intros a Ha. eapply dt_leb_trans; eauto.
Qed.

Lemma Forall2_sorted_nth {A B : Type} (P : A -> B -> Prop) (R : B -> B -> Prop)
    (l : list A) (ts : list B) :
  Forall2 P l ts -> StronglySorted R ts ->
  forall i j e1 e2,
    i < j -> nth_error l i = Some e1 -> nth_error l j = Some e2 ->
    exists t1 t2, P e1 t1 /\ P e2 t2 /\ R t1 t2.
Proof.
  induction 1 as [|e t l ts Hp Hf IH]; intros Hs i j e1 e2 Hij H1 H2.
  - destruct i; discriminate.
  - inversion Hs as [|? ? Hs' Hall]; subst.
    destruct j as [|j]; [lia|].
    destruct i as [|i].
    + simpl in H1, H2. inversion H1; subst.
      assert (exists t2, P e2 t2 /\ In t2 ts) as (t2 & Hp2 & Hin).
      { clear - Hf H2. revert j H2.
        induction Hf as [|a b l ts Hab Hf IH]; intros j H2.
        - destruct j; discriminate.
        - destruct j as [|j]; simpl in H2.
          + inversion H2; subst. exists b. split; [exact Hab|left; reflexivity].
          + destruct (IH j H2) as (t2 & ? & ?). exists t2. split; [|right]; auto. }
      exists t, t2. repeat split; auto.
      rewrite Forall_forall in Hall. apply Hall; exact Hin.
    + simpl in H1, H2. apply (IH Hs' i j); auto. lia.
Qed.

(** C4: when the timestamped lines of every source come in
    non-decreasing order of timestamp, the entries that successive calls
    of [next_entry] return are ordered: of two of them, the one returned
    first has a timestamp at most that of the other. *)
Theorem merged_entries_ordered (cfg : config) (fs : filesystem)
    (pathnames : list string) (evs : list event) (ls : LogSet)
    (n i j : nat) (e1 e2 : string * list string) :
  (forall path text,
     In path pathnames -> fs path = Some text ->
     StronglySorted dt_le (stamps cfg (readlines text))) ->
  LogSet_init cfg fs pathnames = (evs, Ok ls) ->
  i < j ->
  nth_error (next_entries cfg n ls) i = Some e1 ->
  nth_error (next_entries cfg n ls) j = Some e2 ->
  exists t1 t2,
    entry_timestamp cfg (snd e1) = Ok (Some t1) /\
    entry_timestamp cfg (snd e2) = Ok (Some t2) /\
    dt_le t1 t2.
Proof.
  intros Hsrc Hinit Hij H1 H2.
  pose proof (LogSet_init_inv _ _ _ _ _ Hinit) as Hok.
  assert (Hs : forall k l, In (k, l) (_logs ls) -> sorted_from cfg datetime_min l).
  { apply (LogSet_init_loop_all cfg fs (sorted_from cfg datetime_min)
             pathnames [] evs ls); auto.
    - intros path es log Hin Hi.
      eapply Logfile_init_sorted; [|exact Hi].
      intros text Hfs. apply (Hsrc path text Hin Hfs).
    - constructor.
    - intros ? ? []. }
  destruct (next_entries_sorted cfg n datetime_min ls Hok Hs)
    as (ts & Hf2 & Hss & _).
  apply (Forall2_sorted_nth _ _ _ _ Hf2 Hss i j e1 e2 Hij H1 H2).
Qed.

(** ** Termination of the run *)

Lemma LogSet_fuel_app (a b : dict Logfile) :
  LogSet_fuel (a ++ b) = LogSet_fuel a + LogSet_fuel b.
Proof. unfold LogSet_fuel. rewrite map_app, list_sum_app. reflexivity. Qed.

Lemma LogSet_fuel_live (logs : dict Logfile) :
  LogSet_fuel (live logs) = LogSet_fuel logs.
Proof.
  induction logs as [|[k l] logs IH]; [reflexivity|].
  rewrite live_cons. unfold LogSet_fuel in *. simpl.
  destruct (_eof l) eqn:E; simpl; rewrite IH; [|reflexivity].
  unfold reader_fuel. rewrite E. reflexivity.
Qed.

Lemma print_entry_ok lines prefix_arg color :
  Forall (fun line => line <> "") lines ->
  exists evs, print_entry lines prefix_arg color = (evs, Ok tt).
Proof.
  induction 1 as [|line lines Hl _ [evs IH]]; simpl; [eauto|].
  destruct (render_nonempty line (Some prefix_arg) color Hl) as [text ->].
  rewrite IH. eauto.
Qed.

Lemma entry_reads_safely cfg log lines log' :
  read_ahead cfg log -> reads_safely cfg log ->
  entry cfg log = Ok (lines, log') ->
  reads_safely cfg log' /\ reader_fuel log' < reader_fuel log.
Proof.
  intros Hra Hsafe He.
  destruct (entry_spec _ _ _ _ Hra He)
    as (f & conts & Elive & Hf & -> & Hc & Hcase).
  unfold reader_fuel at 2. rewrite Elive, Hf.
  destruct Hcase as [[_ ->]|(line & t & f' & Hu & _ & _ & ->)].
  - split; [|unfold reader_fuel; simpl; lia].
    intros f0 Hf0 line Hin. inversion Hf0; subst. destruct Hin.
  - split.
    + intros f0 Hf0 l0 Hin. inversion Hf0; subst. cbn [unread_lines] in Hin.
      apply (Hsafe _ Hf). rewrite Hu.
      apply in_or_app; right; right; exact Hin.
    + unfold reader_fuel; simpl. rewrite Hu, length_app. simpl. lia.
Qed.

Lemma main_loop_terminates cfg prefixes colors default_color fuel :
  forall ls,
    LogSet_inv cfg ls ->
    (forall k l, In (k, l) (_logs ls) -> reads_safely cfg l) ->
    LogSet_fuel (_logs ls) < fuel ->
    exists evs, main_loop fuel cfg ls prefixes colors default_color = (evs, Exit 0).
Proof.
  induction fuel as [|fuel IH]; intros ls Hok Hsafe Hfuel; [lia|].
  cbn [main_loop].
  destruct (next_entry_spec cfg ls Hok)
    as (r & Hn & Hcase).
  destruct Hcase as [[_ ->]|(pre & k & log & post & Hl & _ & _ & Hr)].
  { rewrite Hn. eauto. }
  assert (Hin : In (k, log) (_logs ls)).
  { apply (in_live (_logs ls) k log). rewrite Hl.
    apply in_or_app; right; left; reflexivity. }
  assert (Elive : _eof log = false).
  { apply (in_live (_logs ls) k log). rewrite Hl.
    apply in_or_app; right; left; reflexivity. }
  pose proof (proj1 (proj2 Hok) _ _ Hin) as Hra.
  destruct (Hra Elive) as ((f & Hf & _) & _).
  assert (Ha : exists lines log', _advance cfg log = Ok (lines, log')).
  { unfold _advance. rewrite Hf. apply advance_loop_total.
    apply (Hsafe _ _ Hin _ Hf). }
  destruct Ha as (lines & log' & Ha). rewrite Ha in Hr. subst r.
  rewrite Hn.
  destruct (next_entry_ok_step _ _ _ _ _ _ Hok Hn)
    as (pre' & log0 & post' & log0' & Hl0 & _ & _ & He0 & Hra0 & Hl0' & _ & Hok').
  destruct (entry_spec _ _ _ _ Hra0 He0)
    as (f0 & conts & Elive0 & _ & Hlines & Hc & _).
  assert (Hne : Forall (fun line => line <> "") lines).
  { rewrite Hlines. constructor; [apply (Hra0 Elive0)|].
    eapply Forall_impl; [|exact Hc]. intros a [Hx _]; exact Hx. }
  destruct (print_entry_ok lines (dd_get prefixes "" k)
              (dd_get colors default_color k) Hne) as [pevs ->].
  assert (Hin0 : In (k, log0) (_logs ls)).
  { apply (in_live (_logs ls) k log0). rewrite Hl0.
    apply in_or_app; right; left; reflexivity. }
  destruct (entry_reads_safely _ _ _ _ Hra0 (Hsafe _ _ Hin0) He0)
    as [Hsafe0 Hlt].
  destruct (IH (mkLogSet (pre ++ (k, log') :: post))) as [evs' He'].
  - exact Hok'.
  - cbn [_logs] in *. rewrite Hl0'. intros k1 l1 Hin1.
    apply in_app_or in Hin1. destruct Hin1 as [Hin1|[Heq|Hin1]].
    + apply (Hsafe k1 l1). apply (in_live (_logs ls) k1 l1). rewrite Hl0.
      apply in_or_app; left; exact Hin1.
    + inversion Heq; subst. exact Hsafe0.
    + apply (Hsafe k1 l1). apply (in_live (_logs ls) k1 l1). rewrite Hl0.
      apply in_or_app; right; right; exact Hin1.
  - cbn [_logs] in *. rewrite Hl0'.
    rewrite <- (LogSet_fuel_live (_logs ls)), Hl0 in Hfuel.
    rewrite LogSet_fuel_app in *. unfold LogSet_fuel in *. simpl in *. lia.
  - rewrite He'. eauto.
Qed.

Lemma Logfile_init_total cfg fs path text :
  fs path = Some text ->
  (forall line, In line (readlines text) -> exists r, parse_datetime cfg line = Ok r) ->
  exists log,
    Logfile_init cfg fs path = ([EvOpen path], Ok log) /\ reads_safely cfg log.
Proof.
  intros Hfs Hp.
  assert (Hi : exists log, Logfile_init cfg fs path = ([EvOpen path], Ok log)).
  { unfold Logfile_init, open_, _advance. rewrite Hfs.
    cbn [_f _line name unread_lines].
    match goal with
    | |- context [advance_loop ?a ?n ?b ?c ?d] =>
        destruct (advance_loop_total a n b c d Hp) as (out & log & ->)
    end.
    exists log. reflexivity. }
  destruct Hi as [log Hi].
  exists log. split; [exact Hi|].
  destruct (Logfile_init_spec _ _ _ _ _ Hi)
    as (text' & conts & Hfs' & _ & _ & Hcase).
  rewrite Hfs in Hfs'. inversion Hfs'; subst text'.
  destruct Hcase as [[_ ->]|(line & t & f' & Hr & _ & _ & ->)].
  - intros f0 Hf0 l0 Hin. inversion Hf0; subst. destruct Hin.
  - intros f0 Hf0 l0 Hin. inversion Hf0; subst. cbn [unread_lines] in Hin.
    apply Hp. rewrite Hr. apply in_or_app; right; right; exact Hin.
Qed.

Lemma LogSet_init_loop_total cfg fs pathnames : forall logs,
  (forall path, In path pathnames ->
     exists text, fs path = Some text /\
       forall line, In line (readlines text) ->
                    exists r, parse_datetime cfg line = Ok r) ->
  exists evs ls, LogSet_init_loop cfg fs pathnames logs = (evs, Ok ls).
Proof.
  induction pathnames as [|path rest IH]; intros logs Hfiles.
  - simpl. eauto.
  - cbn [LogSet_init_loop].
    destruct (Hfiles path (or_introl eq_refl)) as (text & Hfs & Hp).
    destruct (Logfile_init_total cfg fs path text Hfs Hp) as (log & -> & _).
    destruct (IH (dict_set logs path log)) as (evs & ls & ->).
    + intros p Hin. apply Hfiles. right; exact Hin.
    + eauto.
Qed.

(** ** main *)

(** [main] past its checks of the arguments. *)
Lemma main_run fuel isatty fs args cfg :
  2 <= List.length (logfiles args) ->
  truthy (format args) = truthy (regex args) ->
  configure args = Ok cfg ->
  main fuel isatty fs args
  = match LogSet_init cfg fs (logfiles args) with
    | (evs, Raise e) => (evs, Uncaught e)
    | (evs, Ok merger) =>
        let '(evs', o) :=
          main_loop fuel cfg merger (prefixes_of isatty args)
                    (colors_of isatty args)
                    (if colorize_of isatty args then 15%Z else (-1)%Z) in
        (evs ++ evs', o)
    end.
Proof.
  intros Hlen Htruthy Hcfg. unfold main.
  replace (List.length (logfiles args) <? 2)%nat with false
    by (symmetry; apply Nat.ltb_ge; exact Hlen).
  rewrite Htruthy, Bool.eqb_reflx, Hcfg. cbn [negb].
  unfold prefixes_of, colors_of, no_prefix_of, colorize_of.
  destruct (assign args (if isatty then colorize args else false)
              (no_prefix args
               || (if isatty then colorize args else false)
                  && (limit_of (prefix args) =? 0)%nat)
              (limit_of (prefix args)) (logfiles args) 1 [] [])
    as [prefixes colors].
  reflexivity.
Qed.

Lemma configure_regex args args' :
  regex args' = regex args ->
  forall e, configure args = Raise e <-> configure args' = Raise e.
Proof.
  intros Hr e. unfold configure. rewrite Hr.
  destruct (regex args) as [[|c r]|]; try tauto.
  destruct (unicode_escape (String c r)) as [s|e0]; simpl; [|tauto].
  destruct (re_compile s) as [p|e1]; simpl; [|tauto].
  split; discriminate.
Qed.

(** Once a stream is open for the first log, the trace of the
    construction of the merge set starts with its opening. *)
Lemma LogSet_init_first_open cfg fs path rest text :
  fs path = Some text ->
  exists evs r,
    LogSet_init cfg fs (path :: rest) = (EvOpen path :: evs, r).
Proof.
  intros Hfs. unfold LogSet_init. cbn [LogSet_init_loop].
  unfold Logfile_init, open_. rewrite Hfs.
  match goal with
  | |- context [bind ?m ?k] => destruct (bind m k) as [log|e]
  end.
  - destruct (LogSet_init_loop cfg fs rest (dict_set [] path log)) as [evs r].
    simpl. eauto.
  - eauto.
Qed.

(** C2 (as the code has it): a malformed custom pattern, one that the
    [unicode_escape] decoding or [re.compile] rejects, makes the program
    stop at startup, with the usage error or with the exception of the
    compilation, before any log stream is opened.  The format string is
    not examined at startup: whether setting up the custom rule raises
    depends on the pattern alone, and once the arguments have passed the
    checks and the rule is set up, the first log, if it can be opened, is
    opened, whatever the format is.  The format is first used by [strptime] in
    [parse_datetime], on a line that the custom pattern matches: there a
    malformed format raises, as does a pattern that compiles but has no
    group 1; on a line that the custom pattern does not match, detection
    goes by the built-in patterns and the format plays no part. *)
Theorem startup_checks_pattern_only (isatty : bool) (fs : filesystem)
    (args : Namespace) :
  (forall pattern e,
     regex args = Some pattern -> pattern <> "" ->
     (s <- unicode_escape pattern ;; re_compile s) = Raise e ->
     forall fuel, exists evs o,
       main fuel isatty fs args = (evs, o) /\
       (o = Exit 1 \/ o = Uncaught e) /\
       forall path, ~ In (EvOpen path) evs) /\
  (forall args',
     regex args' = regex args ->
     forall e, configure args = Raise e <-> configure args' = Raise e) /\
  (forall cfg path rest text,
     2 <= List.length (logfiles args) ->
     truthy (format args) = truthy (regex args) ->
     configure args = Ok cfg ->
     logfiles args = path :: rest -> fs path = Some text ->
     forall fuel, exists evs o,
       main fuel isatty fs args = (EvOpen path :: evs, o)) /\
  (forall cfg pattern line,
     configure args = Ok cfg -> custom_pattern cfg = Some pattern ->
     custom_format cfg = format args /\
     (pattern line = None -> parse_datetime cfg line = parse_builtin line) /\
     (forall m,
        pattern line = Some m ->
        (forall e, Re.group m 1 = Raise e -> parse_datetime cfg line = Raise e) /\
        (forall text fmt e,
           Re.group m 1 = Ok (Some text) -> format args = Some fmt ->
           strptime text fmt = Raise e ->
           parse_datetime cfg line = Raise e))).
Proof.
  split; [|split; [intros args' Hr; apply configure_regex; exact Hr|split]].
  - intros pattern e Hr Hne Hc fuel.
    assert (Hcfg : configure args = Raise e).
    { unfold configure. rewrite Hr.
      destruct pattern as [|c r]; [contradiction|].
      destruct (unicode_escape (String c r)) as [s|e0]; simpl in *.
      - destruct (re_compile s) as [p|e1]; simpl in *; [discriminate|].
        inversion Hc; reflexivity.
      - inversion Hc; reflexivity. }
    unfold main.
    destruct (List.length (logfiles args) <? 2)%nat.
    { eexists _, _. split; [reflexivity|]. split; [left; reflexivity|].
      intros path [H|[]]; discriminate. }
    destruct (negb (Bool.eqb (truthy (format args)) (truthy (regex args)))).
    { eexists _, _. split; [reflexivity|]. split; [left; reflexivity|].
      intros path [H|[]]; discriminate. }
    rewrite Hcfg.
    eexists _, _. split; [reflexivity|]. split; [right; reflexivity|].
    intros path [].
  - intros cfg path rest text Hlen Htruthy Hcfg Hlogs Hfs fuel.
    rewrite (main_run fuel isatty fs args cfg Hlen Htruthy Hcfg), Hlogs.
    destruct (LogSet_init_first_open cfg fs path rest text Hfs)
      as (evs & r & ->).
    destruct r as [merger|e]; [|eauto].
    destruct (main_loop fuel cfg merger (prefixes_of isatty args)
                (colors_of isatty args)
                (if colorize_of isatty args then 15%Z else (-1)%Z))
      as [evs' o].
    simpl. eauto.
  - intros cfg pattern line Hcfg Hp.
    assert (Hfmt : custom_format cfg = format args).
    { unfold configure in Hcfg.
      destruct (regex args) as [[|c r]|].
      - inversion Hcfg; subst. discriminate.
      - destruct (unicode_escape (String c r)) as [s|e0]; simpl in Hcfg;
          [|discriminate].
        destruct (re_compile s) as [p|e1]; simpl in Hcfg; [|discriminate].
        inversion Hcfg; subst. reflexivity.
      - inversion Hcfg; subst. discriminate. }
    split; [exact Hfmt|]. split.
    + intros Hm. unfold parse_datetime. rewrite Hp, Hm. reflexivity.
    + intros m Hm. split.
      * intros e Hg. unfold parse_datetime. rewrite Hp, Hm, Hg. reflexivity.
      * intros text fmt e Hg Hf Hs.
        unfold parse_datetime. rewrite Hp, Hm, Hg, Hfmt, Hf. simpl.
        rewrite Hs. reflexivity.
Qed.

(** C6 (as the code has it): with fewer than two log files, and when
    exactly one of [--regex] and [--format] has a non-empty value (an
    option given the empty string counts as absent), the program prints a
    usage message and exits with code 1 without opening a log stream.
    When the arguments pass these checks, the custom rule is set up,
    every log file can be opened and detection raises on none of their
    lines, the run comes to its end and exits with code 0. *)
Theorem main_exit_codes (isatty : bool) (fs : filesystem) (args : Namespace) :
  (List.length (logfiles args) < 2 ->
   forall fuel,
     main fuel isatty fs args
     = ([EvPrint ("Requires at least two logfiles" ++ String LF "")%string],
        Exit 1)) /\
  (truthy (regex args) <> truthy (format args) ->
   forall fuel, exists text,
     main fuel isatty fs args = ([EvPrint text], Exit 1)) /\
  (forall cfg,
     2 <= List.length (logfiles args) ->
     truthy (regex args) = truthy (format args) ->
     configure args = Ok cfg ->
     (forall path, In path (logfiles args) ->
        exists text, fs path = Some text /\
          forall line, In line (readlines text) ->
                       exists r, parse_datetime cfg line = Ok r) ->
     exists fuel0, forall fuel, fuel0 <= fuel ->
       exists evs, main fuel isatty fs args = (evs, Exit 0)).
Proof.
  split; [|split].
  - intros Hlen fuel. unfold main.
    replace (List.length (logfiles args) <? 2)%nat with true
      by (symmetry; apply Nat.ltb_lt; exact Hlen).
    reflexivity.
  - intros Hne fuel. unfold main.
    destruct (List.length (logfiles args) <? 2)%nat; [eauto|].
    replace (Bool.eqb (truthy (format args)) (truthy (regex args))) with false.
    + simpl. eauto.
    + symmetry. apply Bool.eqb_false_iff. congruence.
  - intros cfg Hlen Htruthy Hcfg Hfiles.
    destruct (LogSet_init_loop_total cfg fs (logfiles args) [] Hfiles)
      as (evs0 & ls & Hinit).
    fold (LogSet_init cfg fs (logfiles args)) in Hinit.
    exists (S (LogSet_fuel (_logs ls))). intros fuel Hfuel.
    rewrite (main_run fuel isatty fs args cfg Hlen (eq_sym Htruthy) Hcfg), Hinit.
    destruct (main_loop_terminates cfg (prefixes_of isatty args)
                (colors_of isatty args)
                (if colorize_of isatty args then 15%Z else (-1)%Z) fuel ls)
      as [evs' ->].
    + eapply LogSet_init_inv; exact Hinit.
    + apply (LogSet_init_loop_all cfg fs (reads_safely cfg)
               (logfiles args) [] evs0 ls); auto.
      * intros path es log Hin Hi.
        destruct (Hfiles path Hin) as (text & Hfs & Hp).
        destruct (Logfile_init_total cfg fs path text Hfs Hp) as (log0 & Hi0 & Hs).
        rewrite Hi in Hi0. inversion Hi0; subst. exact Hs.
      * constructor.
      * intros ? ? [].
    + lia.
    + eauto.
Qed.

(** ** Prefixes *)

Lemma dict_get_set_same {V : Type} (d : dict V) k v :
  dict_get (dict_set d k v) k = Some v.
Proof.
  induction d as [|[k0 v0] d IH]; simpl.
  - rewrite String.eqb_refl. reflexivity.
  - destruct (String.eqb_spec k0 k) as [->|Hne]; simpl.
    + rewrite String.eqb_refl. reflexivity.
    + destruct (String.eqb_spec k0 k); [contradiction|exact IH].
Qed.

Lemma dict_get_set_other {V : Type} (d : dict V) k v k' :
  k <> k' -> dict_get (dict_set d k v) k' = dict_get d k'.
Proof.
  intros Hne. induction d as [|[k0 v0] d IH]; simpl.
  - destruct (String.eqb_spec k k'); [contradiction|reflexivity].
  - destruct (String.eqb_spec k0 k) as [->|Hne0]; simpl.
    + destruct (String.eqb_spec k k'); [contradiction|reflexivity].
    + destruct (String.eqb_spec k0 k'); [reflexivity|exact IH].
Qed.

Lemma assign_other args c np limit paths : forall index prefixes colors path,
  ~ In path paths ->
  dict_get (fst (assign args c np limit paths index prefixes colors)) path
  = dict_get prefixes path.
Proof.
  induction paths as [|p rest IH]; intros index prefixes colors path Hn;
    [reflexivity|].
  cbn [assign]. rewrite IH by (intros H; apply Hn; right; exact H).
  destruct (negb np); [|reflexivity].
  apply dict_get_set_other. intros E; apply Hn; left; exact E.
Qed.

Lemma string_app_assoc (a b c : string) :
  ((a ++ b) ++ c)%string = (a ++ (b ++ c))%string.
Proof. induction a as [|x a IH]; simpl; [|rewrite IH]; reflexivity. Qed.

(** With prefixes on, the loop leaves for a path the label of the last
    position at which the path stands. *)
Lemma assign_get args c limit paths : forall index prefixes colors i path,
  nth_error paths i = Some path ->
  ~ In path (skipn (S i) paths) ->
  dict_get (fst (assign args c false limit paths index prefixes colors)) path
  = Some (if (index + i <=? limit)%nat
          then (nth (index + i - 1)
                    (match prefix args with Some l => l | None => [] end) ""
                ++ " ")%string
          else ("log" ++ str_of_nat (index + i) ++ " ")%string).
Proof.
  induction paths as [|p rest IH]; intros index prefixes colors i path Hnth Hlast.
  - destruct i; discriminate.
  - cbn [assign negb]. destruct i as [|i].
    + simpl in Hnth. inversion Hnth; subst p. simpl in Hlast.
      rewrite assign_other by exact Hlast.
      rewrite dict_get_set_same, Nat.add_0_r. reflexivity.
    + simpl in Hnth. rewrite (IH _ _ _ i path Hnth Hlast).
      replace (index + 1 + i) with (index + S i) by lia. reflexivity.
Qed.

(** C5 (as the code has it): unless [--no-prefix] is given, or
    colorizing is in effect (asked for, on a terminal) while no
    [--prefix] label was given, the lines of a log file are rendered
    with a prefix set by the position of the file in input order (the
    last one, for a path given more than once): the label supplied for
    that position followed by a space, or, past the supplied labels,
    the generated ['logN '] with N the 1-indexed position.  [render] puts
    the prefix in front of the line, after the colour code if any. *)
Theorem prefix_by_position (isatty : bool) (args : Namespace)
    (i : nat) (path : string) :
  no_prefix_of isatty args = false ->
  nth_error (logfiles args) i = Some path ->
  ~ In path (skipn (S i) (logfiles args)) ->
  (limit_of (prefix args) <= i ->
   dd_get (prefixes_of isatty args) "" path
   = ("log" ++ str_of_nat (S i) ++ " ")%string) /\
  (forall labels,
     i < limit_of (prefix args) -> prefix args = Some labels ->
     dd_get (prefixes_of isatty args) "" path = (nth i labels "" ++ " ")%string) /\
  (forall line color,
     line <> "" ->
     exists pre body,
       render line (Some (dd_get (prefixes_of isatty args) "" path)) color
       = Ok (pre ++ dd_get (prefixes_of isatty args) "" path ++ body)%string /\
       (color = (-1)%Z -> pre = "" /\ body = line)).
Proof.
  intros Hnp Hnth Hlast.
  assert (Hget := assign_get args (colorize_of isatty args)
                    (limit_of (prefix args)) (logfiles args) 1 [] [] i path
                    Hnth Hlast).
  unfold prefixes_of. rewrite Hnp. unfold dd_get at 1 2. rewrite Hget.
  replace (1 + i) with (S i) by reflexivity.
  replace (S i - 1) with i by lia.
  split; [|split].
  - intros Hle.
    replace (S i <=? limit_of (prefix args))%nat with false
      by (symmetry; apply Nat.leb_gt; lia).
    reflexivity.
  - intros labels Hlt Hp.
    replace (S i <=? limit_of (prefix args))%nat with true
      by (symmetry; apply Nat.leb_le; lia).
    rewrite Hp. reflexivity.
  - intros line color Hline.
    set (p := dd_get _ "" path). unfold render.
    destruct ((-1 <? color)%Z && (color <? 256)%Z) eqn:Ec.
    + destruct (last_char_some line Hline) as [c ->].
      eexists (color_on color), _. split.
      * rewrite string_app_assoc. reflexivity.
      * intros ->. discriminate.
    + exists "", line. split; [reflexivity|]. auto.
Qed.

(** ** The streams of a whole run *)

Lemma LogSet_init_loop_closes cfg fs pathnames : forall logs,
  closes (fst (LogSet_init_loop cfg fs pathnames logs)) = [].
Proof.
  induction pathnames as [|path rest IH]; intros logs; [reflexivity|].
  cbn [LogSet_init_loop]. unfold Logfile_init.
  destruct (open_ fs path) as [f|e]; [|reflexivity].
  match goal with
  | |- context [bind ?m ?k] => destruct (bind m k) as [log|e]
  end; [|reflexivity].
  specialize (IH (dict_set logs path log)).
  destruct (LogSet_init_loop cfg fs rest (dict_set logs path log)) as [evs r].
  simpl in *. exact IH.
Qed.

(** When the paths given are distinct and the run exits with code 0, the
    streams closed are those of the log files given, each once. *)
Lemma main_closes_each_log fuel isatty fs args evs :
  NoDup (logfiles args) ->
  main fuel isatty fs args = (evs, Exit 0) ->
  NoDup (closes evs) /\
  forall path, In path (logfiles args) <-> In path (closes evs).
Proof.
  intros Hnd H.
  destruct (Nat.ltb_spec (List.length (logfiles args)) 2) as [Hlt|Hge].
  { unfold main in H.
    replace (List.length (logfiles args) <? 2)%nat with true in H
      by (symmetry; apply Nat.ltb_lt; exact Hlt).
    discriminate. }
  destruct (Bool.eqb (truthy (format args)) (truthy (regex args))) eqn:Et.
  2:{ unfold main in H.
      replace (List.length (logfiles args) <? 2)%nat with false in H
        by (symmetry; apply Nat.ltb_ge; exact Hge).
      rewrite Et in H. discriminate. }
  apply Bool.eqb_prop in Et.
  destruct (configure args) as [cfg|e] eqn:Ec.
  2:{ unfold main in H.
      replace (List.length (logfiles args) <? 2)%nat with false in H
        by (symmetry; apply Nat.ltb_ge; exact Hge).
      rewrite Et, Bool.eqb_reflx, Ec in H. discriminate. }
  rewrite (main_run fuel isatty fs args cfg Hge Et Ec) in H.
  pose proof (LogSet_init_loop_closes cfg fs (logfiles args) []) as Hopen.
  fold (LogSet_init cfg fs (logfiles args)) in Hopen.
  destruct (LogSet_init cfg fs (logfiles args)) as [evs0 [ls|e]] eqn:Ei;
    [|discriminate].
  destruct (main_loop fuel cfg ls (prefixes_of isatty args) (colors_of isatty args)
              (if colorize_of isatty args then 15%Z else (-1)%Z))
    as [evs' o] eqn:Em.
  inversion H; subst. clear H.
  destruct (main_loop_closes _ _ _ _ _ _ _ _ (LogSet_init_inv _ _ _ _ _ Ei) Em)
    as (Hnd' & Hinc & Hall).
  rewrite (LogSet_init_keys _ _ _ _ _ Hnd Ei) in *.
  simpl in Hopen. rewrite closes_app, Hopen. cbn [app].
  split; [exact Hnd'|].
  intros path. split; intros Hin.
  - apply (Hall eq_refl). exact Hin.
  - apply Hinc. exact Hin.
Qed.

(** ** Further properties: readers *)

(** X1: a reader that is read to its end hands out every line exactly
    once and in order: when detection raises on none of its unread lines,
    the entries of enough extraction calls, put end to end, are the
    buffered line followed by the unread lines of the stream. *)
Theorem entries_complete (cfg : config) (n : nat) (self : Logfile) (f : stream) :
  read_ahead cfg self -> reads_safely cfg self ->
  _eof self = false -> _f self = Some f ->
  reader_fuel self <= n ->
  List.concat (entries cfg n self) = _line self :: unread_lines f.
Proof.
  revert self f. induction n as [|n IH]; intros self f Hra Hsafe Elive Hf Hn.
  - unfold reader_fuel in Hn. rewrite Elive, Hf in Hn. lia.
  - cbn [entries].
    destruct (advance_loop_total cfg (name f) (unread_lines f) self [_line self]
                (Hsafe f Hf))
      as (lines & self' & Ha).
    assert (He : entry cfg self = Ok (lines, self'))
      by (unfold entry, _advance; rewrite Elive, Hf; exact Ha).
    rewrite He. cbn [List.concat].
    destruct (entry_reads_safely _ _ _ _ Hra Hsafe He) as [Hsafe' Hlt].
    pose proof (entry_read_ahead _ _ _ _ Hra He) as Hra'.
    destruct (entry_spec _ _ _ _ Hra He)
      as (f0 & conts & _ & Hf0 & -> & Hc & Hcase).
    rewrite Hf in Hf0; inversion Hf0; subst f0.
    destruct Hcase as [[-> ->]|(line & t & f' & Hu & _ & _ & ->)].
    + rewrite entries_exhausted by reflexivity. simpl. rewrite app_nil_r.
      reflexivity.
    + rewrite (IH (mkLogfile (Some (mkstream (name f) f')) false t line)
                 (mkstream (name f) f') Hra' Hsafe' eq_refl eq_refl) by lia.
      cbn [_line unread_lines]. rewrite Hu. simpl. reflexivity.
Qed.

(** An extraction takes at least one call's worth out of a reader. *)
Lemma entry_fuel cfg log lines log' :
  read_ahead cfg log -> entry cfg log = Ok (lines, log') ->
  reader_fuel log' < reader_fuel log.
Proof.
  intros Hra He.
  destruct (entry_spec _ _ _ _ Hra He)
    as (f & conts & Elive & Hf & -> & Hc & Hcase).
  unfold reader_fuel at 2. rewrite Elive, Hf.
  destruct Hcase as [[_ ->]|(line & t & f' & Hu & _ & _ & ->)].
  - unfold reader_fuel; simpl; lia.
  - unfold reader_fuel; simpl. rewrite Hu, length_app. simpl. lia.
Qed.

(** ** Further properties: the merge set *)

Lemma NoDup_keys_unique {V : Type} (d : dict V) k v v' :
  NoDup (keys d) -> In (k, v) d -> In (k, v') d -> v = v'.
Proof.
  induction d as [|[k0 v0] d IH]; simpl; intros Hnd H1 H2; [contradiction|].
  inversion Hnd as [|? ? Hn Hnd']; subst.
  assert (Hk : forall w, In (k0, w) d -> False).
  { intros w Hw. apply Hn. unfold keys. apply in_map_iff.
    exists (k0, w). split; [reflexivity|exact Hw]. }
  destruct H1 as [H1|H1], H2 as [H2|H2].
  - congruence.
  - inversion H1; subst. exfalso; eapply Hk; eauto.
  - inversion H2; subst. exfalso; eapply Hk; eauto.
  - eapply IH; eauto.
Qed.

Lemma in_keys {V : Type} (d : dict V) k v : In (k, v) d -> In k (keys d).
Proof.
  intros H. unfold keys. apply in_map_iff. exists (k, v). auto.
Qed.

Lemma live_exhausted_disjoint (logs : dict Logfile) k :
  NoDup (keys logs) ->
  In k (keys (exhausted logs)) -> In k (keys (live logs)) -> False.
Proof.
  intros Hnd H1 H2. apply partition_NoDup in Hnd.
  revert Hnd H1 H2. generalize (keys (exhausted logs)) (keys (live logs)).
  intros a b. induction a as [|x a IH]; simpl; intros Hnd H1 H2; [contradiction|].
  inversion Hnd as [|? ? Hn Hnd']; subst.
  destruct H1 as [->|H1]; [|eauto].
  apply Hn. apply in_or_app; right; exact H2.
Qed.

Lemma in_fuel_le (logs : dict Logfile) k l :
  In (k, l) logs -> reader_fuel l <= LogSet_fuel logs.
Proof.
  induction logs as [|[k0 l0] logs IH]; simpl; intros H; [contradiction|].
  unfold LogSet_fuel in *. simpl. destruct H as [H|H].
  - inversion H; subst. lia.
  - specialize (IH H). lia.
Qed.

(** A successful call takes fuel out of the merge set. *)
Lemma next_entry_fuel cfg ls evs path lines ls' :
  LogSet_ok cfg ls ->
  next_entry cfg ls = (evs, Ok (path, lines, ls')) ->
  LogSet_fuel (_logs ls') < LogSet_fuel (_logs ls).
Proof.
  intros Hok H.
  destruct (next_entry_ok_weak _ _ _ _ _ _ Hok H)
    as (pre & log & post & log' & Hl & _ & _ & He & Hra & Hl' & _).
  pose proof (entry_fuel _ _ _ _ Hra He) as Hlt.
  rewrite <- (LogSet_fuel_live (_logs ls)), Hl, Hl'.
  rewrite !LogSet_fuel_app. unfold LogSet_fuel. simpl. lia.
Qed.

Lemma next_entry_reads_safely cfg ls evs path lines ls' :
  LogSet_ok cfg ls ->
  (forall k l, In (k, l) (_logs ls) -> reads_safely cfg l) ->
  next_entry cfg ls = (evs, Ok (path, lines, ls')) ->
  forall k l, In (k, l) (_logs ls') -> reads_safely cfg l.
Proof.
  intros Hok Hsafe H.
  destruct (next_entry_ok_weak _ _ _ _ _ _ Hok H)
    as (pre & log & post & log' & Hl & _ & _ & He & Hra & Hl' & _).
  assert (Hsub : forall k l, In (k, l) (pre ++ (path, log) :: post) ->
                             reads_safely cfg l).
  { intros k l Hin. rewrite <- Hl in Hin. apply in_live in Hin.
    apply (Hsafe k l). tauto. }
  intros k l Hin. rewrite Hl' in Hin.
  apply in_app_or in Hin. destruct Hin as [Hin|[Heq|Hin]].
  - apply (Hsub k l). apply in_or_app; left; exact Hin.
  - inversion Heq; subst.
    apply (entry_reads_safely cfg log lines l Hra); [|exact He].
    apply (Hsub k log). apply in_or_app; right; left; reflexivity.
  - apply (Hsub k l). apply in_or_app; right; right; exact Hin.
Qed.

(** What one call of [next_entry] does, for a merge set in good order
    none of whose readers has been closed. *)
Lemma next_entry_not_closed cfg ls :
  LogSet_ok cfg ls ->
  (forall k l, In (k, l) (_logs ls) -> _f l <> None) ->
  exists evs r,
    next_entry cfg ls = (evs, r) /\
    ((live (_logs ls) = [] /\ r = Raise EOFError) \/
     (exists pre k log post,
        live (_logs ls) = pre ++ (k, log) :: post /\
        r = match _advance cfg log with
            | Raise e => Raise e
            | Ok (lines, log') => Ok (k, lines, mkLogSet (pre ++ (k, log') :: post))
            end)).
Proof.
  intros Hok Hst.
  destruct (delete_logs_total (_logs ls) [] (proj1 Hok)) as [evs Hd].
  { intros k l Hin. apply in_exhausted in Hin. apply (Hst k l). tauto. }
  cbn [app] in Hd.
  destruct (next_entry_after_delete cfg ls evs (proj1 Hok)
              (live_read_ahead_max cfg ls Hok) Hd) as (r & Hn & Hcase).
  exists evs, r. split; [exact Hn|].
  destruct Hcase as [Hnil|(pre & k & log & post & Hl & _ & _ & Hr)];
    [left; exact Hnil|right; eauto 6].
Qed.

(** After a call of [next_entry] that returned an entry, every reader of
    the merge set holds a stream. *)
Lemma next_entry_leaves_streams cfg ls evs path lines ls' :
  LogSet_ok cfg ls ->
  next_entry cfg ls = (evs, Ok (path, lines, ls')) ->
  forall k l, In (k, l) (_logs ls') -> _f l <> None.
Proof.
  intros Hok H.
  destruct (next_entry_ok_weak _ _ _ _ _ _ Hok H)
    as (pre & log & post & log' & Hl & _ & _ & He & Hra & Hl' & Hok').
  assert (Hlive : forall k l, In (k, l) (live (_logs ls)) -> _f l <> None).
  { intros k l Hin. apply in_live in Hin. destruct Hin as [Hin E].
    destruct (proj2 Hok k l Hin E) as ((f & -> & _) & _). discriminate. }
  intros k l Hin. rewrite Hl' in Hin.
  apply in_app_or in Hin. destruct Hin as [Hin|[Heq|Hin]].
  - apply (Hlive k l). rewrite Hl. apply in_or_app; left; exact Hin.
  - inversion Heq; subst.
    destruct (entry_spec _ _ _ _ Hra He)
      as (f & conts & _ & _ & _ & _ & [[_ ->]|(line & t & f' & _ & _ & _ & ->)]);
      discriminate.
  - apply (Hlive k l). rewrite Hl. apply in_or_app; right; right; exact Hin.
Qed.

(** While a reader is live, no reader has been closed and detection
    raises on no unread line, [next_entry] returns an entry. *)
Lemma next_entry_progress cfg ls :
  LogSet_ok cfg ls ->
  (forall k l, In (k, l) (_logs ls) -> _f l <> None) ->
  (forall k l, In (k, l) (_logs ls) -> reads_safely cfg l) ->
  live (_logs ls) <> [] ->
  exists evs path lines ls', next_entry cfg ls = (evs, Ok (path, lines, ls')).
Proof.
  intros Hok Hst Hsafe Hlive.
  destruct (next_entry_not_closed cfg ls Hok Hst)
    as (evs0 & r & Hn & Hcase).
  destruct Hcase as [[Hnil _]|(pre & k & log & post & Hl & Hr)];
    [contradiction|].
  assert (Hin : In (k, log) (live (_logs ls)))
    by (rewrite Hl; apply in_or_app; right; left; reflexivity).
  apply in_live in Hin. destruct Hin as [Hin Elive].
  destruct (proj2 Hok _ _ Hin Elive) as ((f & Hf & _) & _).
  destruct (advance_loop_total cfg (name f) (unread_lines f) log [_line log]
              (Hsafe _ _ Hin f Hf))
    as (lines & log' & Ha).
  unfold _advance in Hr. rewrite Hf, Ha in Hr. subst r. eauto.
Qed.

Lemma lines_of_not_key cfg path n : forall ls,
  LogSet_ok cfg ls -> ~ In path (keys (_logs ls)) ->
  lines_of path (next_entries cfg n ls) = [].
Proof.
  induction n as [|n IH]; intros ls Hok Hn; [reflexivity|].
  cbn [next_entries].
  destruct (next_entry cfg ls) as [evs [[[p lines] ls']|e]] eqn:En;
    [|reflexivity].
  destruct (next_entry_ok_weak _ _ _ _ _ _ Hok En)
    as (pre & log & post & log' & Hl & _ & _ & _ & _ & Hl' & Hok').
  assert (Hsub : forall k, In k (keys (pre ++ (p, log) :: post)) ->
                           In k (keys (_logs ls))).
  { intros k Hk. rewrite <- Hl in Hk. eapply keys_filter_incl; exact Hk. }
  unfold lines_of. cbn [flat_map fst snd].
  destruct (String.eqb_spec p path) as [->|_].
  - exfalso. apply Hn, Hsub. rewrite keys_app. apply in_or_app; right; left.
    reflexivity.
  - fold (lines_of path (next_entries cfg n ls')). apply IH; [exact Hok'|].
    intros Hk. apply Hn, Hsub. rewrite Hl' in Hk.
    rewrite keys_app in *. exact Hk.
Qed.

Lemma lines_of_source_prefix cfg n : forall ls path log,
  LogSet_ok cfg ls -> In (path, log) (_logs ls) ->
  (_eof log = true -> lines_of path (next_entries cfg n ls) = []) /\
  (_eof log = false ->
   exists f unread,
     _f log = Some f /\
     _line log :: unread_lines f
     = lines_of path (next_entries cfg n ls) ++ unread).
Proof.
  intros ls path. revert ls. induction n as [|n IH]; intros ls log Hok Hin.
  - split; [reflexivity|]. intros Elive.
    destruct (proj2 Hok _ _ Hin Elive) as ((f & Hf & _) & _).
    exists f, (_line log :: unread_lines f). auto.
  - cbn [next_entries].
    destruct (next_entry cfg ls) as [evs [[[p lines] ls']|e]] eqn:En.
    2:{ split; [reflexivity|]. intros Elive.
        destruct (proj2 Hok _ _ Hin Elive) as ((f & Hf & _) & _).
        exists f, (_line log :: unread_lines f). auto. }
    destruct (next_entry_ok_weak _ _ _ _ _ _ Hok En)
      as (pre & log0 & post & log0' & Hl & _ & _ & He & Hra & Hl' & Hok').
    assert (Hp : In (p, log0) (live (_logs ls)))
      by (rewrite Hl; apply in_or_app; right; left; reflexivity).
    assert (Hndl : NoDup (keys (live (_logs ls))))
      by (apply filter_NoDup_keys; apply Hok).
    unfold lines_of. cbn [flat_map fst snd].
    fold (lines_of path (next_entries cfg n ls')).
    split.
    + intros Eeof.
      assert (Hex : In path (keys (exhausted (_logs ls)))).
      { apply (in_keys _ path log). apply in_exhausted. auto. }
      destruct (String.eqb_spec p path) as [->|_].
      * exfalso. apply (live_exhausted_disjoint (_logs ls) path (proj1 Hok) Hex).
        eapply in_keys; exact Hp.
      * simpl. apply (lines_of_not_key cfg path n ls' Hok').
        intros Hk. apply (live_exhausted_disjoint (_logs ls) path (proj1 Hok) Hex).
        rewrite Hl' in Hk. rewrite Hl. rewrite keys_app in *. exact Hk.
    + intros Elive.
      assert (Hlv : In (path, log) (live (_logs ls))) by (apply in_live; auto).
      destruct (String.eqb_spec p path) as [->|Hne].
      * assert (log = log0) by (eapply NoDup_keys_unique; eauto). subst log0.
        destruct (entry_spec _ _ _ _ Hra He)
          as (f & conts & _ & Hf & -> & Hc & Hcase).
        assert (Hin' : In (path, log0') (_logs ls'))
          by (rewrite Hl'; apply in_or_app; right; left; reflexivity).
        destruct (IH ls' log0' Hok' Hin') as [IHe IHl].
        exists f. destruct Hcase as [[-> ->]|(line & t & f' & Hfu & _ & _ & ->)].
        -- exists []. rewrite (IHe eq_refl), !app_nil_r. auto.
        -- destruct (IHl eq_refl) as (f0 & unread & Hf0 & Hu).
           simpl in Hf0. inversion Hf0; subst f0.
           exists unread. split; [exact Hf|].
           simpl in Hu. rewrite Hfu, <- app_assoc, <- Hu. simpl. reflexivity.
      * rewrite Hl in Hlv.
        assert (Hin' : In (path, log) (_logs ls')).
        { rewrite Hl'. apply in_app_or in Hlv. apply in_or_app.
          destruct Hlv as [H|[H|H]]; [left; exact H| |right; right; exact H].
          inversion H; subst. contradiction. }
        simpl. apply (proj2 (IH ls' log Hok' Hin') Elive).
Qed.

(** X2: the merge keeps the lines of each source in their order and hands
    out none twice: for a reader of the merge set, the lines of the
    entries returned under its path, put end to end, are an initial part
    of its buffered line followed by its unread lines; a reader that is
    exhausted contributes nothing more. *)
Theorem next_entries_source_prefix (cfg : config) (n : nat) (ls : LogSet)
    (path : string) (log : Logfile) :
  LogSet_ok cfg ls -> In (path, log) (_logs ls) ->
  (_eof log = true -> lines_of path (next_entries cfg n ls) = []) /\
  (_eof log = false ->
   exists f unread,
     _f log = Some f /\
     _line log :: unread_lines f
     = lines_of path (next_entries cfg n ls) ++ unread).
Proof. apply lines_of_source_prefix. Qed.

Lemma lines_of_complete cfg path n : forall ls log f,
  LogSet_ok cfg ls ->
  (forall k l, In (k, l) (_logs ls) -> _f l <> None) ->
  (forall k l, In (k, l) (_logs ls) -> reads_safely cfg l) ->
  LogSet_fuel (_logs ls) <= n ->
  In (path, log) (_logs ls) -> _eof log = false -> _f log = Some f ->
  lines_of path (next_entries cfg n ls) = _line log :: unread_lines f.
Proof.
  induction n as [|n IH];
    intros ls log f Hok Hst Hsafe Hn Hin Elive Hf.
  - pose proof (in_fuel_le _ _ _ Hin) as Hle.
    unfold reader_fuel in Hle. rewrite Elive, Hf in Hle. lia.
  - assert (Hlv : In (path, log) (live (_logs ls))) by (apply in_live; auto).
    destruct (next_entry_progress cfg ls Hok Hst Hsafe)
      as (evs & p & lines & ls' & En).
    { intros E. rewrite E in Hlv. destruct Hlv. }
    cbn [next_entries]. rewrite En.
    pose proof (next_entry_fuel _ _ _ _ _ _ Hok En) as Hfuel.
    pose proof (next_entry_reads_safely _ _ _ _ _ _ Hok Hsafe En) as Hsafe'.
    pose proof (next_entry_leaves_streams _ _ _ _ _ _ Hok En) as Hst'.
    destruct (next_entry_ok_weak _ _ _ _ _ _ Hok En)
      as (pre & log0 & post & log0' & Hl & _ & _ & He & Hra & Hl' & Hok').
    assert (Hp : In (p, log0) (live (_logs ls)))
      by (rewrite Hl; apply in_or_app; right; left; reflexivity).
    assert (Hndl : NoDup (keys (live (_logs ls))))
      by (apply filter_NoDup_keys; apply Hok).
    unfold lines_of. cbn [flat_map fst snd].
    fold (lines_of path (next_entries cfg n ls')).
    destruct (String.eqb_spec p path) as [->|Hne].
    + assert (log = log0) by (eapply NoDup_keys_unique; eauto). subst log0.
      destruct (entry_spec _ _ _ _ Hra He)
        as (f0 & conts & _ & Hf0 & -> & Hc & Hcase).
      rewrite Hf in Hf0; inversion Hf0; subst f0.
      assert (Hin' : In (path, log0') (_logs ls'))
        by (rewrite Hl'; apply in_or_app; right; left; reflexivity).
      destruct Hcase as [[-> ->]|(line & t & f' & Hfu & _ & _ & ->)].
      * rewrite (proj1 (lines_of_source_prefix cfg n ls' path _ Hok' Hin')
                   eq_refl).
        rewrite app_nil_r. reflexivity.
      * rewrite (IH ls' _ (mkstream (name f) f') Hok' Hst' Hsafe' ltac:(lia) Hin'
                   eq_refl eq_refl).
        rewrite Hfu. reflexivity.
    + rewrite Hl in Hlv.
      assert (Hin' : In (path, log) (_logs ls')).
      { rewrite Hl'. apply in_app_or in Hlv. apply in_or_app.
        destruct Hlv as [H|[H|H]]; [left; exact H| |right; right; exact H].
        inversion H; subst. contradiction. }
      simpl. apply (IH ls' log f Hok' Hst' Hsafe' ltac:(lia) Hin' Elive Hf).
Qed.

(** X3: a merge that runs to its end loses no line: when no reader of the
    merge set has been closed and detection raises on no unread line of
    any reader, enough calls of [next_entry] return, under the path of
    every live reader, exactly its buffered line and its unread lines, in
    order. *)
Theorem next_entries_complete (cfg : config) (n : nat) (ls : LogSet)
    (path : string) (log : Logfile) (f : stream) :
  LogSet_ok cfg ls ->
  (forall k l, In (k, l) (_logs ls) -> _f l <> None) ->
  (forall k l, In (k, l) (_logs ls) -> reads_safely cfg l) ->
  LogSet_fuel (_logs ls) <= n ->
  In (path, log) (_logs ls) -> _eof log = false -> _f log = Some f ->
  lines_of path (next_entries cfg n ls) = _line log :: unread_lines f.
Proof. apply lines_of_complete. Qed.

Lemma delete_logs_not_eof to_delete : forall logs evs,
  delete_logs logs to_delete <> (evs, Raise EOFError).
Proof.
  induction to_delete as [|k rest IH]; intros logs evs; [discriminate|].
  cbn [delete_logs]. destruct (dict_get logs k) as [log|]; [|discriminate].
  unfold close. destruct (_f log) as [f|]; [|discriminate].
  match goal with
  | |- context [delete_logs ?a rest] =>
      specialize (IH a); destruct (delete_logs a rest) as [evs' r]
  end.
  intros H. inversion H; subst. apply (IH evs'). reflexivity.
Qed.

(** [next_entry] raises [EOFError] only when no live reader is left. *)
Lemma next_entry_EOFError_live cfg ls :
  LogSet_ok cfg ls ->
  snd (next_entry cfg ls) = Raise EOFError -> live (_logs ls) = [].
Proof.
  intros Hok H. pose proof (live_read_ahead_max cfg ls Hok) as Hmax.
  destruct Hok as [Hnd Hra].
  destruct ls as [logs]. cbn [_logs] in *.
  unfold next_entry in H. cbn [_logs] in H.
  destruct (List.length logs =? 0)%nat eqn:Elen0.
  { destruct logs; [reflexivity|discriminate]. }
  destruct (scan_spec logs "" datetime_max []) as (lp & lt & Hs & Hc).
  rewrite Hs in H. cbn [app] in H.
  pose proof (delete_logs_not_eof (keys (exhausted logs)) logs) as Hne.
  destruct (delete_logs logs (keys (exhausted logs))) as [evs1 [logs1|e]] eqn:Ed.
  2:{ exfalso. cbn [snd] in H. inversion H; subst.
      apply (Hne evs1). reflexivity. }
  pose proof (delete_logs_ok logs [] evs1 logs1 Hnd Ed) as Hlogs1.
  cbn [app] in Hlogs1. subst logs1.
  destruct (List.length (live logs) =? 0)%nat eqn:Elen.
  { apply live_nil_length. exact Elen. }
  exfalso.
  destruct Hc as [(_ & _ & Hall)|(pre & log & post & Hl & -> & _ & _ & _)].
  { destruct (live logs) as [|[k l] rest] eqn:El; [discriminate|].
    specialize (Hall k l (or_introl eq_refl)).
    specialize (Hmax k l (or_introl eq_refl)). congruence. }
  assert (Hndl : NoDup (keys (live logs))) by (apply filter_NoDup_keys; exact Hnd).
  assert (Hk : ~ In lp (keys pre)).
  { rewrite Hl, keys_app in Hndl. simpl in Hndl.
    apply NoDup_remove_2 in Hndl. intros Hp. apply Hndl.
    apply in_or_app; left; exact Hp. }
  assert (Elive : _eof log = false).
  { apply (in_live logs lp log). rewrite Hl. apply in_or_app; right; left.
    reflexivity. }
  rewrite Hl, (dict_get_app_notin pre post lp log Hk) in H.
  unfold entry in H. rewrite Elive in H.
  pose proof (_advance_not_eof cfg log) as N.
  destruct (_advance cfg log) as [[? ?]|e]; [discriminate|].
  apply N. cbn [snd] in H. inversion H; reflexivity.
Qed.

(** X4: [next_entry] raises [EOFError], the signal of the end of the
    merge, only when no live reader is left; and in a merge set of which
    no reader has been closed, it does so exactly then. *)
Theorem next_entry_EOFError_iff (cfg : config) (ls : LogSet) :
  LogSet_ok cfg ls ->
  (snd (next_entry cfg ls) = Raise EOFError -> live (_logs ls) = []) /\
  ((forall k l, In (k, l) (_logs ls) -> _f l <> None) ->
   (snd (next_entry cfg ls) = Raise EOFError <-> live (_logs ls) = [])).
Proof.
  intros Hok. split; [apply next_entry_EOFError_live; exact Hok|].
  intros Hst. split; [apply next_entry_EOFError_live; exact Hok|].
  destruct (next_entry_not_closed cfg ls Hok Hst)
    as (evs & r & Hn & Hcase).
  rewrite Hn. cbn [snd].
  destruct Hcase as [[Hnil ->]|(pre & k & log & post & Hl & ->)].
  - tauto.
  - intros H. rewrite H in Hl. destruct pre; discriminate.
Qed.

(** X5: the entry [next_entry] returns comes from a live reader that
    holds the least timestamp of all live readers; it starts with the
    line that reader had buffered and carries that timestamp. *)
Theorem next_entry_selects_minimum (cfg : config) (ls : LogSet)
    (evs : list event) (path : string) (lines : list string) (ls' : LogSet) :
  LogSet_ok cfg ls ->
  next_entry cfg ls = (evs, Ok (path, lines, ls')) ->
  exists log,
    In (path, log) (_logs ls) /\ _eof log = false /\
    hd "" lines = _line log /\
    entry_timestamp cfg lines = Ok (Some (_timestamp log)) /\
    forall k l, In (k, l) (_logs ls) -> _eof l = false ->
                dt_le (_timestamp log) (_timestamp l).
Proof.
  intros Hok H.
  destruct (next_entry_ok_weak _ _ _ _ _ _ Hok H)
    as (pre & log & post & log' & Hl & Hpre & Hpost & He & Hra & _).
  destruct (entry_spec _ _ _ _ Hra He) as (f & conts & Elive & _ & -> & _).
  assert (Hin : In (path, log) (live (_logs ls)))
    by (rewrite Hl; apply in_or_app; right; left; reflexivity).
  apply in_live in Hin.
  exists log. split; [tauto|]. split; [exact Elive|]. split; [reflexivity|].
  split; [apply (Hra Elive)|].
  intros k l Hkl El.
  assert (Hlv : In (k, l) (live (_logs ls))) by (apply in_live; auto).
  rewrite Hl in Hlv. apply in_app_or in Hlv.
  destruct Hlv as [Hlv|[Heq|Hlv]].
  - apply (Hpre k l Hlv).
  - inversion Heq; subst. apply dt_leb_refl.
  - apply dt_leb_total. apply (Hpost k l Hlv).
Qed.

(** X6: after a call of [next_entry] that returned an entry, every reader
    of the merge set is live, except possibly the one the entry was taken
    from: an exhausted reader stays in the set for one call at most. *)
Theorem next_entry_leaves_live (cfg : config) (ls : LogSet)
    (evs : list event) (path : string) (lines : list string) (ls' : LogSet) :
  LogSet_ok cfg ls ->
  next_entry cfg ls = (evs, Ok (path, lines, ls')) ->
  In path (keys (_logs ls')) /\
  forall k l, In (k, l) (_logs ls') -> k <> path -> _eof l = false.
Proof.
  intros Hok H.
  destruct (next_entry_ok_weak _ _ _ _ _ _ Hok H)
    as (pre & log & post & log' & Hl & _ & _ & _ & _ & Hl' & _).
  rewrite Hl'. split.
  - rewrite keys_app. apply in_or_app; right; left; reflexivity.
  - intros k l Hin Hne.
    assert (Hlv : In (k, l) (live (_logs ls))).
    { rewrite Hl. apply in_app_or in Hin. apply in_or_app.
      destruct Hin as [Hin|[Heq|Hin]];
        [left; exact Hin| |right; right; exact Hin].
      inversion Heq; subst. contradiction. }
    apply in_live in Hlv. tauto.
Qed.

(** X7: the merge comes to an end: the number of entries [next_entry]
    returns in a row is bounded by the lines left in the live readers
    (one more than its unread lines for each). *)
Theorem next_entries_bounded (cfg : config) (n : nat) (ls : LogSet) :
  LogSet_ok cfg ls ->
  List.length (next_entries cfg n ls) <= LogSet_fuel (_logs ls).
Proof.
  revert ls. induction n as [|n IH]; intros ls Hok; [simpl; lia|].
  cbn [next_entries].
  destruct (next_entry cfg ls) as [evs [[[p lines] ls']|e]] eqn:En;
    [|simpl; lia].
  pose proof (next_entry_fuel _ _ _ _ _ _ Hok En) as Hfuel.
  destruct (next_entry_ok_weak _ _ _ _ _ _ Hok En)
    as (? & ? & ? & ? & _ & _ & _ & _ & _ & _ & Hok').
  specialize (IH ls' Hok'). simpl. lia.
Qed.

(** ** Further properties: construction of the merge set and [main] *)

Lemma keys_dict_set_in {V : Type} (d : dict V) k v :
  In k (keys d) -> keys (dict_set d k v) = keys d.
Proof.
  intros Hin. destruct (in_keys_split d k Hin) as (pre & v0 & post & -> & Hpre).
  rewrite dict_set_app_notin by exact Hpre. rewrite !keys_app. reflexivity.
Qed.

Lemma filter_filter_and {A : Type} (p q : A -> bool) (l : list A) :
  filter p (filter q l) = filter (fun x => p x && q x) l.
Proof.
  induction l as [|x l IH]; [reflexivity|]. simpl.
  destruct (p x) eqn:Ep, (q x) eqn:Eq; simpl; rewrite ?Ep, ?IH; reflexivity.
Qed.

Lemma not_among_in ks q : not_among ks q = false <-> In q ks.
Proof.
  unfold not_among. rewrite negb_false_iff, existsb_exists. split.
  - intros (x & Hx & E). apply String.eqb_eq in E. subst. exact Hx.
  - intros H. exists q. split; [exact H|apply String.eqb_refl].
Qed.

Lemma LogSet_init_loop_first cfg fs pathnames : forall logs evs ls,
  LogSet_init_loop cfg fs pathnames logs = (evs, Ok ls) ->
  evs = map EvOpen pathnames /\
  keys (_logs ls)
  = keys logs ++ filter (not_among (keys logs)) (first_occurrences pathnames).
Proof.
  induction pathnames as [|path rest IH]; intros logs evs ls H.
  - simpl in H. inversion H; subst. simpl. rewrite app_nil_r. auto.
  - cbn [LogSet_init_loop] in H.
    destruct (Logfile_init cfg fs path) as [es [log|e]] eqn:E; [|inversion H].
    destruct (LogSet_init_loop cfg fs rest (dict_set logs path log))
      as [es' r] eqn:E'.
    inversion H; subst. clear H.
    destruct (Logfile_init_spec _ _ _ _ _ E) as (_ & _ & _ & -> & _).
    destruct (IH _ _ _ E') as [-> Hk]. split; [reflexivity|].
    rewrite Hk. cbn [first_occurrences filter].
    destruct (in_dec string_dec path (keys logs)) as [Hin|Hn].
    + rewrite (keys_dict_set_in logs path log Hin).
      replace (not_among (keys logs) path) with false
        by (symmetry; apply not_among_in; exact Hin).
      f_equal. rewrite filter_filter_and. apply filter_ext.
      intros q. destruct (not_among (keys logs) q) eqn:Eq; [|reflexivity].
      simpl. destruct (String.eqb_spec q path) as [->|_]; [|reflexivity].
      apply not_among_in in Hin. congruence.
    + rewrite (dict_set_notin logs path log Hn), keys_app. cbn [keys map fst].
      replace (not_among (keys logs) path) with true.
      2:{ destruct (not_among (keys logs) path) eqn:Eq; [reflexivity|].
          apply not_among_in in Eq. contradiction. }
      rewrite <- app_assoc. cbn [app]. do 2 f_equal.
      rewrite filter_filter_and. apply filter_ext.
      intros q. unfold not_among. rewrite existsb_app. simpl.
      rewrite orb_false_r, negb_orb. reflexivity.
Qed.

Lemma LogSet_init_first cfg fs pathnames evs ls :
  LogSet_init cfg fs pathnames = (evs, Ok ls) ->
  evs = map EvOpen pathnames /\
  keys (_logs ls) = first_occurrences pathnames /\
  NoDup (keys (_logs ls)).
Proof.
  intros H.
  destruct (LogSet_init_loop_first cfg fs pathnames [] evs ls H) as [-> Hk].
  split; [reflexivity|]. split.
  - rewrite Hk. simpl.
    rewrite (filter_ext (not_among []) (fun _ => true)) by reflexivity.
    clear. induction (first_occurrences pathnames) as [|x l IH];
      simpl; [|rewrite IH]; reflexivity.
  - apply (LogSet_init_inv _ _ _ _ _ H).
Qed.

(** X8: [LogSet] opens a stream for every path it is given, in order, and
    keeps one reader for each distinct path, in the order of the first
    occurrences: a path given twice is opened twice and held once. *)
Theorem LogSet_init_opens_and_keys (cfg : config) (fs : filesystem)
    (pathnames : list string) (evs : list event) (ls : LogSet) :
  LogSet_init cfg fs pathnames = (evs, Ok ls) ->
  evs = map EvOpen pathnames /\
  keys (_logs ls) = first_occurrences pathnames /\
  NoDup (keys (_logs ls)).
Proof. apply LogSet_init_first. Qed.

Lemma LogSet_init_loop_opened cfg fs pathnames : forall logs evs r,
  LogSet_init_loop cfg fs pathnames logs = (evs, r) ->
  exists k,
    k <= List.length pathnames /\ evs = map EvOpen (firstn k pathnames) /\
    (forall ls, r = Ok ls -> k = List.length pathnames) /\
    (forall path, In path pathnames -> fs path = None -> exists e, r = Raise e).
Proof.
  induction pathnames as [|path rest IH]; intros logs evs r H.
  - simpl in H. inversion H; subst. exists 0. simpl.
    repeat split; auto. intros ? [].
  - cbn [LogSet_init_loop] in H. unfold Logfile_init, open_ in H.
    destruct (fs path) as [text|] eqn:Efs.
    2:{ inversion H; subst. exists 0. simpl. split; [lia|].
        split; [reflexivity|]. split; [discriminate|]. eauto. }
    match type of H with
    | context [bind ?m ?k] => destruct (bind m k) as [log|e]
    end.
    2:{ inversion H; subst. exists 1. simpl. split; [lia|].
        split; [reflexivity|]. split; [discriminate|]. eauto. }
    destruct (LogSet_init_loop cfg fs rest (dict_set logs path log))
      as [es' r'] eqn:E'.
    inversion H; subst. clear H.
    destruct (IH _ _ _ E') as (k & Hk & -> & Hall & Hmiss).
    exists (S k). simpl. split; [lia|]. split; [reflexivity|]. split.
    + intros ls Hr. rewrite (Hall ls Hr). reflexivity.
    + intros p [->|Hin] Hp; [congruence|]. apply (Hmiss p Hin Hp).
Qed.

Lemma opens_map_EvOpen ps : opens (map EvOpen ps) = ps.
Proof. induction ps as [|p ps IH]; simpl; [|rewrite IH]; reflexivity. Qed.

Lemma opens_app evs evs' : opens (evs ++ evs') = opens evs ++ opens evs'.
Proof. unfold opens. apply flat_map_app. Qed.

Lemma prints_app evs evs' : prints (evs ++ evs') = prints evs ++ prints evs'.
Proof. unfold prints. apply flat_map_app. Qed.

Lemma opens_map_EvClose ks : opens (map EvClose ks) = [].
Proof. induction ks; simpl; auto. Qed.

Lemma prints_map_EvClose ks : prints (map EvClose ks) = [].
Proof. induction ks; simpl; auto. Qed.

Lemma prints_map_EvOpen ks : prints (map EvOpen ks) = [].
Proof. induction ks; simpl; auto. Qed.

Lemma closes_map_EvOpen ks : closes (map EvOpen ks) = [].
Proof. induction ks; simpl; auto. Qed.

Lemma print_entry_opens lines prefix_arg color :
  opens (fst (print_entry lines prefix_arg color)) = [].
Proof.
  induction lines as [|line lines IH]; simpl; [reflexivity|].
  destruct (render line (Some prefix_arg) color); [|reflexivity].
  destruct (print_entry lines prefix_arg color) as [evs r]. exact IH.
Qed.

Lemma next_entry_events cfg ls :
  LogSet_inv cfg ls ->
  fst (next_entry cfg ls) = map EvClose (keys (exhausted (_logs ls))).
Proof.
  intros Hok.
  destruct (next_entry_spec cfg ls Hok)
    as (r & -> & _).
  reflexivity.
Qed.

Lemma main_loop_opens cfg prefixes colors default_color fuel : forall ls,
  LogSet_inv cfg ls ->
  opens (fst (main_loop fuel cfg ls prefixes colors default_color)) = [].
Proof.
  induction fuel as [|fuel IH]; intros ls Hok; [reflexivity|].
  cbn [main_loop]. pose proof (next_entry_events cfg ls Hok) as Hev.
  destruct (next_entry cfg ls) as [evs1 [[[path lines] ls']|e]] eqn:En;
    simpl in Hev; subst evs1.
  - destruct (next_entry_ok_step _ _ _ _ _ _ Hok En)
      as (? & ? & ? & ? & _ & _ & _ & _ & _ & _ & _ & Hok').
    pose proof (print_entry_opens lines (dd_get prefixes "" path)
                  (dd_get colors default_color path)) as Hp.
    destruct (print_entry lines (dd_get prefixes "" path)
                (dd_get colors default_color path)) as [pevs [u|e]];
      simpl in Hp.
    + specialize (IH ls' Hok').
      destruct (main_loop fuel cfg ls' prefixes colors default_color)
        as [evs' o]. simpl in *.
      rewrite !opens_app, opens_map_EvClose, Hp, IH. reflexivity.
    + simpl. rewrite opens_app, opens_map_EvClose, Hp. reflexivity.
  - destruct e; simpl; apply opens_map_EvClose.
Qed.

(** X9: past its checks of the arguments, [main] opens the log files in
    the order given and all of them before it prints or closes anything;
    no stream is opened later.  When a stream cannot be set up, the run
    ends right there. *)
Theorem main_opens_first (fuel : nat) (isatty : bool) (fs : filesystem)
    (args : Namespace) (cfg : config) (evs : list event) (o : outcome) :
  2 <= List.length (logfiles args) ->
  truthy (format args) = truthy (regex args) ->
  configure args = Ok cfg ->
  main fuel isatty fs args = (evs, o) ->
  exists k rest,
    evs = map EvOpen (firstn k (logfiles args)) ++ rest /\
    opens rest = [] /\
    (rest <> [] -> k = List.length (logfiles args)).
Proof.
  intros Hlen Ht Hc H.
  rewrite (main_run fuel isatty fs args cfg Hlen Ht Hc) in H.
  destruct (LogSet_init cfg fs (logfiles args)) as [evs0 r] eqn:Ei.
  destruct (LogSet_init_loop_opened cfg fs (logfiles args) [] evs0 r Ei)
    as (k & Hk & -> & Hall & _).
  destruct r as [ls|e].
  - pose proof (main_loop_opens cfg (prefixes_of isatty args)
                  (colors_of isatty args)
                  (if colorize_of isatty args then 15%Z else (-1)%Z)
                  fuel ls (LogSet_init_inv _ _ _ _ _ Ei)) as Hop.
    destruct (main_loop fuel cfg ls (prefixes_of isatty args)
                (colors_of isatty args)
                (if colorize_of isatty args then 15%Z else (-1)%Z))
      as [evs' o'].
    inversion H; subst. exists k, evs'. simpl in Hop.
    split; [reflexivity|]. split; [exact Hop|]. intros _. apply (Hall ls eq_refl).
  - inversion H; subst. exists k, []. rewrite app_nil_r.
    split; [reflexivity|]. split; [reflexivity|]. intros N; contradiction.
Qed.

(** X10: past the checks of the arguments, when one of the log files
    cannot be opened, the run ends with the uncaught exception before any
    line is printed, and closes no stream. *)
Theorem main_missing_file (fuel : nat) (isatty : bool) (fs : filesystem)
    (args : Namespace) (cfg : config) (path : string) :
  2 <= List.length (logfiles args) ->
  truthy (format args) = truthy (regex args) ->
  configure args = Ok cfg ->
  In path (logfiles args) -> fs path = None ->
  exists evs e,
    main fuel isatty fs args = (evs, Uncaught e) /\
    prints evs = [] /\ closes evs = [].
Proof.
  intros Hlen Ht Hc Hin Hfs.
  rewrite (main_run fuel isatty fs args cfg Hlen Ht Hc).
  destruct (LogSet_init cfg fs (logfiles args)) as [evs0 r] eqn:Ei.
  destruct (LogSet_init_loop_opened cfg fs (logfiles args) [] evs0 r Ei)
    as (k & Hk & -> & _ & Hmiss).
  destruct (Hmiss path Hin Hfs) as [e ->].
  exists (map EvOpen (firstn k (logfiles args))), e.
  split; [reflexivity|]. split; [apply prints_map_EvOpen|apply closes_map_EvOpen].
Qed.

Lemma print_entry_prints lines prefix_arg color :
  Forall (fun line => line <> "") lines ->
  print_entry lines prefix_arg color
  = (map EvPrint
         (map (fun line =>
                 match render line (Some prefix_arg) color with
                 | Ok text => text
                 | Raise _ => ""
                 end) lines),
     Ok tt).
Proof.
  induction 1 as [|line lines Hl _ IH]; [reflexivity|].
  cbn [print_entry map].
  destruct (render_nonempty line (Some prefix_arg) color Hl) as [text ->].
  rewrite IH. reflexivity.
Qed.

Lemma prints_map_EvPrint ts : prints (map EvPrint ts) = ts.
Proof. induction ts as [|t ts IH]; simpl; [|rewrite IH]; reflexivity. Qed.

Lemma main_loop_prints cfg prefixes colors default_color fuel : forall ls,
  LogSet_inv cfg ls ->
  prints (fst (main_loop fuel cfg ls prefixes colors default_color))
  = flat_map (rendered prefixes colors default_color) (next_entries cfg fuel ls).
Proof.
  induction fuel as [|fuel IH]; intros ls Hok; [reflexivity|].
  cbn [main_loop next_entries]. pose proof (next_entry_events cfg ls Hok) as Hev.
  destruct (next_entry cfg ls) as [evs1 [[[path lines] ls']|e]] eqn:En;
    simpl in Hev; subst evs1.
  - destruct (next_entry_ok_step _ _ _ _ _ _ Hok En)
      as (pre & log & post & log' & _ & _ & _ & He & Hra & _ & _ & Hok').
    destruct (entry_spec _ _ _ _ Hra He) as (f & conts & Elive & _ & -> & Hc & _).
    assert (Hne : Forall (fun line => line <> "") (_line log :: conts)).
    { constructor; [apply (Hra Elive)|].
      eapply Forall_impl; [|exact Hc]. intros a [Ha _]; exact Ha. }
    rewrite (print_entry_prints _ (dd_get prefixes "" path)
               (dd_get colors default_color path) Hne).
    specialize (IH ls' Hok').
    destruct (main_loop fuel cfg ls' prefixes colors default_color) as [evs' o].
    cbn [fst flat_map] in *.
    rewrite !prints_app, prints_map_EvClose, prints_map_EvPrint, IH.
    reflexivity.
  - destruct e; simpl; apply prints_map_EvClose.
Qed.

(** X11: past the checks of the arguments, what a run prints is the
    merged entries, rendered line by line with the prefix and the colour
    of their file, in the order in which [next_entry] returns them, and
    nothing else. *)
Theorem main_prints_merged_entries (fuel : nat) (isatty : bool)
    (fs : filesystem) (args : Namespace) (cfg : config)
    (evs0 : list event) (ls : LogSet) :
  2 <= List.length (logfiles args) ->
  truthy (format args) = truthy (regex args) ->
  configure args = Ok cfg ->
  LogSet_init cfg fs (logfiles args) = (evs0, Ok ls) ->
  prints (fst (main fuel isatty fs args))
  = flat_map (rendered (prefixes_of isatty args) (colors_of isatty args)
                       (if colorize_of isatty args then 15%Z else (-1)%Z))
             (next_entries cfg fuel ls).
Proof.
  intros Hlen Ht Hc Hi.
  rewrite (main_run fuel isatty fs args cfg Hlen Ht Hc), Hi.
  pose proof (main_loop_prints cfg (prefixes_of isatty args)
                (colors_of isatty args)
                (if colorize_of isatty args then 15%Z else (-1)%Z)
                fuel ls (LogSet_init_inv _ _ _ _ _ Hi)) as Hp.
  destruct (main_loop fuel cfg ls (prefixes_of isatty args)
              (colors_of isatty args)
              (if colorize_of isatty args then 15%Z else (-1)%Z))
    as [evs' o].
  cbn [fst] in *. rewrite prints_app, <- Hp.
  destruct (LogSet_init_first _ _ _ _ _ Hi) as [-> _].
  rewrite prints_map_EvOpen. reflexivity.
Qed.

(** ** Further properties: detection and rendering *)

Lemma run_needs_digit r : forall s,
  needs_digit r = true ->
  (forall c s', s = String c s' -> is_digit c = false) ->
  Re.run r s = [].
Proof.
  induction r; intros s Hr Hs; simpl in Hr; try discriminate.
  - destruct s as [|c s']; [reflexivity|].
    simpl. rewrite (Hs c s' eq_refl). reflexivity.
  - simpl. rewrite (IHr1 s Hr Hs). reflexivity.
  - apply andb_true_iff in Hr. destruct Hr as [H1 H2].
    simpl. rewrite (IHr1 s H1 Hs), (IHr2 s H2 Hs). reflexivity.
  - simpl. rewrite (IHr s Hr Hs). reflexivity.
  - simpl. rewrite (IHr s Hr Hs). reflexivity.
Qed.

(** X12: a line that does not begin with a decimal digit (an indented
    line, a blank line, the empty string) matches none of the built-in
    patterns: without a custom rule it starts no entry, whatever the
    conversions of the library do. *)
Theorem parse_builtin_needs_digit (line : string) :
  (forall c s, line = String c s -> is_digit c = false) ->
  iso8601_pattern line = None /\ cloud_init_pattern line = None /\
  timestamp_pattern line = None /\
  parse_datetime (mkconfig None None) line = Ok None.
Proof.
  intros Hs.
  assert (H1 : iso8601_pattern line = None).
  { unfold iso8601_pattern, Re.match_.
    rewrite (run_needs_digit iso8601_regex line eq_refl Hs). reflexivity. }
  assert (H2 : cloud_init_pattern line = None).
  { unfold cloud_init_pattern, Re.match_.
    rewrite (run_needs_digit cloud_init_regex line eq_refl Hs). reflexivity. }
  assert (H3 : timestamp_pattern line = None).
  { unfold timestamp_pattern, Re.match_.
    rewrite (run_needs_digit timestamp_regex line eq_refl Hs). reflexivity. }
  repeat (split; [assumption|]).
  rewrite parse_datetime_no_custom. apply parse_builtin_none. auto.
Qed.

Lemma last_char_app a b : b <> "" -> last_char (a ++ b)%string = last_char b.
Proof.
  intros Hb. induction a as [|x a IH]; [reflexivity|].
  simpl. rewrite IH.
  destruct (a ++ b)%string eqn:E; [|reflexivity].
  destruct a; simpl in E; [contradiction|discriminate].
Qed.

Lemma render_in_range line prefix_arg color c :
  (-1 < color < 256)%Z -> last_char line = Some c ->
  render line prefix_arg color
  = Ok ((color_on color ++ pretext_of prefix_arg)
        ++ (if Ascii.eqb c LF
            then but_last line ++ color_off ++ String LF ""
            else line ++ color_off))%string.
Proof.
  intros [H1 H2] Hc. unfold render, pretext_of.
  replace ((-1 <? color)%Z && (color <? 256)%Z) with true
    by (symmetry; apply andb_true_iff; split; apply Z.ltb_lt; assumption).
  rewrite Hc. reflexivity.
Qed.

Lemma render_out_of_range line prefix_arg color :
  ~ (-1 < color < 256)%Z ->
  render line prefix_arg color = Ok (pretext_of prefix_arg ++ line)%string.
Proof.
  intros H. unfold render, pretext_of.
  replace ((-1 <? color)%Z && (color <? 256)%Z) with false; [reflexivity|].
  symmetry. apply andb_false_iff.
  destruct (Z.ltb_spec (-1) color); [|left; reflexivity].
  right. apply Z.ltb_ge. lia.
Qed.

Lemma Ok_inj {A : Type} (a b : A) : Ok a = Ok b -> a = b.
Proof. intros H; injection H; auto. Qed.

(** X13: [render] fails, with [IndexError], exactly on the empty line
    with a colour in range; for a line that is not empty, the rendered
    text ends in a newline exactly when the line does, so that rendering
    keeps the lines of the output apart as they were. *)
Theorem render_keeps_newline (line : string) (prefix_arg : option string)
    (color : Z) :
  (render line prefix_arg color = Raise IndexError <->
   line = "" /\ (-1 < color < 256)%Z) /\
  (forall text,
     line <> "" -> render line prefix_arg color = Ok text ->
     (last_char text = Some LF <-> last_char line = Some LF)).
Proof.
  destruct (Z.ltb_spec (-1) color) as [H1|H1];
    [destruct (Z.ltb_spec color 256) as [H2|H2]|].
  - split.
    + split.
      * intros H. destruct line as [|a line]; [split; [reflexivity|lia]|].
        destruct (last_char_some (String a line)) as [c Hc]; [discriminate|].
        rewrite (render_in_range _ prefix_arg color c (conj H1 H2) Hc) in H.
        discriminate.
      * intros [-> _]. unfold render.
        replace ((-1 <? color)%Z && (color <? 256)%Z) with true
          by (symmetry; apply andb_true_iff; split; apply Z.ltb_lt; assumption).
        reflexivity.
    + intros text Hne H.
      destruct (last_char_some line Hne) as [c Hc].
      rewrite (render_in_range _ prefix_arg color c (conj H1 H2) Hc) in H.
      apply Ok_inj in H. subst text. rewrite Hc.
      destruct (Ascii.eqb_spec c LF) as [->|Hn].
      * rewrite last_char_app by (destruct (but_last line); discriminate).
        rewrite last_char_app by discriminate.
        split; [tauto|reflexivity].
      * rewrite last_char_app by (destruct line; [contradiction|discriminate]).
        rewrite last_char_app by discriminate.
        split; [discriminate|]. intros H; inversion H; contradiction.
  - split.
    + rewrite render_out_of_range by lia. split; [discriminate|lia].
    + intros text Hne H. rewrite render_out_of_range in H by lia.
      apply Ok_inj in H. subst text.
      rewrite last_char_app by exact Hne. tauto.
  - split.
    + rewrite render_out_of_range by lia. split; [discriminate|lia].
    + intros text Hne H. rewrite render_out_of_range in H by lia.
      apply Ok_inj in H. subst text.
      rewrite last_char_app by exact Hne. tauto.
Qed.

Lemma assign_other_color args c np limit paths : forall index prefixes colors path,
  ~ In path paths ->
  dict_get (snd (assign args c np limit paths index prefixes colors)) path
  = dict_get colors path.
Proof.
  induction paths as [|p rest IH]; intros index prefixes colors path Hn;
    [reflexivity|].
  cbn [assign]. rewrite IH by (intros H; apply Hn; right; exact H).
  destruct c; [|reflexivity].
  apply dict_get_set_other. intros E; apply Hn; left; exact E.
Qed.

Lemma assign_get_color args np limit paths : forall index prefixes colors i path,
  nth_error paths i = Some path ->
  ~ In path (skipn (S i) paths) ->
  dict_get (snd (assign args true np limit paths index prefixes colors)) path
  = Some (Z.of_nat (index + i)).
Proof.
  induction paths as [|p rest IH]; intros index prefixes colors i path Hnth Hlast.
  - destruct i; discriminate.
  - cbn [assign]. destruct i as [|i].
    + simpl in Hnth. inversion Hnth; subst p. simpl in Hlast.
      rewrite assign_other_color by exact Hlast.
      rewrite dict_get_set_same, Nat.add_0_r. reflexivity.
    + simpl in Hnth. rewrite (IH _ _ _ i path Hnth Hlast).
      replace (index + 1 + i) with (index + S i) by lia. reflexivity.
Qed.

Lemma assign_unchanged args limit paths : forall index prefixes colors,
  assign args false true limit paths index prefixes colors = (prefixes, colors).
Proof.
  induction paths as [|p rest IH]; intros index prefixes colors; [reflexivity|].
  cbn [assign negb]. apply IH.
Qed.

(** X14: when colorizing is in effect, a log file is printed in the
    colour whose index is its 1-indexed position in input order (the last
    one, for a path given more than once), so that no two of the first
    255 files share a colour; from the 256th position on the index is
    out of range and [render] applies no colour. *)
Theorem color_by_position (isatty : bool) (args : Namespace)
    (i : nat) (path : string) :
  colorize_of isatty args = true ->
  nth_error (logfiles args) i = Some path ->
  ~ In path (skipn (S i) (logfiles args)) ->
  dd_get (colors_of isatty args) 15%Z path = Z.of_nat (S i) /\
  (i < 255 ->
   forall line p, line <> "" ->
     exists body,
       render line (Some p) (Z.of_nat (S i))
       = Ok (color_on (Z.of_nat (S i)) ++ p ++ body)%string) /\
  (255 <= i ->
   forall line p, render line (Some p) (Z.of_nat (S i)) = Ok (p ++ line)%string).
Proof.
  intros Hc Hnth Hlast.
  split; [|split].
  - unfold colors_of, dd_get. rewrite Hc.
    rewrite (assign_get_color args _ _ (logfiles args) 1 [] [] i path Hnth Hlast).
    reflexivity.
  - intros Hi line p Hline. unfold render.
    replace ((-1 <? Z.of_nat (S i))%Z && (Z.of_nat (S i) <? 256)%Z) with true
      by (symmetry; apply andb_true_iff; split; apply Z.ltb_lt; lia).
    destruct (last_char_some line Hline) as [c ->].
    eexists. rewrite string_app_assoc. reflexivity.
  - intros Hi line p. unfold render.
    replace ((-1 <? Z.of_nat (S i))%Z && (Z.of_nat (S i) <? 256)%Z) with false.
    + reflexivity.
    + symmetry. apply andb_false_iff. right. apply Z.ltb_ge. lia.
Qed.

(** X15: with [--no-prefix] and without colorizing, every line is
    printed as it was read, for every file: the rendering adds
    nothing. *)
Theorem plain_output_verbatim (isatty : bool) (args : Namespace)
    (path line : string) :
  no_prefix args = true ->
  colorize_of isatty args = false ->
  render line (Some (dd_get (prefixes_of isatty args) "" path))
         (dd_get (colors_of isatty args) (-1)%Z path)
  = Ok line.
Proof.
  intros Hnp Hc.
  unfold prefixes_of, colors_of, no_prefix_of. rewrite Hnp, Hc. cbn [orb].
  rewrite assign_unchanged. reflexivity.
Qed.

(** ** Further properties: the built-in patterns *)

Lemma match_some_in r s :
  Re.match_ r s <> None -> exists m, In m (Re.run r s).
Proof.
  unfold Re.match_. destruct (Re.run r s) as [|m l]; [congruence|].
  intros _. exists m. left; reflexivity.
Qed.

Lemma in_run_Cat r1 r2 s m :
  In m (Re.run (Re.Cat r1 r2) s) ->
  exists m1 m2,
    In m1 (Re.run r1 s) /\ In m2 (Re.run r2 (Re.rest m1)) /\
    Re.rest m = Re.rest m2.
Proof.
  cbn [Re.run]. intros H. apply in_flat_map in H.
  destruct H as (m1 & H1 & H). apply in_map_iff in H.
  destruct H as (m2 & <- & H2). exists m1, m2. auto.
Qed.

Lemma in_run_Grp r s m :
  In m (Re.run (Re.Grp r) s) ->
  exists m0, In m0 (Re.run r s) /\ Re.rest m = Re.rest m0.
Proof.
  cbn [Re.run]. intros H. apply in_map_iff in H.
  destruct H as (m0 & <- & H0). exists m0. auto.
Qed.

Lemma in_one_char p s m :
  In m (Re.one_char p s) -> exists c, s = String c (Re.rest m) /\ p c = true.
Proof.
  destruct s as [|c s]; simpl; [contradiction|].
  destruct (p c) eqn:E; simpl; [|contradiction].
  intros [<-|[]]. exists c. auto.
Qed.

Lemma in_run_Digit s m :
  In m (Re.run Re.Digit s) ->
  exists c, s = String c (Re.rest m) /\ is_digit c = true.
Proof. apply in_one_char. Qed.

Lemma in_run_Lit c s m :
  In m (Re.run (Re.Lit c) s) -> s = String c (Re.rest m).
Proof.
  intros H. apply in_one_char in H. destruct H as (c' & -> & E).
  apply Ascii.eqb_eq in E. subst. reflexivity.
Qed.

Lemma in_run_Opt r s m :
  In m (Re.run (Re.Opt r) s) -> In m (Re.run r s) \/ Re.rest m = s.
Proof.
  cbn [Re.run]. intros H. apply in_app_or in H.
  destruct H as [H|[<-|[]]]; [left; exact H|right; reflexivity].
Qed.

(** What repetitions of [\d] leave. *)
Lemma in_iter_Digit fuel : forall last s m,
  In m (Re.iter (Re.run Re.Digit) last fuel s) ->
  first_non_digit s = first_non_digit (Re.rest m).
Proof.
  induction fuel as [|fuel IH]; intros last s m H.
  - simpl in H. destruct H as [<-|[]]. reflexivity.
  - cbn [Re.iter] in H. apply in_app_or in H. destruct H as [H|H].
    + apply in_flat_map in H. destruct H as (m1 & H1 & H).
      apply in_run_Digit in H1. destruct H1 as (c & -> & Hc).
      destruct (Re.consumed m1); [destruct H|].
      apply in_map_iff in H. destruct H as (m2 & <- & H2).
      cbn [first_non_digit Re.rest]. rewrite Hc. eapply IH; exact H2.
    + destruct H as [<-|[]]. reflexivity.
Qed.

Lemma in_run_Plus_Digit s m :
  In m (Re.run (Re.Plus Re.Digit) s) ->
  first_non_digit s = first_non_digit (Re.rest m).
Proof.
  cbn [Re.run]. intros H. apply in_flat_map in H.
  destruct H as (m1 & H1 & H).
  apply in_run_Digit in H1. destruct H1 as (c & -> & Hc).
  apply in_map_iff in H. destruct H as (m2 & <- & H2).
  cbn [first_non_digit Re.rest]. rewrite Hc.
  eapply in_iter_Digit; exact H2.
Qed.

Ltac digit_step H c Hc :=
  let m1 := fresh "m" in let m2 := fresh "m" in
  let H1 := fresh "H" in let H2 := fresh "H" in
  apply in_run_Cat in H; destruct H as (m1 & m2 & H1 & H2 & _);
  apply in_run_Digit in H1; destruct H1 as (c & -> & Hc);
  rename H2 into H.

Lemma iso8601_first_non_digit line :
  iso8601_pattern line <> None -> first_non_digit line = Some "/"%char.
Proof.
  intros H. apply match_some_in in H. destruct H as [m H].
  unfold iso8601_regex in H.
  apply in_run_Cat in H. destruct H as (m1 & _ & H & _).
  apply in_run_Grp in H. destruct H as (m0 & H & _).
  digit_step H c1 Hc1. digit_step H c2 Hc2.
  digit_step H c3 Hc3. digit_step H c4 Hc4.
  apply in_run_Cat in H. destruct H as (ma & _ & H & _).
  apply in_run_Lit in H.
  cbn [first_non_digit]. rewrite Hc1, Hc2, Hc3, Hc4, H. reflexivity.
Qed.

Lemma cloud_init_first_non_digit line :
  cloud_init_pattern line <> None -> first_non_digit line = Some "-"%char.
Proof.
  intros H. apply match_some_in in H. destruct H as [m H].
  unfold cloud_init_regex in H.
  apply in_run_Cat in H. destruct H as (m1 & _ & H & _).
  apply in_run_Grp in H. destruct H as (m0 & H & _).
  digit_step H c1 Hc1. digit_step H c2 Hc2.
  digit_step H c3 Hc3. digit_step H c4 Hc4.
  apply in_run_Cat in H. destruct H as (ma & _ & H & _).
  apply in_run_Lit in H.
  cbn [first_non_digit]. rewrite Hc1, Hc2, Hc3, Hc4, H. reflexivity.
Qed.

Lemma timestamp_first_non_digit line :
  timestamp_pattern line <> None ->
  first_non_digit line = Some " "%char \/ first_non_digit line = Some "."%char.
Proof.
  intros H. apply match_some_in in H. destruct H as [m H].
  unfold timestamp_regex in H.
  apply in_run_Cat in H. destruct H as (m1 & m2 & H & Hsp & _).
  apply in_run_Lit in Hsp.
  apply in_run_Grp in H. destruct H as (m0 & H & E0). rewrite E0 in Hsp.
  apply in_run_Cat in H. destruct H as (ma & mb & Ha & Hb & Eb).
  rewrite Eb in Hsp.
  apply in_run_Grp in Ha. destruct Ha as (md & Hd & Ed).
  apply in_run_Plus_Digit in Hd. rewrite Hd, <- Ed.
  apply in_run_Opt in Hb. destruct Hb as [Hb|Hb].
  - right. apply in_run_Grp in Hb. destruct Hb as (me & Hb & _).
    apply in_run_Cat in Hb. destruct Hb as (mf & _ & Hb & _).
    apply in_run_Lit in Hb. rewrite Hb. reflexivity.
  - left. rewrite Hb in Hsp. rewrite Hsp. reflexivity.
Qed.

(** X16: the three built-in patterns exclude one another: a line that
    matches one of them matches neither of the other two, since the first
    character after its leading digits is a slash for the first form, a
    dash for the second, and a space or a dot for an epoch stamp.  The
    order in which [parse_datetime] tries them therefore never decides
    the outcome. *)
Theorem builtin_patterns_exclusive (line : string) :
  (iso8601_pattern line <> None ->
   cloud_init_pattern line = None /\ timestamp_pattern line = None) /\
  (cloud_init_pattern line <> None ->
   iso8601_pattern line = None /\ timestamp_pattern line = None) /\
  (timestamp_pattern line <> None ->
   iso8601_pattern line = None /\ cloud_init_pattern line = None).
Proof.
  pose proof (iso8601_first_non_digit line) as Hi.
  pose proof (cloud_init_first_non_digit line) as Hc.
  pose proof (timestamp_first_non_digit line) as Ht.
  split; [|split]; intros H.
  - specialize (Hi H). split.
    + destruct (cloud_init_pattern line) eqn:E; [|reflexivity].
      rewrite Hc in Hi by discriminate. discriminate.
    + destruct (timestamp_pattern line) eqn:E; [|reflexivity].
      destruct Ht as [Ht|Ht]; [discriminate| |]; rewrite Ht in Hi; discriminate.
  - specialize (Hc H). split.
    + destruct (iso8601_pattern line) eqn:E; [|reflexivity].
      rewrite Hi in Hc by discriminate. discriminate.
    + destruct (timestamp_pattern line) eqn:E; [|reflexivity].
      destruct Ht as [Ht|Ht]; [discriminate| |]; rewrite Ht in Hc; discriminate.
  - specialize (Ht H). split.
    + destruct (iso8601_pattern line) eqn:E; [|reflexivity].
      rewrite Hi in Ht by discriminate. destruct Ht; discriminate.
    + destruct (cloud_init_pattern line) eqn:E; [|reflexivity].
      rewrite Hc in Ht by discriminate. destruct Ht; discriminate.
Qed.

(** ** Further properties: exit codes *)

Lemma main_loop_exit cfg prefixes colors default_color fuel : forall ls evs c,
  main_loop fuel cfg ls prefixes colors default_color = (evs, Exit c) ->
  c = 0%Z.
Proof.
  induction fuel as [|fuel IH]; intros ls evs c H; [discriminate|].
  cbn [main_loop] in H.
  destruct (next_entry cfg ls) as [evs1 [[[path lines] ls']|e]].
  - destruct (print_entry lines (dd_get prefixes "" path)
                (dd_get colors default_color path)) as [pevs [u|e]];
      [|discriminate].
    destruct (main_loop fuel cfg ls' prefixes colors default_color)
      as [evs' o] eqn:Em.
    inversion H; subst. eapply IH; exact Em.
  - destruct e; inversion H; reflexivity.
Qed.

Lemma in_first_occurrences paths p :
  In p paths -> In p (first_occurrences paths).
Proof.
  induction paths as [|q rest IH]; simpl; [tauto|].
  intros [->|Hin]; [left; reflexivity|].
  destruct (String.eqb_spec p q) as [->|Hne]; [left; reflexivity|].
  right. apply filter_In. split; [apply IH; exact Hin|].
  apply negb_true_iff. apply String.eqb_neq. exact Hne.
Qed.

(** X17: what the calls of [exit] mean, once the command line is parsed
    (from the checks of [main] on).  [main] calls [exit(1)] only for one
    of its two usage errors, and then it has opened no stream; it calls
    [exit(0)] only when the arguments passed both checks, every log file
    given was opened, and the stream of every path given has been closed,
    by [close], exactly once.  It calls [exit] with no other code: a run
    that ends otherwise ends with an exception that is not caught. *)
Theorem main_exit_meaning (fuel : nat) (isatty : bool) (fs : filesystem)
    (args : Namespace) (evs : list event) (c : Z) :
  main fuel isatty fs args = (evs, Exit c) ->
  (c = 1%Z /\
   (List.length (logfiles args) < 2 \/
    truthy (format args) <> truthy (regex args)) /\
   opens evs = []) \/
  (c = 0%Z /\
   2 <= List.length (logfiles args) /\
   truthy (format args) = truthy (regex args) /\
   opens evs = logfiles args /\
   forall path, In path (logfiles args) ->
                count_occ string_dec (closes evs) path = 1).
Proof.
  intros H.
  destruct (Nat.ltb_spec (List.length (logfiles args)) 2) as [Hlt|Hge].
  { left. unfold main in H.
    replace (List.length (logfiles args) <? 2)%nat with true in H
      by (symmetry; apply Nat.ltb_lt; exact Hlt).
    inversion H; subst. auto. }
  destruct (Bool.eqb (truthy (format args)) (truthy (regex args))) eqn:Et.
  2:{ left. unfold main in H.
      replace (List.length (logfiles args) <? 2)%nat with false in H
        by (symmetry; apply Nat.ltb_ge; exact Hge).
      rewrite Et in H. inversion H; subst.
      apply Bool.eqb_false_iff in Et. auto. }
  apply Bool.eqb_prop in Et.
  destruct (configure args) as [cfg|e] eqn:Ec.
  2:{ unfold main in H.
      replace (List.length (logfiles args) <? 2)%nat with false in H
        by (symmetry; apply Nat.ltb_ge; exact Hge).
      rewrite Et, Bool.eqb_reflx, Ec in H. discriminate. }
  right.
  rewrite (main_run fuel isatty fs args cfg Hge Et Ec) in H.
  destruct (LogSet_init cfg fs (logfiles args)) as [evs0 [ls|e]] eqn:Ei;
    [|discriminate].
  pose proof (LogSet_init_inv _ _ _ _ _ Ei) as Hok.
  pose proof (main_loop_opens cfg (prefixes_of isatty args) (colors_of isatty args)
                (if colorize_of isatty args then 15%Z else (-1)%Z) fuel ls Hok)
    as Hop.
  destruct (main_loop fuel cfg ls (prefixes_of isatty args) (colors_of isatty args)
              (if colorize_of isatty args then 15%Z else (-1)%Z))
    as [evs' o] eqn:Em.
  inversion H; subst. clear H.
  pose proof (main_loop_exit _ _ _ _ _ _ _ _ Em) as ->.
  destruct (LogSet_init_first _ _ _ _ _ Ei) as (-> & Hk & _).
  destruct (main_loop_closes _ _ _ _ _ _ _ _ Hok Em) as (Hnd & _ & Hall).
  split; [reflexivity|]. split; [exact Hge|]. split; [exact Et|]. split.
  - cbn [fst] in Hop. rewrite opens_app, opens_map_EvOpen, Hop, app_nil_r.
    reflexivity.
  - intros path Hin. rewrite closes_app, closes_map_EvOpen. cbn [app].
    apply (proj1 (NoDup_count_occ' string_dec (closes evs')) Hnd).
    apply (Hall eq_refl). rewrite Hk. apply in_first_occurrences. exact Hin.
Qed.

(** ** Further properties: closing a reader *)

(** X18: no reader of a merge set has been closed: in every state the
    merge goes through, each reader still holds the stream of its path,
    so the [close] that [next_entry] does on an exhausted reader finds a
    stream to close, closes it, and leaves the reader exhausted, with no
    stream and no buffered line; a second [close] of the same reader
    would fail with [AttributeError] and close nothing. *)
Theorem close_finds_stream (cfg : config) (fs : filesystem)
    (pathnames : list string) (ls : LogSet) (k : string) (l : Logfile) :
  reachable cfg fs pathnames ls ->
  In (k, l) (_logs ls) ->
  exists l',
    close l = ([EvClose k], Ok l') /\
    _eof l' = true /\ _f l' = None /\ _line l' = "" /\
    timestamp l' = Raise EOFError /\
    entry cfg l' = Raise EOFError /\
    close l' = ([], Raise AttributeError) /\
    Logfile_exit l = ([EvClose k], Ok l').
Proof.
  intros Hreach Hin.
  pose proof (reachable_inv _ _ _ _ Hreach) as Hok.
  pose proof (close_holds_stream k l (proj2 (proj2 Hok) k l Hin)) as Hc.
  eexists. split; [exact Hc|].
  unfold Logfile_exit. rewrite Hc. repeat split.
Qed.

(** ** The tie-break, in the order the sources were supplied *)

Lemma first_index_nth paths path :
  In path paths -> nth_error paths (first_index paths path) = Some path.
Proof.
  induction paths as [|p rest IH]; simpl; [contradiction|].
  intros Hin. destruct (String.eqb_spec p path) as [->|Hne]; [reflexivity|].
  destruct Hin as [E|Hin]; [contradiction|]. apply IH; exact Hin.
Qed.

Lemma first_index_least paths path : forall i,
  nth_error paths i = Some path -> first_index paths path <= i.
Proof.
  induction paths as [|p rest IH]; intros i H; [destruct i; discriminate|].
  simpl. destruct (String.eqb_spec p path) as [->|Hne]; [lia|].
  destruct i as [|i]; simpl in H; [congruence|].
  specialize (IH i H). lia.
Qed.

Lemma first_index_NoDup paths path :
  NoDup paths ->
  forall i, nth_error paths i = Some path -> i = first_index paths path.
Proof.
  induction paths as [|p rest IH]; intros Hnd i H; [destruct i; discriminate|].
  inversion Hnd as [|? ? Hn Hnd']; subst.
  simpl. destruct i as [|i]; simpl in H.
  - inversion H; subst. rewrite String.eqb_refl. reflexivity.
  - destruct (String.eqb_spec p path) as [->|Hne].
    + exfalso. apply Hn. eapply nth_error_In; exact H.
    + f_equal. apply IH; assumption.
Qed.

Lemma first_occurrences_incl paths p :
  In p (first_occurrences paths) -> In p paths.
Proof.
  induction paths as [|q rest IH]; simpl; [tauto|].
  intros [->|Hin]; [left; reflexivity|].
  apply filter_In in Hin. right. apply IH. tauto.
Qed.

Lemma StronglySorted_filter {A : Type} (R : A -> A -> Prop) (f : A -> bool) l :
  StronglySorted R l -> StronglySorted R (filter f l).
Proof.
  induction 1 as [|a l Hs IH Hall]; simpl; [constructor|].
  destruct (f a); [|exact IH].
  constructor; [exact IH|].
  rewrite Forall_forall in *. intros x Hx. apply filter_In in Hx.
  apply Hall. tauto.
Qed.

Lemma StronglySorted_app_r {A : Type} (R : A -> A -> Prop) (l l' : list A) :
  StronglySorted R (l ++ l') -> StronglySorted R l'.
Proof.
  induction l as [|a l IH]; simpl; intros Hs; [exact Hs|].
  inversion Hs; subst. auto.
Qed.

Lemma StronglySorted_impl_in {A : Type} (R R' : A -> A -> Prop) l :
  (forall a b, In a l -> In b l -> R a b -> R' a b) ->
  StronglySorted R l -> StronglySorted R' l.
Proof.
  intros Himp Hs. induction Hs as [|a l Hs IH Hall]; [constructor|].
  constructor.
  - apply IH. intros x y Hx Hy. apply Himp; right; assumption.
  - rewrite Forall_forall in *. intros x Hx.
    apply Himp; [left; reflexivity|right; exact Hx|apply Hall; exact Hx].
Qed.

(** The first occurrences come in the order in which they are supplied. *)
Lemma first_occurrences_sorted paths :
  StronglySorted (supplied_before paths) (first_occurrences paths).
Proof.
  induction paths as [|p rest IH]; [constructor|].
  cbn [first_occurrences]. constructor.
  - apply (StronglySorted_impl_in (supplied_before rest)).
    + intros a b Ha Hb Hab. apply filter_In in Ha, Hb.
      destruct Ha as [_ Ha], Hb as [_ Hb].
      apply negb_true_iff in Ha, Hb.
      unfold supplied_before in *. simpl.
      rewrite String.eqb_sym in Ha. rewrite String.eqb_sym in Hb.
      rewrite Ha, Hb. lia.
    + apply StronglySorted_filter. exact IH.
  - rewrite Forall_forall. intros q Hq. apply filter_In in Hq.
    destruct Hq as [_ Hq]. apply negb_true_iff in Hq.
    unfold supplied_before. simpl.
    rewrite String.eqb_refl. rewrite String.eqb_sym in Hq. rewrite Hq. lia.
Qed.

Lemma keys_filter_sorted {V : Type} (R : string -> string -> Prop)
    (p : string * V -> bool) (d : dict V) :
  StronglySorted R (keys d) -> StronglySorted R (keys (filter p d)).
Proof.
  induction d as [|[k v] d IH]; simpl; intros Hs; [constructor|].
  inversion Hs as [|? ? Hs' Hall]; subst.
  destruct (p (k, v)); simpl; [|auto].
  constructor; [auto|].
  rewrite Forall_forall in *. intros x Hx. apply Hall.
  eapply keys_filter_incl; exact Hx.
Qed.

(** The merge set keeps its readers in the order in which their paths
    were first supplied, and holds no other path. *)
Lemma reachable_keys_sorted cfg fs pathnames ls :
  reachable cfg fs pathnames ls ->
  StronglySorted (supplied_before pathnames) (keys (_logs ls)) /\
  incl (keys (_logs ls)) pathnames.
Proof.
  induction 1 as [evs ls H|ls evs path lines ls' Hreach [IHs IHi] H].
  - destruct (LogSet_init_first _ _ _ _ _ H) as (_ & -> & _). split.
    + apply first_occurrences_sorted.
    + intros p. apply first_occurrences_incl.
  - pose proof (reachable_inv _ _ _ _ Hreach) as Hok.
    destruct (next_entry_ok_step _ _ _ _ _ _ Hok H)
      as (pre & log & post & log' & Hl & _ & _ & _ & _ & Hl' & _ & _).
    assert (Hk : keys (_logs ls') = keys (live (_logs ls)))
      by (rewrite Hl', Hl, !keys_app; reflexivity).
    rewrite Hk. split.
    + apply keys_filter_sorted. exact IHs.
    + intros p Hp. apply IHi. eapply keys_filter_incl; exact Hp.
Qed.

(** C3 (as the code has it): the merge set is a dictionary keyed by path,
    so it keeps one reader for each path, at the place where the path was
    first supplied.  When several live readers share the least buffered
    timestamp, [next_entry] takes the one whose path was first supplied
    last: it returns that reader's path with the entry extracted from it
    (which starts with its buffered line), and passes on what that
    extraction raises.  The place of a path is where it first occurs in
    the paths supplied; when the paths supplied are distinct, it is the
    only place, so the reader taken is the one supplied last. *)
Theorem next_entry_tie_break (cfg : config) (fs : filesystem)
    (pathnames : list string) (ls : LogSet) (path : string) (log : Logfile) :
  reachable cfg fs pathnames ls ->
  In (path, log) (live (_logs ls)) ->
  (forall k l, In (k, l) (live (_logs ls)) ->
               dt_le (_timestamp log) (_timestamp l)) ->
  (forall k l, In (k, l) (live (_logs ls)) ->
               _timestamp l = _timestamp log ->
               first_index pathnames k <= first_index pathnames path) ->
  (exists evs,
     next_entry cfg ls
     = (evs,
        match entry cfg log with
        | Raise e => Raise e
        | Ok (lines, log') =>
            Ok (path, lines, mkLogSet (dict_set (live (_logs ls)) path log'))
        end)) /\
  (forall lines log',
     entry cfg log = Ok (lines, log') -> hd "" lines = _line log) /\
  (forall k l,
     In (k, l) (live (_logs ls)) ->
     nth_error pathnames (first_index pathnames k) = Some k /\
     (forall i, nth_error pathnames i = Some k -> first_index pathnames k <= i) /\
     (NoDup pathnames ->
      forall i, nth_error pathnames i = Some k -> i = first_index pathnames k)).
Proof.
  intros Hreach Hin Hmin Hlast.
  pose proof (reachable_inv _ _ _ _ Hreach) as Hok.
  destruct (reachable_keys_sorted _ _ _ _ Hreach) as [Hsorted Hincl].
  destruct (in_split _ _ Hin) as (pre & post & Hl).
  assert (Hndl : NoDup (keys (live (_logs ls))))
    by (apply filter_NoDup_keys; apply Hok).
  assert (Hpre : ~ In path (keys pre)).
  { rewrite Hl, keys_app in Hndl. simpl in Hndl.
    apply NoDup_remove_2 in Hndl. intros Hp. apply Hndl.
    apply in_or_app; left; exact Hp. }
  assert (Hpost : forall k l, In (k, l) post -> _timestamp l <> _timestamp log).
  { intros k l Hkl Heq.
    assert (Hlv : In (k, l) (live (_logs ls)))
      by (rewrite Hl; apply in_or_app; right; right; exact Hkl).
    specialize (Hlast k l Hlv Heq).
    pose proof (keys_filter_sorted (supplied_before pathnames)
                  (fun kl => negb (_eof (snd kl))) (_logs ls) Hsorted) as Hs.
    fold (live (_logs ls)) in Hs. rewrite Hl, keys_app in Hs. simpl in Hs.
    apply StronglySorted_app_r in Hs.
    inversion Hs as [|? ? _ Hall]; subst.
    rewrite Forall_forall in Hall.
    assert (Hlt : supplied_before pathnames path k).
    { apply Hall. unfold keys. apply in_map_iff. exists (k, l). auto. }
    unfold supplied_before in Hlt. lia. }
  destruct (next_entry_last_of_least cfg ls pre path log post Hok Hl Hmin Hpost)
    as (evs & Hn & Hhd).
  split; [|split].
  - exists evs. rewrite Hn. f_equal.
    destruct (entry cfg log) as [[lines log']|e]; [|reflexivity].
    rewrite Hl, (dict_set_app_notin pre post path log log' Hpre). reflexivity.
  - exact Hhd.
  - intros k l Hkl.
    assert (Hk : In k pathnames).
    { apply Hincl. apply in_live in Hkl.
      unfold keys. apply in_map_iff. exists (k, l). tauto. }
    split; [apply first_index_nth; exact Hk|].
    split; [apply first_index_least|].
    intros Hnd. apply first_index_NoDup; exact Hnd.
Qed.

(** ** Closing the streams of a run *)

(** C9 (as the code has it): the merge set holds one reader, with one
    stream, for each distinct path supplied, and this stream is closed
    exactly once, by [close], in the call of [next_entry] that finds its
    reader exhausted and removes the reader from the set.  Construction
    opens a stream for every path supplied and closes none.  One call of
    [next_entry] closes the streams of the readers it finds exhausted, by
    [close] on each, and no other; the set it leaves holds the live
    readers only.  Over a run of the loop of [main] nothing more is
    opened, no stream is closed twice and only streams of paths supplied
    are closed; when the run completes (exit code 0) the stream of every
    path supplied has been closed exactly once, so that, when the paths
    supplied are distinct, the streams closed are the streams opened. *)
Theorem close_exactly_once (cfg : config) (fs : filesystem)
    (pathnames : list string) (evs0 : list event) (ls0 : LogSet) :
  LogSet_init cfg fs pathnames = (evs0, Ok ls0) ->
  (opens evs0 = pathnames /\ closes evs0 = []) /\
  (forall ls evs r,
     reachable cfg fs pathnames ls ->
     next_entry cfg ls = (evs, r) ->
     evs = map EvClose (keys (exhausted (_logs ls))) /\
     (forall k l,
        In (k, l) (exhausted (_logs ls)) ->
        _eof l = true /\
        close l = ([EvClose k], Ok (mkLogfile None true (_timestamp l) ""))) /\
     (forall path lines ls',
        r = Ok (path, lines, ls') ->
        keys (_logs ls') = keys (live (_logs ls)))) /\
  (forall fuel prefixes colors default_color evs o,
     main_loop fuel cfg ls0 prefixes colors default_color = (evs, o) ->
     opens evs = [] /\
     NoDup (closes evs) /\
     incl (closes evs) pathnames /\
     (o = Exit 0 ->
      (forall path, In path pathnames ->
                    count_occ string_dec (closes evs) path = 1) /\
      (NoDup pathnames -> Permutation (closes evs) (opens (evs0 ++ evs))))).
Proof.
  intros Hinit.
  destruct (LogSet_init_first _ _ _ _ _ Hinit) as (Hev0 & Hkeys & _).
  pose proof (LogSet_init_inv _ _ _ _ _ Hinit) as Hok0.
  split; [|split].
  - rewrite Hev0, opens_map_EvOpen, closes_map_EvOpen. auto.
  - intros ls evs r Hreach En.
    pose proof (reachable_inv _ _ _ _ Hreach) as Hok.
    destruct (next_entry_spec cfg ls Hok) as (r0 & Hn & _).
    rewrite En in Hn. inversion Hn; subst. clear Hn.
    split; [reflexivity|]. split.
    + intros k l Hkl. apply in_exhausted in Hkl. destruct Hkl as [Hkl Eeof].
      split; [exact Eeof|].
      apply close_holds_stream. apply (proj2 (proj2 Hok) k l Hkl).
    + intros path lines ls' ->.
      destruct (next_entry_ok_step _ _ _ _ _ _ Hok En)
        as (pre & log & post & log' & Hl & _ & _ & _ & _ & Hl' & _).
      rewrite Hl', Hl, !keys_app. reflexivity.
  - intros fuel prefixes colors default_color evs o Hm.
    pose proof (main_loop_opens cfg prefixes colors default_color fuel ls0 Hok0)
      as Hop.
    rewrite Hm in Hop. cbn [fst] in Hop.
    destruct (main_loop_closes _ _ _ _ _ _ _ _ Hok0 Hm) as (Hnd & Hinc & Hall).
    rewrite Hkeys in Hinc, Hall.
    split; [exact Hop|]. split; [exact Hnd|]. split.
    + intros p Hp. apply first_occurrences_incl. apply Hinc. exact Hp.
    + intros Ho.
      assert (Hin : forall path, In path pathnames -> In path (closes evs)).
      { intros path Hp. apply (Hall Ho). apply in_first_occurrences. exact Hp. }
      split.
      * intros path Hp.
        apply (proj1 (NoDup_count_occ' string_dec (closes evs)) Hnd).
        apply Hin; exact Hp.
      * intros Hndp.
        rewrite opens_app, Hev0, opens_map_EvOpen, Hop, app_nil_r.
        apply NoDup_Permutation; [exact Hnd|exact Hndp|].
        intros path. split; [|apply Hin].
        intros Hp. apply first_occurrences_incl. apply Hinc. exact Hp.
Qed.

End Properties.

(** * The properties on concrete runs *)

Section Runs.

Import Scenario MoreScenario.

#[local] Existing Instance Py.cpython.

(** ** What the runs compute *)

Example configure_custom : configure args_custom = Ok custom_cfg.
Proof. vm_compute. reflexivity. Qed.

Example LogSet_init_tie :
  LogSet_init no_custom fs ["tA"; "tB"] = ([EvOpen "tA"; EvOpen "tB"], Ok ls_tie).
Proof. vm_compute. reflexivity. Qed.

Example LogSet_init_AB :
  LogSet_init no_custom fs ["A"; "B"] = ([EvOpen "A"; EvOpen "B"], Ok ls_AB).
Proof. vm_compute. reflexivity. Qed.

(** The first scenario of the specification: a1, b2, then the tie at t=3,
    which the source supplied last wins, each entry under the prefix of
    its file and with its continuation lines. *)
Example run_AB :
  main 10 false fs args_AB
  = ([EvOpen "A"; EvOpen "B";
      EvPrint ("log1 1 a1" ++ nl)%string; EvPrint ("log1   more a1" ++ nl)%string;
      EvPrint ("log2 2 b2" ++ nl)%string;
      EvPrint ("log2 3 b3" ++ nl)%string; EvClose "B";
      EvPrint ("log1 3 a3" ++ nl)%string; EvClose "A"],
     Exit 0).
Proof. vm_compute. reflexivity. Qed.

(** The tie scenario of the specification: with order [tA, tB], the
    entry of tB comes first. *)
Example tie_tB_first :
  next_entries no_custom 2 ls_tie
  = [("tB", [("5 b5" ++ nl)%string]);
     ("tA", [("5 a5" ++ nl)%string; ("  c1" ++ nl)%string; ("  c2" ++ nl)%string])].
Proof. vm_compute. reflexivity. Qed.

(** ** C1 *)

(** A line in the slash-delimited form, which the custom pattern does not
    match, still starts an entry. *)
Lemma custom_rule_not_exclusive :
  configure args_custom = Ok custom_cfg /\
  custom_pattern custom_cfg = Some (Re.match_ custom_regex) /\
  Re.match_ custom_regex line_iso = None /\
  parse_datetime custom_cfg line_iso = Ok (Some (mkdt 2020 1 2 3 4 5 678000)).
Proof. repeat split; vm_compute; reflexivity. Qed.

Lemma parse_datetime_custom_first_witness :
  (forall m, Re.match_ custom_regex line_noon = Some m ->
     parse_datetime custom_cfg line_noon =
       (g <- Re.group m 1 ;;
        entry_datetime <- strptime_group g (custom_format custom_cfg) ;;
        Ok (Some entry_datetime))) /\
  (Re.match_ custom_regex line_noon = None ->
     parse_datetime custom_cfg line_noon
     = parse_datetime (mkconfig None None) line_noon /\
     (parse_datetime custom_cfg line_noon = Ok None <->
        iso8601_pattern line_noon = None /\ cloud_init_pattern line_noon = None
        /\ timestamp_pattern line_noon = None)).
Proof.
  apply (parse_datetime_custom_first custom_cfg (Re.match_ custom_regex) line_noon).
  reflexivity.
Defined.

Example custom_rule_used :
  parse_datetime custom_cfg line_noon = Ok (Some (mkdt 1900 1 1 12 0 0 0)).
Proof. vm_compute. reflexivity. Qed.

(** ** C2 *)

(** A format with a directive [strptime] does not know passes the
    startup: the run opens both logs, prints two entries, and fails when
    the first line that matches the custom pattern is parsed.  A pattern
    without a group passes the startup as well: it compiles, the first
    log is opened, and [group(1)] fails on the first line that matches. *)
Lemma malformed_rule_fails_per_line :
  (strptime "12:00:00" "%Q" = Raise ValueError /\
   main 10 false fs args_bad_format
   = ([EvOpen "iso"; EvOpen "B";
       EvPrint ("log2 2 b2" ++ nl)%string; EvPrint ("log2 3 b3" ++ nl)%string;
       EvClose "B"],
      Uncaught ValueError)) /\
  main 10 false fs
       (mkNamespace None false (Some "\d+ ") (Some "%S") false ["A"; "B"])
  = ([EvOpen "A"], Uncaught IndexError).
Proof. repeat split; vm_compute; reflexivity. Qed.

(** A pattern with an unclosed group stops the program at startup. *)
Example malformed_pattern_at_startup :
  main 10 false fs
       (mkNamespace None false (Some "(\d+ ") (Some "%S") false ["A"; "B"])
  = ([], Uncaught ReError).
Proof. vm_compute. reflexivity. Qed.

(** With the format [%Q], the line the custom pattern matches raises, and
    the line it does not match is dated by a built-in pattern. *)
Example malformed_format_on_lines :
  parse_datetime (mkconfig (Some (Re.match_ custom_regex)) (Some "%Q")) line_noon
  = Raise ValueError /\
  parse_datetime (mkconfig (Some (Re.match_ custom_regex)) (Some "%Q")) line_iso
  = Ok (Some (mkdt 2020 1 2 3 4 5 678000)).
Proof. split; vm_compute; reflexivity. Qed.

(** ** C3 *)

(** [logmerge.py tB tA tB]: the two readers are kept in the order tB,
    tA, and at the tie the entry of tA comes first, though tB is the
    source supplied last. *)
Lemma repeated_path_tie_break :
  LogSet_init no_custom fs ["tB"; "tA"; "tB"]
  = ([EvOpen "tB"; EvOpen "tA"; EvOpen "tB"],
     Ok (mkLogSet [("tB", log_tB); ("tA", log_tA)])) /\
  _timestamp log_tB = _timestamp log_tA /\
  last ["tB"; "tA"; "tB"] "" = "tB" /\
  next_entry no_custom (mkLogSet [("tB", log_tB); ("tA", log_tA)])
  = ([],
     Ok ("tA",
         [("5 a5" ++ nl)%string; ("  c1" ++ nl)%string; ("  c2" ++ nl)%string],
         mkLogSet [("tB", log_tB);
                   ("tA", mkLogfile (Some (mkstream "tA" [])) true (epoch 5)
                                    ("5 a5" ++ nl)%string)])).
Proof. repeat split; vm_compute; reflexivity. Qed.

Lemma next_entry_tie_break_witness :
  (exists evs,
     next_entry no_custom ls_tie
     = (evs,
        match entry no_custom log_tB with
        | Raise e => Raise e
        | Ok (lines, log') =>
            Ok ("tB", lines, mkLogSet (dict_set (live (_logs ls_tie)) "tB" log'))
        end)) /\
  (forall lines log',
     entry no_custom log_tB = Ok (lines, log') -> hd "" lines = _line log_tB) /\
  (forall k l,
     In (k, l) (live (_logs ls_tie)) ->
     nth_error ["tA"; "tB"] (first_index ["tA"; "tB"] k) = Some k /\
     (forall i, nth_error ["tA"; "tB"] i = Some k ->
                first_index ["tA"; "tB"] k <= i) /\
     (NoDup ["tA"; "tB"] ->
      forall i, nth_error ["tA"; "tB"] i = Some k ->
                i = first_index ["tA"; "tB"] k)).
Proof.
  apply (next_entry_tie_break no_custom fs ["tA"; "tB"] ls_tie "tB" log_tB).
  - eapply reach_init. exact LogSet_init_tie.
  - right; left; reflexivity.
  - intros k l H. simpl in H.
    destruct H as [H|[H|[]]]; inversion H; subst; reflexivity.
  - intros k l H _. simpl in H.
    destruct H as [H|[H|[]]]; inversion H; subst; simpl; lia.
Defined.

(** ** C4 *)

Lemma merged_entries_ordered_witness :
  exists t1 t2,
    entry_timestamp no_custom (snd ("A", [("1 a1" ++ nl)%string;
                                          ("  more a1" ++ nl)%string]))
    = Ok (Some t1) /\
    entry_timestamp no_custom (snd ("B", [("3 b3" ++ nl)%string])) = Ok (Some t2) /\
    dt_le t1 t2.
Proof.
  apply (merged_entries_ordered no_custom fs ["A"; "B"]
           [EvOpen "A"; EvOpen "B"] ls_AB 4 0 2).
  - intros path text [H|[H|[]]] Hfs; subst path;
      vm_compute in Hfs; inversion Hfs; subst text;
      vm_compute; repeat constructor.
  - exact LogSet_init_AB.
  - lia.
  - vm_compute. reflexivity.
  - vm_compute. reflexivity.
Defined.

(** ** C5 *)

(** Colorizing on a terminal without [--prefix]: no [logN] prefix is
    rendered, though [--no-prefix] was not given. *)
Lemma colorize_suppresses_prefix :
  no_prefix args_color = false /\ prefix args_color = None /\
  main 10 true fs args_color
  = ([EvOpen "A"; EvOpen "B";
      EvPrint (color_on 1 ++ "1 a1" ++ color_off ++ nl)%string;
      EvPrint (color_on 1 ++ "  more a1" ++ color_off ++ nl)%string;
      EvPrint (color_on 2 ++ "2 b2" ++ color_off ++ nl)%string;
      EvPrint (color_on 2 ++ "3 b3" ++ color_off ++ nl)%string; EvClose "B";
      EvPrint (color_on 1 ++ "3 a3" ++ color_off ++ nl)%string; EvClose "A"],
     Exit 0).
Proof. repeat split; vm_compute; reflexivity. Qed.

Lemma prefix_by_position_witness :
  (limit_of (prefix args_prefix) <= 1 ->
   dd_get (prefixes_of false args_prefix) "" "B"
   = ("log" ++ str_of_nat 2 ++ " ")%string) /\
  (forall labels,
     1 < limit_of (prefix args_prefix) -> prefix args_prefix = Some labels ->
     dd_get (prefixes_of false args_prefix) "" "B" = (nth 1 labels "" ++ " ")%string) /\
  (forall line color,
     line <> "" ->
     exists pre body,
       render line (Some (dd_get (prefixes_of false args_prefix) "" "B")) color
       = Ok (pre ++ dd_get (prefixes_of false args_prefix) "" "B" ++ body)%string /\
       (color = (-1)%Z -> pre = "" /\ body = line)).
Proof.
  apply (prefix_by_position false args_prefix 1 "B").
  - reflexivity.
  - reflexivity.
  - intros [].
Defined.

Example run_prefix :
  main 10 false fs args_prefix
  = ([EvOpen "A"; EvOpen "B";
      EvPrint ("x 1 a1" ++ nl)%string; EvPrint ("x   more a1" ++ nl)%string;
      EvPrint ("log2 2 b2" ++ nl)%string;
      EvPrint ("log2 3 b3" ++ nl)%string; EvClose "B";
      EvPrint ("x 3 a3" ++ nl)%string; EvClose "A"],
     Exit 0).
Proof. vm_compute. reflexivity. Qed.

(** ** C6 *)

(** [--regex ''] without [--format]: one of the two options is given,
    and the run goes through and exits with code 0. *)
Lemma empty_regex_is_no_usage_error :
  regex args_empty_regex = Some "" /\ format args_empty_regex = None /\
  main 10 false fs args_empty_regex
  = ([EvOpen "A"; EvOpen "B";
      EvPrint ("log1 1 a1" ++ nl)%string; EvPrint ("log1   more a1" ++ nl)%string;
      EvPrint ("log2 2 b2" ++ nl)%string;
      EvPrint ("log2 3 b3" ++ nl)%string; EvClose "B";
      EvPrint ("log1 3 a3" ++ nl)%string; EvClose "A"],
     Exit 0).
Proof. repeat split; vm_compute; reflexivity. Qed.

Example one_logfile :
  main 10 false fs (mkNamespace None false None None false ["A"])
  = ([EvPrint ("Requires at least two logfiles" ++ nl)%string], Exit 1).
Proof. vm_compute. reflexivity. Qed.

Example regex_without_format :
  main 10 false fs
       (mkNamespace None false (Some "(\d+) ") None false ["A"; "B"])
  = ([EvPrint ("Requires both timestamp regex and format or none" ++ nl)%string],
     Exit 1).
Proof. vm_compute. reflexivity. Qed.

(** ** C7 *)

Lemma Logfile_init_discards_leading_witness :
  (forall line t rest,
     readlines text_A = [("# header" ++ nl)%string] ++ line :: rest ->
     parse_datetime no_custom line = Ok (Some t) ->
     Logfile_init no_custom fs "A"
     = ([EvOpen "A"], Ok (mkLogfile (Some (mkstream "A" rest)) false t line)) /\
     forall n, exists unread,
       line :: rest
       = List.concat
           (entries no_custom n (mkLogfile (Some (mkstream "A" rest)) false t line))
         ++ unread) /\
  (readlines text_A = [("# header" ++ nl)%string] ->
     exists self,
       Logfile_init no_custom fs "A" = ([EvOpen "A"], Ok self) /\
       _eof self = true /\
       forall n, entries no_custom n self = []).
Proof.
  apply (Logfile_init_discards_leading no_custom fs "A" text_A
           [("# header" ++ nl)%string]).
  - reflexivity.
  - repeat constructor. discriminate.
Defined.

Example banner_starts_exhausted :
  Logfile_init no_custom fs "banner"
  = ([EvOpen "banner"],
     Ok (mkLogfile (Some (mkstream "banner" [])) true datetime_max "")).
Proof. vm_compute. reflexivity. Qed.

(** ** C8 *)

Example entry_reads_ahead :
  entry no_custom log_tA
  = Ok ([("5 a5" ++ nl)%string; ("  c1" ++ nl)%string; ("  c2" ++ nl)%string],
        mkLogfile (Some (mkstream "tA" [])) true (epoch 5) ("5 a5" ++ nl)%string).
Proof. vm_compute. reflexivity. Qed.

(** ** C9 *)

(** [logmerge.py A B A]: three streams are opened and two are closed;
    the stream opened first for A is not closed. *)
Lemma repeated_path_stream_not_closed :
  snd (main 10 false fs args_dup) = Exit 0 /\
  opens (fst (main 10 false fs args_dup)) = ["A"; "B"; "A"] /\
  closes (fst (main 10 false fs args_dup)) = ["B"; "A"] /\
  count_occ string_dec (opens (fst (main 10 false fs args_dup))) "A" = 2 /\
  count_occ string_dec (closes (fst (main 10 false fs args_dup))) "A" = 1.
Proof. repeat split; vm_compute; reflexivity. Qed.

Lemma close_exactly_once_witness :
  (opens [EvOpen "A"; EvOpen "B"] = ["A"; "B"] /\
   closes [EvOpen "A"; EvOpen "B"] = []) /\
  (forall ls evs r,
     reachable no_custom fs ["A"; "B"] ls ->
     next_entry no_custom ls = (evs, r) ->
     evs = map EvClose (keys (exhausted (_logs ls))) /\
     (forall k l,
        In (k, l) (exhausted (_logs ls)) ->
        _eof l = true /\
        close l = ([EvClose k], Ok (mkLogfile None true (_timestamp l) ""))) /\
     (forall path lines ls',
        r = Ok (path, lines, ls') ->
        keys (_logs ls') = keys (live (_logs ls)))) /\
  (forall fuel prefixes colors default_color evs o,
     main_loop fuel no_custom ls_AB prefixes colors default_color = (evs, o) ->
     opens evs = [] /\
     NoDup (closes evs) /\
     incl (closes evs) ["A"; "B"] /\
     (o = Exit 0 ->
      (forall path, In path ["A"; "B"] ->
                    count_occ string_dec (closes evs) path = 1) /\
      (NoDup ["A"; "B"] ->
       Permutation (closes evs) (opens ([EvOpen "A"; EvOpen "B"] ++ evs))))).
Proof.
  apply (close_exactly_once no_custom fs ["A"; "B"] [EvOpen "A"; EvOpen "B"] ls_AB).
  exact LogSet_init_AB.
Defined.

(** The run of [logmerge.py A B] closes B when A still has an entry, and
    A at the end. *)
Example closes_of_run_AB :
  closes (fst (main 10 false fs args_AB)) = ["B"; "A"] /\
  opens (fst (main 10 false fs args_AB)) = ["A"; "B"].
Proof. split; vm_compute; reflexivity. Qed.

(** ** C10 *)

Lemma next_entry_lines_nonempty_witness :
  [("5 b5" ++ nl)%string] <> [] /\
  Forall (fun line => line <> "") [("5 b5" ++ nl)%string] /\
  forall line prefix_arg color,
    In line [("5 b5" ++ nl)%string] ->
    exists text, render line prefix_arg color = Ok text.
Proof.
  apply (next_entry_lines_nonempty no_custom fs ["tA"; "tB"] ls_tie [] "tB"
           [("5 b5" ++ nl)%string]
           (mkLogSet [("tA", log_tA);
                      ("tB", mkLogfile (Some (mkstream "tB" [])) true (epoch 5)
                                       ("5 b5" ++ nl)%string)])).
  - eapply reach_init. exact LogSet_init_tie.
  - vm_compute. reflexivity.
Defined.

End Runs.

(** * The further properties on concrete runs *)

Section MoreRuns.

Import Scenario MoreScenario.

#[local] Existing Instance Py.cpython.

Lemma ls_AB_inv : LogSet_inv no_custom ls_AB.
Proof. eapply LogSet_init_inv. exact LogSet_init_AB. Qed.

Lemma ls_AB_ok : LogSet_ok no_custom ls_AB.
Proof. apply LogSet_inv_ok. exact ls_AB_inv. Qed.

Lemma ls_AB_not_closed :
  forall k l, In (k, l) (_logs ls_AB) -> _f l <> None.
Proof.
  intros k l Hin. destruct (proj2 (proj2 ls_AB_inv) k l Hin) as (f & -> & _).
  discriminate.
Qed.

Lemma ls_AB_reads_safely :
  forall k l, In (k, l) (_logs ls_AB) -> reads_safely no_custom l.
Proof.
  intros k l [H|[H|[]]]; inversion H; subst; intros f Hf line Hin;
    inversion Hf; subst; simpl in Hin;
    repeat (destruct Hin as [<-|Hin]; [eexists; vm_compute; reflexivity|]);
    destruct Hin.
Qed.

Lemma log_A_read_ahead : read_ahead no_custom log_A.
Proof. apply (proj2 ls_AB_ok "A" log_A). left; reflexivity. Qed.

Example run_dup :
  main 10 false fs args_dup
  = ([EvOpen "A"; EvOpen "B"; EvOpen "A";
      EvPrint ("log3 1 a1" ++ nl)%string; EvPrint ("log3   more a1" ++ nl)%string;
      EvPrint ("log2 2 b2" ++ nl)%string;
      EvPrint ("log2 3 b3" ++ nl)%string; EvClose "B";
      EvPrint ("log3 3 a3" ++ nl)%string; EvClose "A"],
     Exit 0).
Proof. vm_compute. reflexivity. Qed.

Example LogSet_init_dup :
  LogSet_init no_custom fs ["A"; "B"; "A"]
  = ([EvOpen "A"; EvOpen "B"; EvOpen "A"], Ok ls_AB).
Proof. vm_compute. reflexivity. Qed.

Example configure_AB : configure args_AB = Ok no_custom.
Proof. reflexivity. Qed.

Lemma entries_complete_witness :
  List.concat (entries no_custom 3 log_A)
  = _line log_A :: [("  more a1" ++ nl)%string; ("3 a3" ++ nl)%string].
Proof.
  apply (entries_complete no_custom 3 log_A
           (mkstream "A" [("  more a1" ++ nl)%string; ("3 a3" ++ nl)%string])).
  - exact log_A_read_ahead.
  - apply (ls_AB_reads_safely "A" log_A). left; reflexivity.
  - reflexivity.
  - reflexivity.
  - vm_compute. lia.
Defined.

Lemma next_entries_source_prefix_witness :
  (_eof log_A = true -> lines_of "A" (next_entries no_custom 2 ls_AB) = []) /\
  (_eof log_A = false ->
   exists f unread,
     _f log_A = Some f /\
     _line log_A :: unread_lines f
     = lines_of "A" (next_entries no_custom 2 ls_AB) ++ unread).
Proof.
  apply (next_entries_source_prefix no_custom 2 ls_AB "A" log_A).
  - exact ls_AB_ok.
  - left; reflexivity.
Defined.

Lemma next_entries_complete_witness :
  lines_of "B" (next_entries no_custom 5 ls_AB)
  = _line log_B :: [("3 b3" ++ nl)%string].
Proof.
  apply (next_entries_complete no_custom 5 ls_AB "B" log_B
           (mkstream "B" [("3 b3" ++ nl)%string])).
  - exact ls_AB_ok.
  - exact ls_AB_not_closed.
  - exact ls_AB_reads_safely.
  - vm_compute. lia.
  - right; left; reflexivity.
  - reflexivity.
  - reflexivity.
Defined.

Lemma next_entry_EOFError_iff_witness :
  (snd (next_entry no_custom ls_AB) = Raise EOFError -> live (_logs ls_AB) = []) /\
  ((forall k l, In (k, l) (_logs ls_AB) -> _f l <> None) ->
   (snd (next_entry no_custom ls_AB) = Raise EOFError
    <-> live (_logs ls_AB) = [])).
Proof. apply (next_entry_EOFError_iff no_custom ls_AB). exact ls_AB_ok. Defined.

(** A merge set whose only reader is exhausted: the call closes it and
    signals the end. *)
Example merge_of_exhausted_ends :
  next_entry no_custom
    (mkLogSet [("banner",
                mkLogfile (Some (mkstream "banner" [])) true datetime_max "")])
  = ([EvClose "banner"], Raise EOFError).
Proof. reflexivity. Qed.

Example merge_of_nothing_ends :
  next_entry no_custom (mkLogSet []) = ([], Raise EOFError).
Proof. reflexivity. Qed.

Lemma next_entry_selects_minimum_witness :
  exists log,
    In ("A", log) (_logs ls_AB) /\ _eof log = false /\
    hd "" [("1 a1" ++ nl)%string; ("  more a1" ++ nl)%string] = _line log /\
    entry_timestamp no_custom [("1 a1" ++ nl)%string; ("  more a1" ++ nl)%string]
    = Ok (Some (_timestamp log)) /\
    forall k l, In (k, l) (_logs ls_AB) -> _eof l = false ->
                dt_le (_timestamp log) (_timestamp l).
Proof.
  apply (next_entry_selects_minimum no_custom ls_AB [] "A"
           [("1 a1" ++ nl)%string; ("  more a1" ++ nl)%string]
           (mkLogSet [("A", mkLogfile (Some (mkstream "A" [])) false (epoch 3)
                                      ("3 a3" ++ nl)%string);
                      ("B", log_B)])).
  - exact ls_AB_ok.
  - vm_compute. reflexivity.
Defined.

Lemma next_entry_leaves_live_witness :
  In "A" (keys (_logs (mkLogSet [("A", mkLogfile (Some (mkstream "A" [])) false (epoch 3)
                                                 ("3 a3" ++ nl)%string);
                                 ("B", log_B)]))) /\
  forall k l,
    In (k, l) (_logs (mkLogSet [("A", mkLogfile (Some (mkstream "A" [])) false (epoch 3)
                                                ("3 a3" ++ nl)%string);
                                ("B", log_B)])) ->
    k <> "A" -> _eof l = false.
Proof.
  apply (next_entry_leaves_live no_custom ls_AB []
           "A" [("1 a1" ++ nl)%string; ("  more a1" ++ nl)%string]).
  - exact ls_AB_ok.
  - vm_compute. reflexivity.
Defined.

Lemma next_entries_bounded_witness :
  List.length (next_entries no_custom 10 ls_AB) <= LogSet_fuel (_logs ls_AB).
Proof. apply (next_entries_bounded no_custom 10 ls_AB). exact ls_AB_ok. Defined.

Lemma LogSet_init_opens_and_keys_witness :
  [EvOpen "A"; EvOpen "B"; EvOpen "A"] = map EvOpen ["A"; "B"; "A"] /\
  keys (_logs ls_AB) = first_occurrences ["A"; "B"; "A"] /\
  NoDup (keys (_logs ls_AB)).
Proof.
  apply (LogSet_init_opens_and_keys no_custom fs ["A"; "B"; "A"]).
  exact LogSet_init_dup.
Defined.

Lemma main_opens_first_witness :
  exists k rest,
    fst (main 10 false fs args_AB) = map EvOpen (firstn k (logfiles args_AB)) ++ rest /\
    opens rest = [] /\
    (rest <> [] -> k = List.length (logfiles args_AB)).
Proof.
  apply (main_opens_first 10 false fs args_AB no_custom
           (fst (main 10 false fs args_AB)) (snd (main 10 false fs args_AB))).
  - simpl. lia.
  - reflexivity.
  - reflexivity.
  - apply surjective_pairing.
Defined.

Lemma main_missing_file_witness :
  exists evs e,
    main 10 false fs args_missing = (evs, Uncaught e) /\
    prints evs = [] /\ closes evs = [].
Proof.
  apply (main_missing_file 10 false fs args_missing no_custom "nofile").
  - simpl. lia.
  - reflexivity.
  - reflexivity.
  - right; left; reflexivity.
  - reflexivity.
Defined.

Example run_missing :
  main 10 false fs args_missing = ([EvOpen "A"], Uncaught OSError).
Proof. vm_compute. reflexivity. Qed.

Lemma main_prints_merged_entries_witness :
  prints (fst (main 10 false fs args_AB))
  = flat_map (rendered (prefixes_of false args_AB) (colors_of false args_AB)
                       (if colorize_of false args_AB then 15%Z else (-1)%Z))
             (next_entries no_custom 10 ls_AB).
Proof.
  apply (main_prints_merged_entries 10 false fs args_AB no_custom
           [EvOpen "A"; EvOpen "B"] ls_AB).
  - simpl. lia.
  - reflexivity.
  - reflexivity.
  - exact LogSet_init_AB.
Defined.

Lemma parse_builtin_needs_digit_witness :
  iso8601_pattern ("  more a1" ++ nl)%string = None /\
  cloud_init_pattern ("  more a1" ++ nl)%string = None /\
  timestamp_pattern ("  more a1" ++ nl)%string = None /\
  parse_datetime (mkconfig None None) ("  more a1" ++ nl)%string = Ok None.
Proof.
  apply (parse_builtin_needs_digit ("  more a1" ++ nl)%string).
  intros c s H. inversion H; subst. reflexivity.
Defined.

Example render_coloured_line :
  render ("1 a1" ++ nl)%string (Some "log1 ") 1
  = Ok (color_on 1 ++ "log1 " ++ "1 a1" ++ color_off ++ nl)%string.
Proof. reflexivity. Qed.

Example render_coloured_empty : render "" (Some "log1 ") 1 = Raise IndexError.
Proof. reflexivity. Qed.

Lemma color_by_position_witness :
  dd_get (colors_of true args_color) 15%Z "B" = Z.of_nat 2 /\
  (1 < 255 ->
   forall line p, line <> "" ->
     exists body,
       render line (Some p) (Z.of_nat 2)
       = Ok (color_on (Z.of_nat 2) ++ p ++ body)%string) /\
  (255 <= 1 ->
   forall line p, render line (Some p) (Z.of_nat 2) = Ok (p ++ line)%string).
Proof.
  apply (color_by_position true args_color 1 "B").
  - reflexivity.
  - reflexivity.
  - intros [].
Defined.

Lemma plain_output_verbatim_witness :
  render ("  more a1" ++ nl)%string
         (Some (dd_get (prefixes_of false args_plain) "" "A"))
         (dd_get (colors_of false args_plain) (-1)%Z "A")
  = Ok ("  more a1" ++ nl)%string.
Proof.
  apply (plain_output_verbatim false args_plain "A").
  - reflexivity.
  - reflexivity.
Defined.

Example run_plain :
  main 10 false fs args_plain
  = ([EvOpen "A"; EvOpen "B";
      EvPrint ("1 a1" ++ nl)%string; EvPrint ("  more a1" ++ nl)%string;
      EvPrint ("2 b2" ++ nl)%string;
      EvPrint ("3 b3" ++ nl)%string; EvClose "B";
      EvPrint ("3 a3" ++ nl)%string; EvClose "A"],
     Exit 0).
Proof. vm_compute. reflexivity. Qed.

Example iso_line_matches_one_pattern :
  iso8601_pattern line_iso <> None /\
  cloud_init_pattern line_iso = None /\ timestamp_pattern line_iso = None.
Proof. repeat split; vm_compute; congruence. Qed.

Lemma main_exit_meaning_witness :
  (0%Z = 1%Z /\
   (List.length (logfiles args_dup) < 2 \/
    truthy (format args_dup) <> truthy (regex args_dup)) /\
   opens (fst (main 10 false fs args_dup)) = []) \/
  (0%Z = 0%Z /\
   2 <= List.length (logfiles args_dup) /\
   truthy (format args_dup) = truthy (regex args_dup) /\
   opens (fst (main 10 false fs args_dup)) = logfiles args_dup /\
   forall path, In path (logfiles args_dup) ->
                count_occ string_dec (closes (fst (main 10 false fs args_dup))) path
                = 1).
Proof.
  apply (main_exit_meaning 10 false fs args_dup).
  vm_compute. reflexivity.
Defined.

Lemma close_finds_stream_witness :
  exists l',
    close log_B = ([EvClose "B"], Ok l') /\
    _eof l' = true /\ _f l' = None /\ _line l' = "" /\
    timestamp l' = Raise EOFError /\
    entry no_custom l' = Raise EOFError /\
    close l' = ([], Raise AttributeError) /\
    Logfile_exit log_B = ([EvClose "B"], Ok l').
Proof.
  apply (close_finds_stream no_custom fs ["A"; "B"] ls_AB "B" log_B).
  - eapply reach_init. exact LogSet_init_AB.
  - right; left; reflexivity.
Defined.

End MoreRuns.
